(** * FAQ retrieval engine: normalisation, scoring, matching, evaluation

    A shallow embedding of the retrieval core of [src/utils.py],
    [src/chat.py] and [src/evaluate.py].

    Modelling conventions.
    - A Python [str] is a list of Unicode code points ([N]).
    - A Python [float] produced by the scorers is a real number; the
      sentinel [float("-inf")] is a separate constructor of [score].
      Rounding is abstracted.
    - A Python [dict] with a fixed set of keys is a record; a key that the
      code reads with [.get(key, default)] or that only some payloads
      carry is an [option] field, and reading an absent key with
      [d[key]] raises [KeyError].
    - A [Counter] is an association list in insertion order.
    - [str.lower] (the Unicode case mapping) and scikit-learn's vectoriser
      and similarity primitive are not part of the repository; they are
      section variables. *)

From Stdlib Require Import String Ascii.
From Stdlib Require Import List NArith Arith Bool Lia.
From Stdlib Require Import Permutation Sorted Reals Lra.
Import ListNotations.

(** ** Strings as code-point lists *)

Definition char := N.
Definition str := list char.

Definition char_eqb : char -> char -> bool := N.eqb.

Fixpoint str_eqb (a b : str) : bool :=
  match a, b with
  | [], [] => true
  | x :: a', y :: b' => char_eqb x y && str_eqb a' b'
  | _, _ => false
  end.

Definition str_eq_dec : forall a b : str, {a = b} + {a <> b} :=
  list_eq_dec N.eq_dec.

(** [x in collection] for a collection of strings. *)
Definition mem (x : str) (l : list str) : bool := existsb (str_eqb x) l.

(** An ASCII literal as a code-point list. *)
Definition lit (s : string) : str := map N_of_ascii (list_ascii_of_string s).

Definition between (lo hi c : N) : bool := (lo <=? c)%N && (c <=? hi)%N.

(** ** Exceptions *)

Inductive exn := KeyError | IndexError | ValueError.

Inductive result (A : Type) : Type :=
| Ok (a : A)
| Raise (e : exn).
Arguments Ok {A} a.
Arguments Raise {A} e.

Definition bind {A B} (m : result A) (k : A -> result B) : result B :=
  match m with
  | Ok a => k a
  | Raise e => Raise e
  end.

Notation "x <- m ;; k" := (bind m (fun x => k))
  (at level 61, m at next level, right associativity).

(** [d[key]] on an optional key. *)
Definition key {A} (o : option A) : result A :=
  match o with
  | Some a => Ok a
  | None => Raise KeyError
  end.

(** [d.get(key, default)]. *)
Definition get {A} (o : option A) (default : A) : A :=
  match o with
  | Some a => a
  | None => default
  end.

(** ** Runs of characters: the engine of [re.findall] and [str.split] *)

Definition push (cur : str) (rest : list str) : list str :=
  match cur with
  | [] => rest
  | _ :: _ => cur :: rest
  end.

(** [runs_aux keep s] is the run of kept characters at the head of [s]
    (possibly empty) and the maximal non-empty runs after it. *)
Fixpoint runs_aux (keep : char -> bool) (s : str) : str * list str :=
  match s with
  | [] => ([], [])
  | c :: s' =>
      let (cur, rest) := runs_aux keep s' in
      if keep c then (c :: cur, rest) else ([], push cur rest)
  end.

(** The maximal non-empty runs of characters satisfying [keep]. *)
Definition runs (keep : char -> bool) (s : str) : list str :=
  let (cur, rest) := runs_aux keep s in push cur rest.

(** [sep.join(parts)]. *)
Fixpoint join (sep : str) (parts : list str) : str :=
  match parts with
  | [] => []
  | [p] => p
  | p :: ps => p ++ sep ++ join sep ps
  end.

(** [str.isspace] on one code point. *)
Definition is_space (c : char) : bool :=
  between 9 13 c || between 28 32 c || (c =? 133)%N || (c =? 160)%N
  || (c =? 5760)%N || between 8192 8202 c || (c =? 8232)%N || (c =? 8233)%N
  || (c =? 8239)%N || (c =? 8287)%N || (c =? 12288)%N.

(** [s.split()] *)
Definition split (s : str) : list str := runs (fun c => negb (is_space c)) s.

Fixpoint lstrip (s : str) : str :=
  match s with
  | c :: s' => if is_space c then lstrip s' else s
  | [] => []
  end.

(** [s.strip()] *)
Definition strip (s : str) : str := rev (lstrip (rev (lstrip s))).

Fixpoint startswith (s prefix : str) : bool :=
  match prefix, s with
  | [], _ => true
  | p :: prefix', c :: s' => char_eqb c p && startswith s' prefix'
  | _ :: _, [] => false
  end.

(** [s.replace(old, new)] for one-character [old] and [new]. *)
Definition replace_char (old new : char) (s : str) : str :=
  map (fun c => if char_eqb c old then new else c) s.

(** ** utils.py: stopwords *)

Definition EN_STOPWORDS : list str :=
  map lit ["a"; "an"; "the"; "is"; "are"; "am"; "was"; "were"; "to"; "for";
           "of"; "and"; "or"; "in"; "on"; "at"; "how"; "what"]%string.

(** The twelve Russian stopwords of the source, by code point. *)
Definition RU_STOPWORDS : list str :=
  [ [1080]; [1074]; [1085; 1072]; [1089]; [1087; 1086]; [1086];
    [1095; 1090; 1086]; [1082; 1072; 1082]; [1101; 1090; 1086];
    [1076; 1083; 1103]; [1082]; [1080; 1079] ]%N.

(** Character classes of the two regular expressions. *)

(** [[а-яё]] *)
Definition is_cyrillic_lower (c : char) : bool :=
  between 1072 1103 c || (c =? 1105)%N.

(** [[a-zA-Zа-яА-ЯёЁ0-9]] *)
Definition is_token_char (c : char) : bool :=
  between 97 122 c || between 65 90 c || between 1072 1103 c
  || between 1040 1071 c || (c =? 1105)%N || (c =? 1025)%N || between 48 57 c.

(** The lower-case part of the token alphabet: [[a-zа-яё0-9]]. *)
Definition is_lower_token_char (c : char) : bool :=
  between 97 122 c || between 1072 1103 c || (c =? 1105)%N || between 48 57 c.

Definition space : char := 32%N.

Section Normalizer.

(** Python's [str.lower]. *)
Variable lower : str -> str.

(** [contains_cyrillic]: [re.search(r"[а-яё]", text.lower())]. *)
Definition contains_cyrillic (text : str) : bool :=
  existsb is_cyrillic_lower (lower text).

(** [tokenize]: [re.findall(r"[a-zA-Zа-яА-ЯёЁ0-9]+", text.lower())]. *)
Definition tokenize (text : str) : list str :=
  runs is_token_char (lower text).

(** [normalize_text] *)
Definition normalize_text (text : str) : str :=
  let tokens := tokenize text in
  match tokens with
  | [] => []
  | _ :: _ =>
      let cleaned :=
        if contains_cyrillic text
        then filter (fun token => negb (mem token RU_STOPWORDS)) tokens
        else filter (fun token => negb (mem token EN_STOPWORDS)) tokens in
      join [space] cleaned
  end.

End Normalizer.

(** A case mapping for the Basic Latin and Cyrillic blocks, with the two
    code points from other blocks whose lower-case form contains a Latin
    letter (U+0130 and the Kelvin sign U+212A).  Used to run the model on
    concrete inputs. *)
Definition lower_cp (c : char) : str :=
  if between 65 90 c then [c + 32]%N
  else if between 1040 1071 c then [c + 32]%N
  else if between 1024 1039 c then [c + 80]%N
  else if (c =? 304)%N then [105; 775]%N
  else if (c =? 8490)%N then [107]%N
  else [c].

Definition basic_lower (s : str) : str := flat_map lower_cp s.

(** ** Collections *)

(** [collections.Counter]: term -> count, in insertion order. *)
Definition Counter := list (str * nat).

(** [c[t] += 1] *)
Fixpoint counter_incr (t : str) (c : Counter) : Counter :=
  match c with
  | [] => [(t, 1)]
  | (k, n) :: c' =>
      if str_eqb k t then (k, S n) :: c' else (k, n) :: counter_incr t c'
  end.

(** [c.update(iterable)]: one increment per element. *)
Definition counter_update (c : Counter) (items : list str) : Counter :=
  fold_left (fun acc t => counter_incr t acc) items c.

(** [Counter(tokens)] *)
Definition counter_of (tokens : list str) : Counter := counter_update [] tokens.

(** [t in c] *)
Definition counter_mem (t : str) (c : Counter) : bool :=
  existsb (fun kv => str_eqb (fst kv) t) c.

(** [c[t]] (a missing term counts 0). *)
Fixpoint counter_get (c : Counter) (t : str) : nat :=
  match c with
  | [] => 0
  | (k, n) :: c' => if str_eqb k t then n else counter_get c' t
  end.

(** [c.keys()] *)
Definition keys {V} (d : list (str * V)) : list str := map fst d.

(** [d.get(t, default)] on a dict keyed by terms. *)
Fixpoint dict_get {V} (d : list (str * V)) (t : str) (default : V) : V :=
  match d with
  | [] => default
  | (k, v) :: d' => if str_eqb k t then v else dict_get d' t default
  end.

(** [set(l)]: the distinct elements of [l]. *)
Definition set_of (l : list str) : list str := nodup str_eq_dec l.

(** [a.intersection(b)] *)
Definition intersection (a b : list str) : list str :=
  filter (fun x => mem x b) a.

(** [l[idx]] *)
Definition get_item {A} (l : list A) (idx : nat) : result A :=
  match nth_error l idx with
  | Some a => Ok a
  | None => Raise IndexError
  end.

(** [l[idx] = v] *)
Fixpoint set_item {A} (l : list A) (idx : nat) (v : A) : result (list A) :=
  match l, idx with
  | [], _ => Raise IndexError
  | _ :: l', O => Ok (v :: l')
  | x :: l', S i => l'' <- set_item l' i v ;; Ok (x :: l'')
  end.

Definition null {A} (l : list A) : bool :=
  match l with
  | [] => true
  | _ :: _ => false
  end.

Local Open Scope R_scope.

(** ** utils.py: Boolean and BM25 scoring *)

(** [score_boolean] *)
Definition score_boolean (query_tokens : list str) (doc_tokens : list (list str))
  : list R :=
  match query_tokens with
  | [] => map (fun _ => 0) doc_tokens
  | _ :: _ =>
      let query_set := set_of query_tokens in
      map (fun doc =>
             let doc_set := set_of doc in
             let matches := length (intersection query_set doc_set) in
             INR matches / INR (length query_set))
          doc_tokens
  end.

(** The dictionary returned by [build_bm25_index]; both of its return
    sites fill every key. *)
Record bm25_index := {
  idf : list (str * R);
  doc_term_freqs : list Counter;
  doc_lengths : list nat;
  avg_doc_length : R;
  k1 : R;
  b : R
}.

(** Accumulators of the loop of [build_bm25_index]. *)
Record build_state := {
  st_doc_freq : Counter;
  st_doc_term_freqs : list Counter;
  st_doc_lengths : list nat
}.

Definition build_step (st : build_state) (tokens : list str) : build_state :=
  let term_freq := counter_of tokens in
  {| st_doc_term_freqs := st_doc_term_freqs st ++ [term_freq];
     st_doc_lengths := st_doc_lengths st ++ [length tokens];
     st_doc_freq := counter_update (st_doc_freq st) (keys term_freq) |}.

(** The [doc_freq] counter after the loop has run over [docs] from [df0]. *)
Definition doc_freq_of (docs : list (list str)) (df0 : Counter) : Counter :=
  fold_left (fun df d => counter_update df (keys (counter_of d))) docs df0.

(** [math.log(1 + (total_docs - freq + 0.5) / (freq + 0.5))] *)
Definition idf_value (total_docs freq : nat) : R :=
  ln (1 + (IZR (Z.of_nat total_docs - Z.of_nat freq) + 0.5) / (INR freq + 0.5)).

(** [build_bm25_index] *)
Definition build_bm25_index (doc_tokens : list (list str)) : bm25_index :=
  let total_docs := length doc_tokens in
  if (total_docs =? 0)%nat then
    {| idf := []; doc_term_freqs := []; doc_lengths := [];
       avg_doc_length := 0.0; k1 := 1.5; b := 0.75 |}
  else
    let st := fold_left build_step doc_tokens
                {| st_doc_freq := []; st_doc_term_freqs := [];
                   st_doc_lengths := [] |} in
    let avg := INR (list_sum (st_doc_lengths st)) / INR total_docs in
    let idf_map :=
      map (fun tf => (fst tf, idf_value total_docs (snd tf))) (st_doc_freq st) in
    {| idf := idf_map;
       doc_term_freqs := st_doc_term_freqs st;
       doc_lengths := st_doc_lengths st;
       avg_doc_length := avg; k1 := 1.5; b := 0.75 |}.

(** The body of the inner loop of [score_bm25]: one query term. *)
Definition bm25_accumulate (ix : bm25_index) (term_freqs : Counter)
  (doc_length : nat) (score : R) (tq : str * nat) : R :=
  let (term, qf) := tq in
  if negb (counter_mem term term_freqs) then score
  else
    let term_idf := dict_get (idf ix) term 0.0 in
    let term_tf := counter_get term_freqs term in
    let numerator := INR term_tf * (k1 ix + 1) in
    let denominator :=
      INR term_tf
      + k1 ix * (1 - b ix + b ix * (INR doc_length / avg_doc_length ix)) in
    score + term_idf * (numerator / denominator) * INR qf.

(** The contribution the inner loop adds for one query term. *)
Definition bm25_contribution (ix : bm25_index) (term_freqs : Counter)
  (doc_length : nat) (term : str) (qf : nat) : R :=
  dict_get (idf ix) term 0.0
  * (INR (counter_get term_freqs term) * (k1 ix + 1)
     / (INR (counter_get term_freqs term)
        + k1 ix * (1 - b ix + b ix * (INR doc_length / avg_doc_length ix))))
  * INR qf.

(** [score_bm25] *)
Definition score_bm25 (query_tokens : list str) (ix : bm25_index) : list R :=
  match query_tokens with
  | [] => map (fun _ => 0.0) (doc_term_freqs ix)
  | _ :: _ =>
      if Req_dec_T (avg_doc_length ix) 0 then
        map (fun _ => 0.0) (doc_term_freqs ix)
      else
        let query_terms := counter_of query_tokens in
        map (fun td : Counter * nat =>
               fold_left (bm25_accumulate ix (fst td) (snd td)) query_terms 0.0)
            (combine (doc_term_freqs ix) (doc_lengths ix))
  end.

(** ** Scores with the [-inf] sentinel *)

(** A float of a score vector after masking: [float("-inf")] or a
    computed score.  [score_lt] is Python's [<] on them. *)
Inductive score := NegInf | Fin (x : R).

Definition score_lt (a c : score) : Prop :=
  match a, c with
  | NegInf, Fin _ => True
  | Fin x, Fin y => x < y
  | _, NegInf => False
  end.

Definition score_lt_dec (a c : score) : {score_lt a c} + {~ score_lt a c}.
Proof.
  destruct a as [|x], c as [|y]; simpl.
  - right; tauto.
  - left; exact I.
  - right; tauto.
  - apply Rlt_dec.
Defined.

Definition is_neg_inf (a : score) : bool :=
  match a with
  | NegInf => true
  | Fin _ => false
  end.

(** The scan of Python's [max]: the candidate is replaced only by a
    strictly greater key. *)
Fixpoint max_scan {A} (keyf : A -> score) (best : A) (rest : list A) : A :=
  match rest with
  | [] => best
  | x :: rest' =>
      if score_lt_dec (keyf best) (keyf x)
      then max_scan keyf x rest'
      else max_scan keyf best rest'
  end.

(** [max(iterable, key=keyf)] *)
Definition py_max {A} (keyf : A -> score) (l : list A) : result A :=
  match l with
  | [] => Raise ValueError
  | x :: rest => Ok (max_scan keyf x rest)
  end.

(** [max(range(len(scores)), key=lambda idx: scores[idx])] *)
Definition argmax (scores : list score) : result nat :=
  py_max (fun idx => nth idx scores NegInf) (seq 0 (length scores)).

(** ** Index payload *)

(** One stored question.  Both corpus builders write [pattern] and
    [responses]; [tag] is read with a default by the matcher and without
    one by the evaluator; [source_url] is written for FAQ-table rows
    only. *)
Record example := {
  tag : option str;
  pattern : str;
  responses : list str;
  source_url : option str
}.

Record EvalResult := {
  method : str;
  total : nat;
  correct : nat;
  fallbacks : nat
}.

Definition FALLBACK_MESSAGE : str :=
  lit "I am not sure about that yet. Please rephrase your question.".

(** One entry of the intents file: [intent["tag"]] is read without a
    default, the other two keys with [.get(key, [])]. *)
Record intent := {
  intent_tag : str;
  intent_responses : option (list str);
  intent_patterns : option (list str)
}.

(** One row of the FAQ table. *)
Record qa_row := {
  question : str;
  answer : str;
  topic : str;
  row_source_url : str
}.

(** [for idx, x in enumerate(l)] with a loop state and exceptions;
    [idx] is the index of the head of [l]. *)
Fixpoint for_enumerate {A St} (body : nat -> A -> St -> result St)
  (idx : nat) (l : list A) (s : St) : result St :=
  match l with
  | [] => Ok s
  | a :: l' => s' <- body idx a s ;; for_enumerate body (S idx) l' s'
  end.

Section Engine.

(** Python's [str.lower]. *)
Variable lower : str -> str.

(** The vector space of the fitted scikit-learn vectoriser and the cosine
    of two of its vectors. *)
Variable vec : Type.
Variable cosine : vec -> vec -> R.

(** [cosine_similarity(query_vector, matrix).ravel().tolist()]: one
    similarity per matrix row. *)
Definition cosine_similarity (query_vector : vec) (matrix : list vec) : list R :=
  map (cosine query_vector) matrix.

(** The loaded index payload.  ["examples"] is read without a default
    by every entry point; ["method"] and ["threshold"] are read with
    one; the other keys depend on the method.  [p_vectorizer] is the
    fitted [vectorizer.transform] on one text. *)
Record index_payload := {
  p_method : option str;
  p_examples : list example;
  p_threshold : option R;
  p_vectorizer : option (str -> vec);
  p_matrix : option (list vec);
  p_bm25_index : option bm25_index;
  p_doc_tokens : option (list (list str))
}.

(** ** utils.py: corpus preparation *)

Definition corpus_add (tag_ : str) (responses_ : list str) (url : option str)
  (acc : list str * list example) (pattern_ : str)
  : list str * list example :=
  let normalized := normalize_text lower pattern_ in
  if null normalized then acc
  else (fst acc ++ [normalized],
        snd acc ++ [ {| tag := Some tag_; pattern := pattern_;
                        responses := responses_; source_url := url |} ]).

(** [prepare_corpus]; the argument is the ["intents"] key of the file. *)
Definition prepare_corpus (intents : option (list intent))
  : list str * list example :=
  fold_left
    (fun acc it =>
       let tag_ := intent_tag it in
       let responses_ := get (intent_responses it) [] in
       fold_left (corpus_add tag_ responses_ None)
                 (get (intent_patterns it) []) acc)
    (get intents []) ([], []).

(** [prepare_corpus_from_csv_rows] *)
Definition prepare_corpus_from_csv_rows (rows : list qa_row)
  : list str * list example :=
  fold_left
    (fun acc row =>
       corpus_add (lit "web_" ++ topic row) [answer row]
                  (Some (row_source_url row)) acc (question row))
    rows ([], []).

(** ** chat.py *)

(** [normalized_topic] *)
Definition normalized_topic (tag_ : str) : str :=
  let cleaned := lower (strip tag_) in
  let cleaned :=
    if startswith cleaned (lit "web_") then skipn 4 cleaned else cleaned in
  replace_char 32%N 95%N cleaned.

(** [compute_scores] *)
Definition compute_scores (normalized_query : str) (p : index_payload)
  : result (list R) :=
  let method_ := get (p_method p) (lit "tfidf") in
  if mem method_ [lit "tfidf"; lit "bow"] then
    vectorizer <- key (p_vectorizer p) ;;
    matrix <- key (p_matrix p) ;;
    let query_vector := vectorizer normalized_query in
    Ok (cosine_similarity query_vector matrix)
  else if str_eqb method_ (lit "bm25") then
    let query_tokens := split normalized_query in
    ix <- key (p_bm25_index p) ;;
    Ok (score_bm25 query_tokens ix)
  else
    let query_tokens := split normalized_query in
    docs <- key (p_doc_tokens p) ;;
    Ok (score_boolean query_tokens docs).

(** The body of the topic-filter loop. *)
Definition mask_step (topic_filter : str) (idx : nat) (ex : example)
  (scores : list score) : result (list score) :=
  if negb (str_eqb (normalized_topic (get (tag ex) (lit "general")))
                   topic_filter)
  then set_item scores idx NegInf
  else Ok scores.

(** [random.choice(responses) if responses else FALLBACK_MESSAGE];
    [rnd] is the generator's draw. *)
Definition choose_response (rnd : nat) (responses_ : list str) : str :=
  match responses_ with
  | [] => FALLBACK_MESSAGE
  | _ :: _ => nth (rnd mod length responses_) responses_ FALLBACK_MESSAGE
  end.

(** [get_answer_with_source] *)
Definition get_answer_with_source (rnd : nat) (user_text : str)
  (p : index_payload) (topic_filter : str) : result (str * score * str) :=
  let normalized := normalize_text lower user_text in
  if null normalized then Ok (FALLBACK_MESSAGE, Fin 0.0, [])
  else
    let examples := p_examples p in
    let threshold := get (p_threshold p) 0.25 in
    raw <- compute_scores normalized p ;;
    scores <- (if negb (str_eqb topic_filter (lit "all"))
               then for_enumerate (mask_step topic_filter) 0 examples
                                  (map Fin raw)
               else Ok (map Fin raw)) ;;
    if null scores then Ok (FALLBACK_MESSAGE, Fin 0.0, [])
    else
      top <- py_max (fun x => x) scores ;;
      if is_neg_inf top then Ok (FALLBACK_MESSAGE, Fin 0.0, [])
      else
        best_idx <- argmax scores ;;
        best_score <- get_item scores best_idx ;;
        if score_lt_dec best_score (Fin threshold)
        then Ok (FALLBACK_MESSAGE, best_score, [])
        else
          best <- get_item examples best_idx ;;
          let answer_ := choose_response rnd (responses best) in
          let source := get (source_url best) [] in
          Ok (answer_, best_score, source).

(** The score vector of [get_answer_with_source] after the topic-filter
    loop, for a query that is already normalised. *)
Definition scores_after_filter (normalized : str) (p : index_payload)
  (topic_filter : str) : result (list score) :=
  raw <- compute_scores normalized p ;;
  if negb (str_eqb topic_filter (lit "all"))
  then for_enumerate (mask_step topic_filter) 0 (p_examples p) (map Fin raw)
  else Ok (map Fin raw).

(** The topic key of an example, as the filter loop reads it. *)
Definition example_topic (ex : example) : str :=
  normalized_topic (get (tag ex) (lit "general")).

(** The method-specific scoring structures are present and hold exactly
    one entry per example. *)
Definition payload_aligned (p : index_payload) : bool :=
  let n := length (p_examples p) in
  let method_ := get (p_method p) (lit "tfidf") in
  if mem method_ [lit "tfidf"; lit "bow"] then
    match p_vectorizer p, p_matrix p with
    | Some _, Some matrix => (length matrix =? n)%nat
    | _, _ => false
    end
  else if str_eqb method_ (lit "bm25") then
    match p_bm25_index p with
    | Some ix =>
        (length (doc_term_freqs ix) =? n)%nat
        && (length (doc_lengths ix) =? n)%nat
    | None => false
    end
  else
    match p_doc_tokens p with
    | Some docs => (length docs =? n)%nat
    | None => false
    end.

(** The payload with its ["threshold"] key set. *)
Definition with_threshold (p : index_payload) (t : R) : index_payload :=
  {| p_method := p_method p; p_examples := p_examples p;
     p_threshold := Some t; p_vectorizer := p_vectorizer p;
     p_matrix := p_matrix p; p_bm25_index := p_bm25_index p;
     p_doc_tokens := p_doc_tokens p |}.

(** Every pattern of the intents file, in file order. *)
Definition all_patterns (intents : option (list intent)) : list str :=
  flat_map (fun it => get (intent_patterns it) []) (get intents []).

(** A pattern is kept when its normal form is non-empty. *)
Definition usable (pattern_ : str) : bool :=
  negb (null (normalize_text lower pattern_)).

(** The examples [prepare_corpus] builds from one intent. *)
Definition intent_examples (it : intent) : list example :=
  map (fun pattern_ =>
         {| tag := Some (intent_tag it); pattern := pattern_;
            responses := get (intent_responses it) []; source_url := None |})
      (filter usable (get (intent_patterns it) [])).

(** ** evaluate.py *)

(** The body of the leave-one-out loop. *)
Definition eval_step (payload : index_payload) (threshold : R)
  (query_idx : nat) (ex : example) (st : EvalResult) : result EvalResult :=
  let examples := p_examples payload in
  let normalized := normalize_text lower (pattern ex) in
  if null normalized then Ok st
  else
    raw <- compute_scores normalized payload ;;
    if null raw then Ok st
    else
      let st := {| method := method st; total := S (total st);
                   correct := correct st; fallbacks := fallbacks st |} in
      scores <- set_item (map Fin raw) query_idx NegInf ;;
      best_idx <- argmax scores ;;
      best_score <- get_item scores best_idx ;;
      if score_lt_dec best_score (Fin threshold)
      then Ok {| method := method st; total := total st;
                 correct := correct st; fallbacks := S (fallbacks st) |}
      else
        best <- get_item examples best_idx ;;
        best_tag <- key (tag best) ;;
        own_tag <- key (tag ex) ;;
        if str_eqb best_tag own_tag
        then Ok {| method := method st; total := total st;
                   correct := S (correct st); fallbacks := fallbacks st |}
        else Ok st.

(** [evaluate_method]; [payload] is what [load_index(method)] returned. *)
Definition evaluate_method (method_ : str) (payload : index_payload)
  : result EvalResult :=
  let examples := p_examples payload in
  let threshold := get (p_threshold payload) 0.25 in
  for_enumerate (eval_step payload threshold) 0 examples
    {| method := method_; total := 0; correct := 0; fallbacks := 0 |}.

End Engine.

Arguments p_method {vec} _.
Arguments p_examples {vec} _.
Arguments p_threshold {vec} _.
Arguments p_vectorizer {vec} _.
Arguments p_matrix {vec} _.
Arguments p_bm25_index {vec} _.
Arguments p_doc_tokens {vec} _.
Arguments cosine_similarity {vec} cosine query_vector matrix.
Arguments compute_scores {vec} cosine normalized_query p.
Arguments scores_after_filter lower {vec} cosine normalized p topic_filter.
Arguments payload_aligned {vec} p.
Arguments with_threshold {vec} p t.
Arguments get_answer_with_source lower {vec} cosine rnd user_text p
  topic_filter.
Arguments eval_step lower {vec} cosine payload threshold query_idx ex st.
Arguments evaluate_method lower {vec} cosine method_ payload.

(** ** The BM25 formula as the specification words it

    These definitions follow the specification text, not the code; the
    code is compared with them below. *)

(** Sum of a list of reals. *)
Definition Rsum (l : list R) : R := fold_right Rplus 0 l.

(** df(t): the number of documents containing [t] at least once. *)
Definition spec_df (docs : list (list str)) (t : str) : nat :=
  length (filter (fun d => mem t d) docs).

(** idf(t) = ln(1 + (N - df(t) + 0.5) / (df(t) + 0.5)). *)
Definition spec_idf (docs : list (list str)) (t : str) : R :=
  ln (1 + (INR (length docs) - INR (spec_df docs t) + 0.5)
          / (INR (spec_df docs t) + 0.5)).

(** avgDocLen: the mean token count of the documents. *)
Definition spec_avg_len (docs : list (list str)) : R :=
  INR (list_sum (map (@length str) docs)) / INR (length docs).

(** The contribution of query term [t] to the score of document [d]:
    idf(t) * (tf*(k1+1)) / (tf + k1*(1-b+b*(docLen/avgDocLen)))
    * (count of t in the query), with k1 = 1.5 and b = 0.75. *)
Definition spec_bm25_term (docs : list (list str)) (q d : list str) (t : str)
  : R :=
  let tf := INR (count_occ str_eq_dec d t) in
  spec_idf docs t * (tf * (1.5 + 1))
  / (tf + 1.5 * (1 - 0.75 + 0.75 * (INR (length d) / spec_avg_len docs)))
  * INR (count_occ str_eq_dec q t).

(** ** Leave-one-out evaluation as the specification words it

    These definitions follow the specification text, not the code; the
    evaluator is compared with them below. *)

(** What becomes of one query: not attempted, answered with the
    fallback, won by a row with the query's tag, or won by a row with
    another tag. *)
Inductive outcome :=
| Skipped
| Fallback
| Correct
| Wrong.

Definition outcome_eqb (a c : outcome) : bool :=
  match a, c with
  | Skipped, Skipped | Fallback, Fallback | Correct, Correct | Wrong, Wrong =>
      true
  | _, _ => false
  end.

Definition count_outcome (o : outcome) (l : list outcome) : nat :=
  length (filter (outcome_eqb o) l).

(** [scores] is the score vector [raw] of the whole corpus with position
    [i] forced to [-inf]. *)
Definition spec_masked (raw : list R) (i : nat) (scores : list score) : Prop :=
  length scores = length raw
  /\ nth_error scores i = Some NegInf
  /\ forall j, j <> i -> nth_error scores j = option_map Fin (nth_error raw j).

(** [best] is the first position that holds the largest score, [bs]. *)
Definition spec_first_best (scores : list score) (best : nat) (bs : score)
  : Prop :=
  nth_error scores best = Some bs
  /\ (forall j s, nth_error scores j = Some s -> ~ score_lt bs s)
  /\ (forall j s, (j < best)%nat -> nth_error scores j = Some s ->
                  score_lt s bs).

(** The outcome of the query at position [i]: skipped when its normal
    form is empty; otherwise the whole corpus is scored, position [i] is
    forced to [-inf], and the best remaining score decides: below the
    threshold a fallback, else the tags of the best row and of the query
    are compared. *)
Definition spec_outcome (lower : str -> str) {vec : Type}
  (cosine : vec -> vec -> R) (p : index_payload vec) (th : R) (i : nat)
  (ex : example) (o : outcome) : Prop :=
  (normalize_text lower (pattern ex) = [] /\ o = Skipped)
  \/ (normalize_text lower (pattern ex) <> []
      /\ exists raw scores best bs,
           compute_scores cosine (normalize_text lower (pattern ex)) p = Ok raw
           /\ spec_masked raw i scores
           /\ spec_first_best scores best bs
           /\ ((score_lt bs (Fin th) /\ o = Fallback)
               \/ (~ score_lt bs (Fin th)
                   /\ exists bex,
                        nth_error (p_examples p) best = Some bex
                        /\ ((tag bex = tag ex /\ o = Correct)
                            \/ (tag bex <> tag ex /\ o = Wrong))))).

(** ** Sample data *)

(** The text [the и]: English stopword, space, Russian stopword. *)
Definition mixed_text : str := lit "the " ++ [1080%N].

(** A Boolean-method payload over one stored question, with no
    ["threshold"] key. *)
Definition password_example : example :=
  {| tag := Some (lit "account");
     pattern := lit "reset my password";
     responses := [lit "Go to settings > security > reset."];
     source_url := None |}.

Definition boolean_payload : index_payload unit :=
  {| p_method := Some (lit "boolean");
     p_examples := [password_example];
     p_threshold := None;
     p_vectorizer := None; p_matrix := None; p_bm25_index := None;
     p_doc_tokens := Some [[lit "reset"; lit "my"; lit "password"]] |}.

(** The similarity primitive is not exercised by these payloads. *)
Definition no_cosine (u v : unit) : R := 0.

(** A second stored question, from the FAQ table, under another topic. *)
Definition python_example : example :=
  {| tag := Some (lit "web_Tech Docs");
     pattern := lit "python tutorial";
     responses := [lit "See the official tutorial."];
     source_url := Some (lit "https://docs.python.org") |}.

Definition two_topic_payload : index_payload unit :=
  {| p_method := Some (lit "boolean");
     p_examples := [password_example; python_example];
     p_threshold := Some 0.1;
     p_vectorizer := None; p_matrix := None; p_bm25_index := None;
     p_doc_tokens := Some [[lit "reset"; lit "my"; lit "password"];
                           [lit "python"; lit "tutorial"]] |}.

(** Two stored questions with the same tokens and different answers. *)
Definition first_example : example :=
  {| tag := Some (lit "account"); pattern := lit "reset password";
     responses := [lit "first"]; source_url := None |}.

Definition second_example : example :=
  {| tag := Some (lit "account"); pattern := lit "password reset";
     responses := [lit "second"]; source_url := None |}.

Definition tie_payload : index_payload unit :=
  {| p_method := Some (lit "boolean");
     p_examples := [first_example; second_example];
     p_threshold := None;
     p_vectorizer := None; p_matrix := None; p_bm25_index := None;
     p_doc_tokens := Some [[lit "reset"; lit "password"];
                           [lit "password"; lit "reset"]] |}.

(** Two stored questions under one tag and no ["threshold"] key: the
    first shares one of its two terms with the second, the second one of
    its five terms with the first. *)
Definition short_example : example :=
  {| tag := Some (lit "account"); pattern := lit "reset password";
     responses := [lit "short"]; source_url := None |}.

Definition long_example : example :=
  {| tag := Some (lit "account");
     pattern := lit "reset cat dog bird fish";
     responses := [lit "long"]; source_url := None |}.

Definition near_miss_payload : index_payload unit :=
  {| p_method := Some (lit "boolean");
     p_examples := [short_example; long_example];
     p_threshold := None;
     p_vectorizer := None; p_matrix := None; p_bm25_index := None;
     p_doc_tokens := Some [[lit "reset"; lit "password"];
                           [lit "reset"; lit "cat"; lit "dog"; lit "bird";
                            lit "fish"]] |}.

(** An intents file with one intent; its second pattern is a stopword. *)
Definition account_intents : option (list intent) :=
  Some [ {| intent_tag := lit "account";
            intent_responses := Some [lit "Go to settings > security > reset."];
            intent_patterns := Some [lit "reset my password"; lit "the"] |} ].

(** Two documents that both consist of the one term [python]. *)
Definition common_term_docs : list (list str) :=
  [[lit "python"]; [lit "python"]].

(** * The rest of the retrieval code

    The remaining functions of [src/utils.py], [src/chat.py] and
    [src/evaluate.py], and the payload construction of [src/train.py].
    Reading files, the terminal and the clock stay outside: a function
    that reads a line takes the line, a function that loads a file takes
    its content, and calls that only render text are left out. *)

(** ** utils.py: method names *)

Definition SUPPORTED_METHODS : list str :=
  [lit "tfidf"; lit "bow"; lit "bm25"; lit "boolean"].

(** ** Built-ins on strings *)

(** [a <= b] on strings: lexicographic by code point. *)
Fixpoint str_leb (a c : str) : bool :=
  match a, c with
  | [], _ => true
  | _ :: _, [] => false
  | x :: a', y :: c' => (x <? y)%N || ((x =? y)%N && str_leb a' c')
  end.

Fixpoint insert_sorted (x : str) (l : list str) : list str :=
  match l with
  | [] => [x]
  | y :: l' => if str_leb x y then x :: l else y :: insert_sorted x l'
  end.

(** [sorted(l)] on strings. *)
Definition sorted (l : list str) : list str := fold_right insert_sorted [] l.

Fixpoint take_word (s : str) : str :=
  match s with
  | c :: s' => if is_space c then [] else c :: take_word s'
  | [] => []
  end.

Fixpoint drop_word (s : str) : str :=
  match s with
  | c :: s' => if is_space c then s else drop_word s'
  | [] => []
  end.

(** [s.split(maxsplit=1)] *)
Definition split_once (s : str) : list str :=
  match lstrip s with
  | [] => []
  | c :: s' =>
      let first := take_word (c :: s') in
      match lstrip (drop_word (c :: s')) with
      | [] => [first]
      | d :: rest => [first; d :: rest]
      end
  end.

(** The terms of the query that occur in a document, each once. *)
Definition common_terms (q d : list str) : list str :=
  intersection (set_of q) (set_of d).

(** ** utils.py: rows of the FAQ tables *)

(** What [csv.DictReader] holds for one column of a row: the table has
    no such column, the row ends before the column (the reader fills in
    [None]), or the text of the cell. *)
Inductive cell :=
| NoColumn
| NoValue
| Text (s : str).

(** [str(row.get(key, default))] *)
Definition cell_str (c : cell) (default : str) : str :=
  match c with
  | NoColumn => default
  | NoValue => lit "None"
  | Text s => s
  end.

Record csv_row := {
  c_question : cell;
  c_answer : cell;
  c_topic : cell;
  c_source_url : cell
}.

(** The body of the row loop of [load_csv_qa_rows]. *)
Definition load_row (rows : list qa_row) (row : csv_row) : list qa_row :=
  let question_ := strip (cell_str (c_question row) []) in
  let answer_ := strip (cell_str (c_answer row) []) in
  let topic_ :=
    let stripped := strip (cell_str (c_topic row) (lit "general")) in
    if null stripped then lit "general" else stripped in
  let source_url_ := strip (cell_str (c_source_url row) []) in
  if null question_ || null answer_ then rows
  else rows ++ [ {| question := question_; answer := answer_;
                    topic := topic_; row_source_url := source_url_ |} ].

(** [load_csv_qa_rows] on the tables found at a path, each read as its
    rows: none when the path does not exist, one for a file, the [*.csv]
    files in sorted order for a directory. *)
Definition load_csv_qa_rows (csv_files : list (list csv_row)) : list qa_row :=
  fold_left (fun rows csv_file => fold_left load_row csv_file rows)
            csv_files [].

(** [load_csv_qa_rows_from_sources] *)
Definition load_csv_qa_rows_from_sources
  (sources : list (list (list csv_row))) : list qa_row :=
  fold_left (fun rows source => rows ++ load_csv_qa_rows source) sources [].

(** ** evaluate.py: derived metrics *)

(** [EvalResult.accuracy] *)
Definition accuracy (r : EvalResult) : R :=
  if (total r =? 0)%nat then 0.0 else INR (correct r) / INR (total r).

(** [EvalResult.fallback_rate] *)
Definition fallback_rate (r : EvalResult) : R :=
  if (total r =? 0)%nat then 0.0 else INR (fallbacks r) / INR (total r).

(** What one pass of the chat loop does: leave the loop, go round again
    with a topic filter, or answer under the current filter. *)
Inductive turn :=
| Stop
| Next (active_topic : str)
| Reply (active_topic : str) (reply : str * score * str).

Section Tools.

(** Python's [str.lower]. *)
Variable lower : str -> str.

Variable vec : Type.
Variable cosine : vec -> vec -> R.

(** [TfidfVectorizer(...).fit_transform] and
    [CountVectorizer(...).fit_transform] on a corpus: the fitted
    [transform] and the document matrix, or the exception the call
    raises (scikit-learn raises [ValueError] when no token of the corpus
    enters the vocabulary). *)
Variable fit_tfidf : list str -> result ((str -> vec) * list vec).
Variable fit_bow : list str -> result ((str -> vec) * list vec).

(** The stopword set [normalize_text] selects for a text. *)
Definition stopwords_for (x : str) : list str :=
  if contains_cyrillic lower x then RU_STOPWORDS else EN_STOPWORDS.

(** [validate_method] *)
Definition validate_method (method_ : str) : result str :=
  let method_normalized := strip (lower method_) in
  if negb (mem method_normalized SUPPORTED_METHODS)
  then Raise ValueError
  else Ok method_normalized.

(** ** chat.py: topics and the chat loop *)

(** [get_available_topics] *)
Definition get_available_topics (p : index_payload vec) : list str :=
  let topics :=
    set_of (map (fun ex => normalized_topic lower (get (tag ex) (lit "general")))
                (p_examples p)) in
  sorted (filter (fun topic_ => negb (null topic_)) topics).

(** [choose_initial_topic]; [typed] is the line read from the terminal. *)
Definition choose_initial_topic (typed : str) (p : index_payload vec) : str :=
  let topics := get_available_topics p in
  let selected := lower (strip typed) in
  if null selected || str_eqb selected (lit "all") then lit "all"
  else
    let candidate := normalized_topic lower selected in
    if negb (mem candidate topics) then lit "all" else candidate.

(** The body of the [while True] loop of [run_chat]; [typed] is the line
    read from the terminal. *)
Definition chat_turn (rnd : nat) (p : index_payload vec) (active_topic : str)
  (typed : str) : result turn :=
  let user_text := strip typed in
  let command := lower user_text in
  if mem command [lit "/quit"; lit "quit"; lit "exit"; lit "bye"] then Ok Stop
  else if str_eqb command (lit "/help") then Ok (Next active_topic)
  else if str_eqb command (lit "/topics") then Ok (Next active_topic)
  else if str_eqb command (lit "/list") then Ok (Next active_topic)
  else if startswith command (lit "/topic") then
    let parts := split_once user_text in
    if (length parts =? 1)%nat then Ok (Next active_topic)
    else
      arg <- get_item parts 1 ;;
      let requested := normalized_topic lower arg in
      let available_topics := get_available_topics p in
      if str_eqb requested (lit "all") then Ok (Next (lit "all"))
      else if mem requested available_topics then Ok (Next requested)
      else Ok (Next active_topic)
  else if str_eqb command (lit "/clear") then Ok (Next active_topic)
  else if null user_text then Ok (Next active_topic)
  else
    r <- get_answer_with_source lower cosine rnd user_text p active_topic ;;
    Ok (Reply active_topic r).

(** The loop of [run_chat] over the lines typed, from the topic chosen at
    start; [rnd n] is the generator's draw in pass [n].  The result lists
    every reply with the topic filter it was computed under; when the
    lines run out before a quit command, it is the replies given until
    then. *)
Fixpoint chat_loop (rnd : nat -> nat) (p : index_payload vec)
  (active_topic : str) (n : nat) (typed : list str)
  : result (list (str * (str * score * str))) :=
  match typed with
  | [] => Ok []
  | line :: typed' =>
      t <- chat_turn (rnd n) p active_topic line ;;
      match t with
      | Stop => Ok []
      | Next active_topic' => chat_loop rnd p active_topic' (S n) typed'
      | Reply active_topic' r =>
          rest <- chat_loop rnd p active_topic' (S n) typed' ;;
          Ok ((active_topic', r) :: rest)
      end
  end.

(** [run_chat] once the index is loaded: [first] is the line typed at the
    topic prompt, [typed] the lines typed afterwards. *)
Definition run_chat (rnd : nat -> nat) (p : index_payload vec) (first : str)
  (typed : list str) : result (list (str * (str * score * str))) :=
  chat_loop rnd p (choose_initial_topic first p) 0 typed.

(** The topic filter is ["all"] or one of the payload's topics. *)
Definition topic_ok (p : index_payload vec) (t : str) : Prop :=
  t = lit "all" \/ In t (get_available_topics p).

(** The example [prepare_corpus_from_csv_rows] builds from one row. *)
Definition csv_example (row : qa_row) : example :=
  {| tag := Some (lit "web_" ++ topic row); pattern := question row;
     responses := [answer row]; source_url := Some (row_source_url row) |}.

(** ** train.py *)

(** The examples and the corpus [train_and_save] assembles from the
    two sources. *)
Definition training_examples (intents : option (list intent))
  (rows : list qa_row) : list example :=
  snd (prepare_corpus lower intents)
  ++ snd (prepare_corpus_from_csv_rows lower rows).

Definition training_corpus (intents : option (list intent))
  (rows : list qa_row) : list str :=
  fst (prepare_corpus lower intents)
  ++ fst (prepare_corpus_from_csv_rows lower rows).

(** [train_and_save] up to the point where the payload is written:
    [intents] is the ["intents"] key of the intents file and [csv_rows]
    the rows loaded from the FAQ tables. *)
Definition train_payload (method_ : str) (threshold : R)
  (intents : option (list intent)) (csv_rows : list qa_row)
  : result (index_payload vec) :=
  m <- validate_method method_ ;;
  let ce := prepare_corpus lower intents in
  let csv := prepare_corpus_from_csv_rows lower csv_rows in
  let corpus := fst ce ++ fst csv in
  let examples := snd ce ++ snd csv in
  if null corpus then Raise ValueError
  else if str_eqb m (lit "tfidf") then
    vm <- fit_tfidf corpus ;;
    Ok {| p_method := Some m; p_examples := examples;
          p_threshold := Some threshold;
          p_vectorizer := Some (fst vm); p_matrix := Some (snd vm);
          p_bm25_index := None; p_doc_tokens := None |}
  else if str_eqb m (lit "bow") then
    vm <- fit_bow corpus ;;
    Ok {| p_method := Some m; p_examples := examples;
          p_threshold := Some threshold;
          p_vectorizer := Some (fst vm); p_matrix := Some (snd vm);
          p_bm25_index := None; p_doc_tokens := None |}
  else if str_eqb m (lit "bm25") then
    let doc_tokens := map split corpus in
    Ok {| p_method := Some m; p_examples := examples;
          p_threshold := Some threshold;
          p_vectorizer := None; p_matrix := None;
          p_bm25_index := Some (build_bm25_index doc_tokens);
          p_doc_tokens := Some doc_tokens |}
  else
    let doc_tokens := map split corpus in
    Ok {| p_method := Some m; p_examples := examples;
          p_threshold := Some threshold;
          p_vectorizer := None; p_matrix := None;
          p_bm25_index := None; p_doc_tokens := Some doc_tokens |}.

End Tools.

Arguments get_available_topics lower {vec} p.
Arguments choose_initial_topic lower {vec} typed p.
Arguments chat_turn lower {vec} cosine rnd p active_topic typed.
Arguments chat_loop lower {vec} cosine rnd p active_topic n typed.
Arguments run_chat lower {vec} cosine rnd p first typed.
Arguments topic_ok lower {vec} p t.
Arguments train_payload lower {vec} fit_tfidf fit_bow method_ threshold
  intents csv_rows.

(** ** Sample data for training, loading and the chat loop *)

(** A stand-in for a fitted vectoriser: one matrix row per document. *)
Definition unit_fit (corpus : list str)
  : result ((str -> unit) * list unit) :=
  Ok (fun _ => tt, map (fun _ => tt) corpus).

(** A vectoriser that finds no vocabulary, as scikit-learn does on a
    corpus whose tokens are all one character long. *)
Definition empty_vocabulary_fit (corpus : list str)
  : result ((str -> unit) * list unit) :=
  Raise ValueError.

(** One loaded row of a FAQ table. *)
Definition python_row : qa_row :=
  {| question := lit "python tutorial";
     answer := lit "See the official tutorial.";
     topic := lit "Tech Docs";
     row_source_url := lit "https://docs.python.org" |}.

(** What training for the Boolean method returns on [account_intents]
    and [python_row]; the pattern [the] of the intents file, a stopword,
    leaves no example. *)
Definition trained_payload : index_payload unit :=
  {| p_method := Some (lit "boolean");
     p_examples := [password_example; python_example];
     p_threshold := Some 0.25;
     p_vectorizer := None; p_matrix := None; p_bm25_index := None;
     p_doc_tokens := Some [[lit "reset"; lit "my"; lit "password"];
                           [lit "python"; lit "tutorial"]] |}.

(** A table without a topic column, its cells padded with blanks. *)
Definition padded_table : list csv_row :=
  [ {| c_question := Text (lit "  python tutorial ");
       c_answer := Text (lit "See the official tutorial. ");
       c_topic := NoColumn;
       c_source_url := Text (lit " https://docs.python.org") |} ].

Definition padded_table_row : qa_row :=
  {| question := lit "python tutorial";
     answer := lit "See the official tutorial.";
     topic := lit "general";
     row_source_url := lit "https://docs.python.org" |}.

(** Two documents: [python] occurs in both, [tutorial] in one. *)
Definition rare_term_docs : list (list str) :=
  [[lit "python"; lit "tutorial"]; [lit "python"]].

(** ** Tactics *)

(** Character-class tests as arithmetic on code points. *)
Ltac char_class :=
  unfold is_token_char, is_lower_token_char, is_cyrillic_lower, is_space,
    between, space, char_eqb in *;
  repeat rewrite ?orb_true_iff, ?andb_true_iff, ?orb_false_iff,
    ?andb_false_iff, ?N.leb_le, ?N.leb_gt, ?N.eqb_eq, ?N.eqb_neq in *.

(** Every character of a literal is a lower-case token character. *)
Ltac lower_literal :=
  let c := fresh "c" in
  let Hc := fresh "Hc" in
  intros c Hc; left; simpl in Hc;
  repeat (destruct Hc as [<- | Hc]; [reflexivity|]); destruct Hc.

(** Settle the comparisons of concrete scores in a run. *)
Ltac decide_scores :=
  repeat match goal with
         | |- context [Rlt_dec ?a ?c] =>
             let H := fresh "H" in
             destruct (Rlt_dec a c) as [H | H];
             try (exfalso; simpl in H; lra); clear H;
             cbn -[Rlt_dec INR Rdiv eval_step]
         end.

(** * Properties *)

(** ** Strings and runs *)

Lemma str_eqb_eq (a c : str) : str_eqb a c = true <-> a = c.
Proof.
  revert c; induction a as [|x a IH]; intros [|y c]; simpl;
    try (split; [discriminate | discriminate]); try tauto.
  unfold char_eqb. rewrite andb_true_iff, N.eqb_eq, IH.
  split; [intros [-> ->]; reflexivity | intros H; inversion H; auto].
Qed.

Lemma str_eqb_refl (a : str) : str_eqb a a = true.
Proof. apply str_eqb_eq; reflexivity. Qed.

Lemma str_eqb_neq (a c : str) : str_eqb a c = false <-> a <> c.
Proof.
  rewrite <- str_eqb_eq. destruct (str_eqb a c); split; congruence.
Qed.

Lemma mem_In (x : str) (l : list str) : mem x l = true <-> In x l.
Proof.
  unfold mem. rewrite existsb_exists. split.
  - intros (y & Hy & E). apply str_eqb_eq in E. subst; assumption.
  - intros H. exists x. split; [assumption | apply str_eqb_refl].
Qed.

Lemma push_chars (P : str -> Prop) (cur : str) (rest : list str) :
  (cur <> [] -> P cur) -> Forall P rest -> Forall P (push cur rest).
Proof.
  intros Hc Hr. destruct cur; simpl; [assumption|].
  constructor; [apply Hc; discriminate | assumption].
Qed.

(** Every run is non-empty, made of kept characters taken from the input. *)
Lemma runs_aux_spec (keep : char -> bool) (s : str) :
  let P := fun t : str =>
             t <> [] /\ forall c, In c t -> keep c = true /\ In c s in
  (forall c, In c (fst (runs_aux keep s)) -> keep c = true /\ In c s)
  /\ Forall P (snd (runs_aux keep s)).
Proof.
  induction s as [|c s IH]; simpl.
  - split; [intros ? [] | constructor].
  - destruct (runs_aux keep s) as [cur rest]. simpl in IH.
    destruct IH as [IHc IHr].
    assert (Hr : Forall (fun t : str => t <> [] /\
                   forall d, In d t -> keep d = true /\ In d (c :: s)) rest).
    { eapply Forall_impl; [|exact IHr]. intros t [Hne Ht]. split; [exact Hne|].
      intros d Hd. destruct (Ht d Hd). split; [assumption | right; assumption]. }
    destruct (keep c) eqn:K; simpl.
    + split; [|exact Hr].
      intros d [<- | Hd]; [split; [exact K | left; reflexivity]|].
      destruct (IHc d Hd). split; [assumption | right; assumption].
    + split; [intros ? []|].
      apply push_chars; [|exact Hr].
      intros Hne. split; [exact Hne|].
      intros d Hd. destruct (IHc d Hd). split; [assumption | right; assumption].
Qed.

Lemma runs_spec (keep : char -> bool) (s : str) (t : str) :
  In t (runs keep s) ->
  t <> [] /\ forall c, In c t -> keep c = true /\ In c s.
Proof.
  unfold runs. pose proof (runs_aux_spec keep s) as H. simpl in H.
  destruct (runs_aux keep s) as [cur rest]. simpl in H. destruct H as [Hc Hr].
  intros Hin.
  assert (HF : Forall (fun t : str => t <> [] /\
                 forall c, In c t -> keep c = true /\ In c s) (push cur rest)).
  { apply push_chars; [|exact Hr]. intros Hne; split; [exact Hne | exact Hc]. }
  rewrite Forall_forall in HF. exact (HF t Hin).
Qed.

Lemma runs_aux_app (keep : char -> bool) (t s : str) :
  (forall c, In c t -> keep c = true) ->
  runs_aux keep (t ++ s)
  = (t ++ fst (runs_aux keep s), snd (runs_aux keep s)).
Proof.
  induction t as [|c t IH]; intros Ht; simpl.
  - destruct (runs_aux keep s); reflexivity.
  - rewrite IH by (intros d Hd; apply Ht; right; exact Hd).
    rewrite (Ht c) by (left; reflexivity). reflexivity.
Qed.

(** Splitting a joined list of well-formed tokens gives the tokens back. *)
Lemma runs_join (keep : char -> bool) (sep : char) (ts : list str) :
  keep sep = false ->
  (forall t, In t ts -> t <> [] /\ forall c, In c t -> keep c = true) ->
  runs keep (join [sep] ts) = ts.
Proof.
  intros Hsep. unfold runs. induction ts as [|t ts IH]; intros Hts.
  - reflexivity.
  - destruct (Hts t (or_introl eq_refl)) as [Hne Hk].
    assert (Hts' : forall u, In u ts ->
                     u <> [] /\ forall c, In c u -> keep c = true)
      by (intros u Hu; apply Hts; right; exact Hu).
    specialize (IH Hts').
    destruct ts as [|u ts].
    + simpl. rewrite <- (app_nil_r t) at 1. rewrite runs_aux_app by exact Hk.
      simpl. rewrite app_nil_r. destruct t; [congruence | reflexivity].
    + change (join [sep] (t :: u :: ts))
        with (t ++ sep :: join [sep] (u :: ts)).
      rewrite runs_aux_app by exact Hk.
      cbn [runs_aux].
      destruct (runs_aux keep (join [sep] (u :: ts))) as [cur rest].
      rewrite Hsep. cbn [fst snd]. rewrite app_nil_r. rewrite IH.
      destruct t; [congruence | reflexivity].
Qed.

Lemma join_chars (sep : char) (ts : list str) (c : char) :
  In c (join [sep] ts) -> c = sep \/ exists t, In t ts /\ In c t.
Proof.
  induction ts as [|t ts IH]; [intros []|].
  destruct ts as [|u ts].
  - simpl. intros H. right. exists t. split; [left; reflexivity | exact H].
  - change (join [sep] (t :: u :: ts)) with (t ++ sep :: join [sep] (u :: ts)).
    rewrite in_app_iff. intros [H | [H | H]].
    + right. exists t. split; [left; reflexivity | exact H].
    + left. symmetry; exact H.
    + destruct (IH H) as [E | (v & Hv & Hc)]; [left; exact E|].
      right. exists v. split; [right; exact Hv | exact Hc].
Qed.

Lemma filter_idem {A} (f : A -> bool) (l : list A) :
  filter f (filter f l) = filter f l.
Proof.
  induction l as [|a l IH]; simpl; [reflexivity|].
  destruct (f a) eqn:E; simpl; [rewrite E, IH|]; auto.
Qed.

(** ** Normalisation *)

Section NormalizerFacts.

Variable lower : str -> str.

(** Lower-casing never leaves a capital of the token alphabet behind, and
    it fixes text that is already lower-case tokens and spaces. *)
Hypothesis lower_token_chars : forall x c,
  In c (lower x) -> is_token_char c = true -> is_lower_token_char c = true.
Hypothesis lower_fixes : forall y,
  (forall c, In c y -> is_lower_token_char c = true \/ c = space) ->
  lower y = y.

Lemma tokenize_spec (x t : str) :
  In t (tokenize lower x) ->
  t <> [] /\ forall c, In c t ->
    is_token_char c = true /\ is_lower_token_char c = true /\ In c (lower x).
Proof.
  intros H. apply runs_spec in H. destruct H as [Hne Hc].
  split; [exact Hne|]. intros c Hin. destruct (Hc c Hin) as [K I].
  repeat split; auto. apply (lower_token_chars x); assumption.
Qed.

(** The normal form is cleaned tokens joined by single spaces. *)
Lemma normalize_text_shape (x : str) :
  exists cleaned,
    normalize_text lower x = join [space] cleaned
    /\ (forall t, In t cleaned -> In t (tokenize lower x))
    /\ (tokenize lower x <> [] ->
        cleaned = filter (fun token =>
                    negb (mem token (if contains_cyrillic lower x
                                     then RU_STOPWORDS else EN_STOPWORDS)))
                    (tokenize lower x)).
Proof.
  unfold normalize_text. destruct (tokenize lower x) as [|t ts] eqn:E.
  - exists []. split; [reflexivity|]. split; [intros ? [] | congruence].
  - destruct (contains_cyrillic lower x);
      (eexists; split; [reflexivity|]; split;
       [intros u Hu; apply filter_In in Hu; apply Hu | reflexivity]).
Qed.

Lemma normalize_text_chars (x : str) (c : char) :
  In c (normalize_text lower x) ->
  c = space \/ (is_lower_token_char c = true /\ In c (lower x)).
Proof.
  destruct (normalize_text_shape x) as (cl & -> & Hcl & _).
  intros H. apply join_chars in H. destruct H as [-> | (t & Ht & Hc)].
  - left; reflexivity.
  - right. apply Hcl, tokenize_spec in Ht. destruct Ht as [_ Ht].
    destruct (Ht c Hc) as (_ & L & I). split; assumption.
Qed.

Lemma lower_normalized (x : str) :
  lower (normalize_text lower x) = normalize_text lower x.
Proof.
  apply lower_fixes. intros c Hc.
  destruct (normalize_text_chars x c Hc) as [-> | [L _]]; auto.
Qed.

(** Tokenising a normal form gives back exactly its tokens. *)
Lemma tokenize_normalized (x : str) :
  exists cleaned,
    normalize_text lower x = join [space] cleaned
    /\ tokenize lower (normalize_text lower x) = cleaned
    /\ (cleaned <> [] ->
        cleaned = filter (fun token =>
                    negb (mem token (if contains_cyrillic lower x
                                     then RU_STOPWORDS else EN_STOPWORDS)))
                    (tokenize lower x)).
Proof.
  destruct (normalize_text_shape x) as (cl & E & Hcl & Hf).
  exists cl. split; [exact E|]. split.
  - unfold tokenize. rewrite lower_normalized, E.
    apply runs_join; [reflexivity|].
    intros t Ht. apply Hcl, tokenize_spec in Ht. destruct Ht as [Hne Ht].
    split; [exact Hne|]. intros c Hc. apply (Ht c Hc).
  - intros Hne. apply Hf. intros E0.
    destruct cl as [|t cl]; [congruence|].
    specialize (Hcl t (or_introl eq_refl)). rewrite E0 in Hcl. exact Hcl.
Qed.

(** Text without Cyrillic letters stays without them. *)
Lemma normalize_text_keeps_latin (x : str) :
  contains_cyrillic lower x = false ->
  contains_cyrillic lower (normalize_text lower x) = false.
Proof.
  unfold contains_cyrillic at 1 2. intros H. rewrite lower_normalized.
  destruct (existsb is_cyrillic_lower (normalize_text lower x)) eqn:E;
    [|reflexivity].
  apply existsb_exists in E. destruct E as (c & Hc & Cy).
  destruct (normalize_text_chars x c Hc) as [-> | [_ I]]; [discriminate|].
  rewrite <- H. symmetry. apply existsb_exists. exists c. split; assumption.
Qed.

(** Normalisation is idempotent on a text whose normal form is detected
    as the same language as the text itself. *)
Lemma normalize_text_idempotent_agree (x : str) :
  contains_cyrillic lower (normalize_text lower x) = contains_cyrillic lower x ->
  normalize_text lower (normalize_text lower x) = normalize_text lower x.
Proof.
  intros Hlang.
  destruct (tokenize_normalized x) as (cl & E & Htok & Hf).
  unfold normalize_text at 1. rewrite Htok, Hlang.
  destruct (null cl) eqn:Ecl.
  - destruct cl; [symmetry; exact E | discriminate].
  - assert (Hne : cl <> []) by (intros ->; discriminate).
    specialize (Hf Hne). rewrite E.
    destruct cl as [|t ts]; [discriminate|]. f_equal.
    destruct (contains_cyrillic lower x); rewrite Hf; apply filter_idem.
Qed.

Lemma filter_all {A} (f : A -> bool) (l : list A) :
  filter f l = l <-> forall a, In a l -> f a = true.
Proof.
  split.
  - intros E a Ha. rewrite <- E in Ha. apply filter_In in Ha. apply Ha.
  - induction l as [|a l IH]; intros H; simpl; [reflexivity|].
    rewrite (H a (or_introl eq_refl)). f_equal. apply IH.
    intros c Hc. apply H. right; exact Hc.
Qed.

(** C2 (amended): [normalize_text (normalize_text x) = normalize_text x]
    holds exactly when [x] contains no Cyrillic letter, or its normal
    form still contains one, or no token of its normal form is an
    English stopword. *)
Theorem normalize_text_idempotent_iff (x : str) :
  normalize_text lower (normalize_text lower x) = normalize_text lower x
  <-> (contains_cyrillic lower x = false
       \/ contains_cyrillic lower (normalize_text lower x) = true
       \/ forall t, In t (tokenize lower (normalize_text lower x)) ->
                    mem t EN_STOPWORDS = false).
Proof.
  destruct (tokenize_normalized x) as (cl & E & Htok & _).
  assert (Hwf : forall l, (forall t, In t l -> In t cl) ->
                runs is_token_char (join [space] l) = l).
  { intros l Hl. apply runs_join; [reflexivity|].
    intros t Ht. apply Hl in Ht. rewrite <- Htok in Ht.
    apply tokenize_spec in Ht. destruct Ht as [Hne Ht].
    split; [exact Hne|]. intros c Hc. apply (Ht c Hc). }
  assert (Hsecond : contains_cyrillic lower (normalize_text lower x) = false ->
            normalize_text lower (normalize_text lower x)
            = join [space] (filter (fun token => negb (mem token EN_STOPWORDS)) cl)).
  { intros Hy. unfold normalize_text at 1. rewrite Htok, Hy.
    destruct cl; reflexivity. }
  split.
  - intros Hidem.
    destruct (contains_cyrillic lower x) eqn:Hx; [|left; reflexivity].
    destruct (contains_cyrillic lower (normalize_text lower x)) eqn:Hy;
      [right; left; reflexivity|].
    right; right. rewrite Htok. intros t Ht.
    rewrite (Hsecond eq_refl), E in Hidem.
    apply (f_equal (runs is_token_char)) in Hidem.
    rewrite !Hwf in Hidem;
      [|auto | intros u Hu; apply filter_In in Hu; apply Hu].
    apply negb_true_iff. revert t Ht. apply filter_all. exact Hidem.
  - intros [Hx | [Hy | Htoks]].
    + apply normalize_text_idempotent_agree.
      rewrite Hx. apply normalize_text_keeps_latin. exact Hx.
    + apply normalize_text_idempotent_agree. rewrite Hy.
      destruct (contains_cyrillic lower x) eqn:Hx; [reflexivity|].
      rewrite (normalize_text_keeps_latin x Hx) in Hy. discriminate.
    + destruct (contains_cyrillic lower (normalize_text lower x)) eqn:Hy.
      * apply normalize_text_idempotent_agree. rewrite Hy.
        destruct (contains_cyrillic lower x) eqn:Hx; [reflexivity|].
        rewrite (normalize_text_keeps_latin x Hx) in Hy. discriminate.
      * rewrite (Hsecond eq_refl), E. f_equal. apply filter_all.
        intros t Ht. apply negb_true_iff. apply Htoks. rewrite Htok. exact Ht.
Qed.

End NormalizerFacts.

(** The case mapping [basic_lower] meets the two facts assumed of
    [str.lower]. *)

Lemma lower_cp_token_chars (d c : char) :
  In c (lower_cp d) -> is_token_char c = true -> is_lower_token_char c = true.
Proof.
  unfold lower_cp.
  destruct (between 65 90 d) eqn:B1;
    [|destruct (between 1040 1071 d) eqn:B2;
      [|destruct (between 1024 1039 d) eqn:B3;
        [|destruct (d =? 304)%N eqn:B4;
          [|destruct (d =? 8490)%N eqn:B5]]]];
    simpl; intros Hin Htok; char_class; lia.
Qed.

Lemma basic_lower_token_chars (x : str) (c : char) :
  In c (basic_lower x) -> is_token_char c = true ->
  is_lower_token_char c = true.
Proof.
  unfold basic_lower. rewrite in_flat_map. intros (d & _ & Hd).
  apply (lower_cp_token_chars d c Hd).
Qed.

Lemma lower_cp_fixes (c : char) :
  is_lower_token_char c = true \/ c = space -> lower_cp c = [c].
Proof.
  intros H. unfold lower_cp.
  destruct (between 65 90 c) eqn:B1;
    [|destruct (between 1040 1071 c) eqn:B2;
      [|destruct (between 1024 1039 c) eqn:B3;
        [|destruct (c =? 304)%N eqn:B4;
          [|destruct (c =? 8490)%N eqn:B5; [|reflexivity]]]]];
    exfalso; char_class; lia.
Qed.

Lemma basic_lower_fixes (y : str) :
  (forall c, In c y -> is_lower_token_char c = true \/ c = space) ->
  basic_lower y = y.
Proof.
  unfold basic_lower. induction y as [|c y IH]; intros H; simpl; [reflexivity|].
  rewrite lower_cp_fixes by (apply H; left; reflexivity).
  simpl. f_equal. apply IH. intros d Hd. apply H. right; exact Hd.
Qed.

(** A query in Latin script normalises to a fixed point. *)
Lemma normalize_text_idempotent_iff_witness :
  let q := lit "How do I reset my password?" in
  contains_cyrillic basic_lower q = false
  /\ normalize_text basic_lower (normalize_text basic_lower q)
     = normalize_text basic_lower q.
Proof.
  split; [reflexivity|].
  apply (normalize_text_idempotent_iff basic_lower
           basic_lower_token_chars basic_lower_fixes).
  left. reflexivity.
Defined.

Example normalize_mixed_text :
  normalize_text basic_lower mixed_text = lit "the"
  /\ normalize_text basic_lower (lit "the") = [].
Proof. split; reflexivity. Qed.

(** C2 (as stated) fails: the Cyrillic stopword selects the Russian set,
    so [the] survives the first pass; alone it selects the English set and
    is removed by the second. *)
Lemma normalize_text_not_idempotent :
  normalize_text basic_lower (normalize_text basic_lower mixed_text)
  <> normalize_text basic_lower mixed_text.
Proof. vm_compute. discriminate. Qed.

(** ** The order on scores and Python's [max] *)

Lemma score_lt_irrefl (a : score) : ~ score_lt a a.
Proof. destruct a; simpl; [tauto | lra]. Qed.

Lemma score_lt_trans (a c d : score) :
  score_lt a c -> score_lt c d -> score_lt a d.
Proof. destruct a, c, d; simpl; try tauto; lra. Qed.

Lemma score_lt_le_trans (a c d : score) :
  score_lt a c -> ~ score_lt d c -> score_lt a d.
Proof. destruct a, c, d; simpl; try tauto; lra. Qed.

Lemma score_le_lt_trans (a c d : score) :
  ~ score_lt c a -> score_lt c d -> score_lt a d.
Proof. destruct a, c, d; simpl; try tauto; lra. Qed.

Lemma score_le_antisym (a c : score) :
  ~ score_lt a c -> ~ score_lt c a -> a = c.
Proof.
  destruct a as [|x], c as [|y]; simpl; try tauto.
  intros H1 H2. f_equal. lra.
Qed.

Lemma score_lt_neg_inf (a : score) (x : R) :
  ~ score_lt a (Fin x) -> exists y, a = Fin y.
Proof. destruct a as [|y]; simpl; [tauto | exists y; reflexivity]. Qed.

(** The scan over an increasing index range returns an index of the
    range holding a maximal key, and every earlier index of the range
    holds a strictly smaller key. *)
Lemma max_scan_seq (keyf : nat -> score) (n : nat) :
  forall best start, (best < start)%nat ->
    let r := max_scan keyf best (seq start n) in
    let dom := fun j => j = best \/ (start <= j < start + n)%nat in
    dom r
    /\ (forall j, dom j -> ~ score_lt (keyf r) (keyf j))
    /\ (forall j, dom j -> (j < r)%nat -> score_lt (keyf j) (keyf r)).
Proof.
  induction n as [|n IH]; intros best start Hlt; cbn zeta.
  - simpl. split; [left; reflexivity|]. split.
    + intros j [-> | Hj]; [apply score_lt_irrefl | lia].
    + intros j [-> | Hj]; lia.
  - simpl. destruct (score_lt_dec (keyf best) (keyf start)) as [Hb | Hb].
    + destruct (IH start (S start) (Nat.lt_succ_diag_r start)) as (D & M & F).
      set (r := max_scan keyf start (seq (S start) n)) in *.
      split; [destruct D as [D | D]; right; lia|]. split.
      * intros j [-> | Hj].
        -- intros Hc. apply (M start (or_introl eq_refl)).
           eapply score_lt_trans; eassumption.
        -- apply M. destruct (Nat.eq_dec j start); [left; assumption | right; lia].
      * intros j [-> | Hj] Hjr.
        -- eapply score_lt_le_trans; [exact Hb|].
           apply M. left; reflexivity.
        -- apply F; [|exact Hjr].
           destruct (Nat.eq_dec j start); [left; assumption | right; lia].
    + assert (Hlt' : (best < S start)%nat) by lia.
      destruct (IH best (S start) Hlt') as (D & M & F).
      set (r := max_scan keyf best (seq (S start) n)) in *.
      split; [destruct D as [D | D]; [left; exact D | right; lia]|]. split.
      * intros j [-> | Hj]; [apply M; left; reflexivity|].
        destruct (Nat.eq_dec j start) as [-> | Hne]; [|apply M; right; lia].
        intros Hc. apply Hb.
        eapply score_le_lt_trans; [|exact Hc]. apply M. left; reflexivity.
      * intros j [-> | Hj] Hjr; [apply F; [left; reflexivity | exact Hjr]|].
        destruct (Nat.eq_dec j start) as [-> | Hne];
          [|apply F; [right; lia | exact Hjr]].
        eapply score_le_lt_trans; [exact Hb|].
        apply F; [left; reflexivity | lia].
Qed.

(** What [argmax] returns on a non-empty list. *)
Lemma argmax_spec (scores : list score) :
  scores <> [] ->
  exists r, argmax scores = Ok r
    /\ (r < length scores)%nat
    /\ (forall j, (j < length scores)%nat ->
          ~ score_lt (nth r scores NegInf) (nth j scores NegInf))
    /\ (forall j, (j < r)%nat ->
          score_lt (nth j scores NegInf) (nth r scores NegInf)).
Proof.
  intros Hne. destruct scores as [|s scores]; [congruence|].
  unfold argmax. cbn [length seq py_max].
  set (keyf := fun idx => nth idx (s :: scores) NegInf).
  destruct (max_scan_seq keyf (length scores) 0 1 Nat.lt_0_1) as (D & M & F).
  set (r := max_scan keyf 0%nat (seq 1 (length scores))) in *.
  exists r. split; [reflexivity|]. split; [destruct D; lia|]. split.
  - intros j Hj. apply (M j).
    destruct j; [left; reflexivity | right; lia].
  - intros j Hj. apply (F j); [|exact Hj].
    destruct j; [left; reflexivity | right; destruct D; lia].
Qed.

(** The first position that holds the maximum is the one selected: if
    position [i] holds a maximal score and no earlier position holds the
    same score, [argmax] returns [i]. *)
Lemma argmax_first_maximum (scores : list score) (i : nat) :
  (i < length scores)%nat ->
  (forall j, (j < length scores)%nat ->
     ~ score_lt (nth i scores NegInf) (nth j scores NegInf)) ->
  (forall j, (j < i)%nat -> nth j scores NegInf <> nth i scores NegInf) ->
  argmax scores = Ok i.
Proof.
  intros Hi Hmax Hfirst.
  assert (Hne : scores <> []) by (destruct scores; simpl in Hi; [lia | discriminate]).
  destruct (argmax_spec scores Hne) as (r & E & Hr & M & F).
  rewrite E. f_equal.
  destruct (Nat.lt_trichotomy r i) as [H | [H | H]]; [|exact H|].
  - exfalso. apply (Hfirst r H).
    apply score_le_antisym; [apply M; exact Hi | apply Hmax; exact Hr].
  - exfalso. apply (Hmax r Hr). apply F. exact H.
Qed.

(** ** Boolean overlap *)

Lemma NoDup_same_length {A} (l1 l2 : list A) :
  NoDup l1 -> NoDup l2 -> (forall t, In t l1 <-> In t l2) ->
  length l1 = length l2.
Proof.
  intros H1 H2 H. apply Permutation_length, NoDup_Permutation; assumption.
Qed.

Lemma set_of_NoDup (l : list str) : NoDup (set_of l).
Proof. apply NoDup_nodup. Qed.

Lemma set_of_In (l : list str) (t : str) : In t (set_of l) <-> In t l.
Proof. apply nodup_In. Qed.

Lemma intersection_NoDup (a c : list str) : NoDup a -> NoDup (intersection a c).
Proof. apply NoDup_filter. Qed.

Lemma intersection_In (a c : list str) (t : str) :
  In t (intersection a c) <-> In t a /\ In t c.
Proof. unfold intersection. rewrite filter_In, mem_In. tauto. Qed.

Lemma intersection_length (a c : list str) :
  (length (intersection a c) <= length a)%nat.
Proof. apply filter_length_le. Qed.

Lemma set_of_nonempty (l : list str) : l <> [] -> (0 < length (set_of l))%nat.
Proof.
  destruct l as [|t l]; [congruence|]. intros _.
  destruct (set_of (t :: l)) as [|u s] eqn:E; [|simpl; lia].
  exfalso. assert (H : In t (set_of (t :: l))) by (apply set_of_In; left; reflexivity).
  rewrite E in H. exact H.
Qed.

Lemma ratio_bounds (m n : nat) :
  (m <= n)%nat -> (0 < n)%nat -> 0 <= INR m / INR n <= 1.
Proof.
  intros Hmn Hn.
  assert (Hn' : 0 < INR n) by (apply lt_0_INR; exact Hn).
  assert (Hm : 0 <= INR m) by apply pos_INR.
  assert (Hle : INR m <= INR n) by (apply le_INR; exact Hmn).
  split.
  - apply Rmult_le_pos; [exact Hm | left; apply Rinv_0_lt_compat; exact Hn'].
  - apply Rmult_le_reg_r with (INR n); [exact Hn'|].
    unfold Rdiv. rewrite Rmult_assoc, Rinv_l by lra. lra.
Qed.

(** C7: [score_boolean] returns one score per document.  For a non-empty
    query each score is the number of distinct terms common to query and
    document divided by the number of distinct query terms, whichever
    duplicate-free enumerations [common] and [qs] of those two sets are
    counted, and it lies in [0, 1]; for the empty query every score is
    zero. *)
Theorem score_boolean_overlap (q : list str) (docs : list (list str)) :
  length (score_boolean q docs) = length docs
  /\ (q = [] ->
      forall i, (i < length docs)%nat ->
        nth_error (score_boolean q docs) i = Some 0)
  /\ (q <> [] ->
      forall i doc, nth_error docs i = Some doc ->
        exists s,
          nth_error (score_boolean q docs) i = Some s
          /\ 0 <= s <= 1
          /\ forall qs common,
               NoDup qs -> (forall t, In t qs <-> In t q) ->
               NoDup common -> (forall t, In t common <-> In t q /\ In t doc) ->
               s = INR (length common) / INR (length qs)).
Proof.
  split; [destruct q; simpl; apply length_map|]. split.
  - intros -> i Hi. simpl. rewrite nth_error_map.
    destruct (nth_error docs i) eqn:E; [reflexivity|].
    apply nth_error_None in E. lia.
  - intros Hne i doc Hdoc. destruct q as [|t0 q0] eqn:Eq; [congruence|].
    rewrite <- Eq in *. clear Hne.
    assert (Hq : q <> []) by (rewrite Eq; discriminate).
    exists (INR (length (intersection (set_of q) (set_of doc)))
            / INR (length (set_of q))).
    split; [|split].
    + replace (score_boolean q docs)
        with (map (fun d => INR (length (intersection (set_of q) (set_of d)))
                            / INR (length (set_of q))) docs)
        by (rewrite Eq; reflexivity).
      rewrite nth_error_map, Hdoc. reflexivity.
    + apply ratio_bounds; [apply intersection_length | apply set_of_nonempty, Hq].
    + intros qs common Nq Hqs Nc Hc. f_equal; f_equal.
      * apply NoDup_same_length;
          [apply intersection_NoDup, set_of_NoDup | exact Nc|].
        intros t. rewrite intersection_In, !set_of_In, Hc. tauto.
      * apply NoDup_same_length; [apply set_of_NoDup | exact Nq|].
        intros t. rewrite set_of_In, Hqs. tauto.
Qed.

(** ** Counters *)

Lemma counter_get_incr (t u : str) (c : Counter) :
  counter_get (counter_incr t c) u
  = if str_eqb t u then S (counter_get c u) else counter_get c u.
Proof.
  induction c as [|[k n] c IH]; simpl.
  - destruct (str_eqb t u); reflexivity.
  - destruct (str_eqb k t) eqn:Ekt; simpl.
    + apply str_eqb_eq in Ekt. subst k.
      destruct (str_eqb t u); reflexivity.
    + destruct (str_eqb k u) eqn:Eku; [|exact IH].
      apply str_eqb_eq in Eku. subst k.
      destruct (str_eqb t u) eqn:Etu; [|reflexivity].
      apply str_eqb_eq in Etu. subst u. rewrite str_eqb_refl in Ekt. discriminate.
Qed.

Lemma keys_incr (t u : str) (c : Counter) :
  In u (keys (counter_incr t c)) <-> u = t \/ In u (keys c).
Proof.
  unfold keys. induction c as [|[k n] c IH]; simpl.
  - intuition congruence.
  - destruct (str_eqb k t) eqn:E; simpl.
    + apply str_eqb_eq in E. subst k. intuition congruence.
    + rewrite IH. tauto.
Qed.

Lemma keys_incr_NoDup (t : str) (c : Counter) :
  NoDup (keys c) -> NoDup (keys (counter_incr t c)).
Proof.
  unfold keys. induction c as [|[k n] c IH]; simpl; intros H.
  - constructor; [intros [] | constructor].
  - inversion H as [|? ? Hk Hc]; subst.
    destruct (str_eqb k t) eqn:E; simpl.
    + constructor; assumption.
    + constructor; [|apply IH; exact Hc].
      intros Hin. apply (keys_incr t k c) in Hin.
      destruct Hin as [-> | Hin]; [|exact (Hk Hin)].
      rewrite str_eqb_refl in E. discriminate.
Qed.

Lemma counter_get_update (c : Counter) (items : list str) (u : str) :
  counter_get (counter_update c items) u
  = (counter_get c u + count_occ str_eq_dec items u)%nat.
Proof.
  unfold counter_update. revert c.
  induction items as [|t items IH]; intros c; simpl; [lia|].
  rewrite IH, counter_get_incr.
  destruct (str_eq_dec t u) as [-> | Hne].
  - rewrite str_eqb_refl. lia.
  - apply str_eqb_neq in Hne. rewrite Hne. reflexivity.
Qed.

Lemma keys_update (c : Counter) (items : list str) (u : str) :
  In u (keys (counter_update c items)) <-> In u (keys c) \/ In u items.
Proof.
  unfold counter_update. revert c.
  induction items as [|t items IH]; intros c; simpl; [tauto|].
  rewrite IH, keys_incr. intuition congruence.
Qed.

Lemma keys_update_NoDup (c : Counter) (items : list str) :
  NoDup (keys c) -> NoDup (keys (counter_update c items)).
Proof.
  unfold counter_update. revert c.
  induction items as [|t items IH]; intros c H; simpl; [exact H|].
  apply IH, keys_incr_NoDup, H.
Qed.

Lemma counter_mem_keys (t : str) (c : Counter) :
  counter_mem t c = true <-> In t (keys c).
Proof.
  unfold counter_mem, keys. rewrite existsb_exists, in_map_iff. split.
  - intros (kv & Hin & E). apply str_eqb_eq in E. exists kv. auto.
  - intros (kv & E & Hin). exists kv. split; [exact Hin|].
    apply str_eqb_eq. exact E.
Qed.

Lemma counter_of_get (tokens : list str) (t : str) :
  counter_get (counter_of tokens) t = count_occ str_eq_dec tokens t.
Proof. unfold counter_of. rewrite counter_get_update. reflexivity. Qed.

Lemma counter_of_keys (tokens : list str) (t : str) :
  In t (keys (counter_of tokens)) <-> In t tokens.
Proof. unfold counter_of. rewrite keys_update. simpl. tauto. Qed.

Lemma counter_of_NoDup (tokens : list str) : NoDup (keys (counter_of tokens)).
Proof. apply keys_update_NoDup. constructor. Qed.

Lemma counter_of_mem (tokens : list str) (t : str) :
  counter_mem t (counter_of tokens) = mem t tokens.
Proof.
  apply eq_true_iff_eq. rewrite counter_mem_keys, counter_of_keys, mem_In.
  tauto.
Qed.

(** Each entry of a counter with distinct keys is what a lookup returns. *)
Lemma counter_entry_get (c : Counter) (t : str) (n : nat) :
  NoDup (keys c) -> In (t, n) c -> counter_get c t = n.
Proof.
  unfold keys. induction c as [|[k m] c IH]; simpl; intros H Hin; [tauto|].
  inversion H as [|? ? Hk Hc]; subst.
  destruct Hin as [E | Hin].
  - injection E as -> ->. rewrite str_eqb_refl. reflexivity.
  - destruct (str_eqb k t) eqn:E; [|apply IH; assumption].
    apply str_eqb_eq in E. subst k. exfalso. apply Hk.
    apply in_map_iff. exists (t, n). auto.
Qed.

Lemma counter_map_keys {B} (g : str * nat -> B) (c : Counter) :
  NoDup (keys c) ->
  map g c = map (fun t => g (t, counter_get c t)) (keys c).
Proof.
  intros H. unfold keys. rewrite map_map. apply map_ext_in.
  intros [k n] Hin. simpl. rewrite (counter_entry_get c k n H Hin). reflexivity.
Qed.

Lemma count_occ_NoDup (l : list str) (t : str) :
  NoDup l -> count_occ str_eq_dec l t = if mem t l then 1%nat else 0%nat.
Proof.
  intros H. destruct (mem t l) eqn:E.
  - apply mem_In in E. apply (count_occ_In str_eq_dec) in E.
    pose proof (proj1 (NoDup_count_occ str_eq_dec l) H t). lia.
  - apply count_occ_not_In. intros Hin. apply mem_In in Hin. congruence.
Qed.

(** ** The index builder *)

Lemma build_loop (docs : list (list str)) (st : build_state) :
  let st' := fold_left build_step docs st in
  st_doc_term_freqs st' = st_doc_term_freqs st ++ map counter_of docs
  /\ st_doc_lengths st' = st_doc_lengths st ++ map (@length str) docs
  /\ st_doc_freq st' = doc_freq_of docs (st_doc_freq st).
Proof.
  revert st. induction docs as [|d docs IH]; intros st; simpl.
  - rewrite !app_nil_r. auto.
  - destruct (IH (build_step st d)) as (H1 & H2 & H3).
    rewrite H1, H2, H3. simpl. rewrite <- !app_assoc. auto.
Qed.

Lemma doc_freq_get (docs : list (list str)) (df0 : Counter) (t : str) :
  counter_get (doc_freq_of docs df0) t = (counter_get df0 t + spec_df docs t)%nat.
Proof.
  unfold doc_freq_of, spec_df. revert df0.
  induction docs as [|d docs IH]; intros df0; simpl; [lia|].
  rewrite IH, counter_get_update.
  rewrite (count_occ_NoDup _ t (counter_of_NoDup d)).
  replace (mem t (keys (counter_of d))) with (mem t d).
  - destruct (mem t d); simpl; lia.
  - apply eq_true_iff_eq. rewrite !mem_In, counter_of_keys. tauto.
Qed.

Lemma doc_freq_keys (docs : list (list str)) (df0 : Counter) (t : str) :
  In t (keys (doc_freq_of docs df0))
  <-> In t (keys df0) \/ exists d, In d docs /\ In t d.
Proof.
  unfold doc_freq_of. revert df0.
  induction docs as [|d docs IH]; intros df0; simpl.
  - split; [auto | intros [H | (d & [] & _)]; exact H].
  - rewrite IH, keys_update, counter_of_keys. split.
    + intros [[H | H] | (e & He & Ht)]; [left; exact H | |].
      * right. exists d. auto.
      * right. exists e. auto.
    + intros [H | (e & [<- | He] & Ht)]; [left; left; exact H | |].
      * left. right. exact Ht.
      * right. exists e. auto.
Qed.

Lemma doc_freq_NoDup (docs : list (list str)) (df0 : Counter) :
  NoDup (keys df0) -> NoDup (keys (doc_freq_of docs df0)).
Proof.
  unfold doc_freq_of. revert df0.
  induction docs as [|d docs IH]; intros df0 H; simpl; [exact H|].
  apply IH, keys_update_NoDup, H.
Qed.

Lemma spec_df_le (docs : list (list str)) (t : str) :
  (spec_df docs t <= length docs)%nat.
Proof. apply filter_length_le. Qed.

(** The fields of a built index. *)
Lemma build_bm25_index_fields (docs : list (list str)) :
  docs <> [] ->
  let ix := build_bm25_index docs in
  doc_term_freqs ix = map counter_of docs
  /\ doc_lengths ix = map (@length str) docs
  /\ avg_doc_length ix = spec_avg_len docs
  /\ k1 ix = 1.5 /\ b ix = 0.75
  /\ idf ix = map (fun tf => (fst tf, idf_value (length docs) (snd tf)))
                  (doc_freq_of docs []).
Proof.
  intros Hne. unfold build_bm25_index.
  destruct (length docs =? 0)%nat eqn:E.
  - apply Nat.eqb_eq in E. destruct docs; [congruence | discriminate].
  - destruct (build_loop docs {| st_doc_freq := []; st_doc_term_freqs := [];
                                 st_doc_lengths := [] |}) as (H1 & H2 & H3).
    simpl in H1, H2, H3. cbn [doc_term_freqs doc_lengths avg_doc_length k1 b idf].
    rewrite H1, H2, H3. unfold spec_avg_len. repeat split; reflexivity.
Qed.

Lemma idf_value_spec (docs : list (list str)) (t : str) :
  idf_value (length docs) (spec_df docs t) = spec_idf docs t.
Proof.
  unfold idf_value, spec_idf.
  rewrite minus_IZR, <- !INR_IZR_INZ. reflexivity.
Qed.

Lemma idf_value_pos (n freq : nat) : (freq <= n)%nat -> 0 < idf_value n freq.
Proof.
  intros Hle. unfold idf_value. rewrite minus_IZR, <- !INR_IZR_INZ.
  assert (Hf : 0 <= INR freq) by apply pos_INR.
  assert (Hn : INR freq <= INR n) by (apply le_INR; exact Hle).
  rewrite <- ln_1. apply ln_increasing; [lra|].
  assert (0 < (INR n - INR freq + 0.5) / (INR freq + 0.5)); [|lra].
  apply Rdiv_lt_0_compat; lra.
Qed.

Lemma dict_get_map (f : nat -> R) (c : Counter) (t : str) (default : R) :
  dict_get (map (fun tf => (fst tf, f (snd tf))) c) t default
  = if counter_mem t c then f (counter_get c t) else default.
Proof.
  unfold counter_mem. induction c as [|[k n] c IH]; simpl; [reflexivity|].
  destruct (str_eqb k t); simpl; [reflexivity | exact IH].
Qed.

(** ** BM25 scoring *)

Lemma Rsum_perm (l1 l2 : list R) : Permutation l1 l2 -> Rsum l1 = Rsum l2.
Proof. induction 1; simpl; lra. Qed.

Lemma Rsum_filter {A} (p : A -> bool) (f : A -> R) (l : list A) :
  Rsum (map (fun t => if p t then f t else 0) l) = Rsum (map f (filter p l)).
Proof.
  induction l as [|a l IH]; simpl; [reflexivity|].
  destruct (p a); simpl; rewrite IH; lra.
Qed.

Lemma bm25_fold (ix : bm25_index) (tfs : Counter) (len : nat)
  (items : list (str * nat)) (acc : R) :
  fold_left (bm25_accumulate ix tfs len) items acc
  = acc + Rsum (map (fun tq => if counter_mem (fst tq) tfs
                               then bm25_contribution ix tfs len (fst tq) (snd tq)
                               else 0) items).
Proof.
  revert acc. induction items as [|[t qf] items IH]; intros acc; simpl; [lra|].
  rewrite IH. unfold bm25_contribution.
  destruct (counter_mem t tfs); simpl; lra.
Qed.

(** The inner loop sums the contributions of the distinct query terms
    present in the document. *)
Lemma bm25_doc_score (ix : bm25_index) (d q terms : list str) :
  NoDup terms -> (forall t, In t terms <-> In t q /\ In t d) ->
  fold_left (bm25_accumulate ix (counter_of d) (length d)) (counter_of q) 0.0
  = Rsum (map (fun t => bm25_contribution ix (counter_of d) (length d) t
                          (count_occ str_eq_dec q t)) terms).
Proof.
  intros Nd Hterms. rewrite bm25_fold.
  match goal with |- ?a + ?x = _ => replace (a + x) with x by lra end.
  rewrite (counter_map_keys _ (counter_of q) (counter_of_NoDup q)).
  cbn [fst snd].
  rewrite (Rsum_filter (fun t => counter_mem t (counter_of d))
             (fun t => bm25_contribution ix (counter_of d) (length d) t
                         (counter_get (counter_of q) t))).
  transitivity (Rsum (map (fun t => bm25_contribution ix (counter_of d)
                                      (length d) t (count_occ str_eq_dec q t))
                          (filter (fun t => counter_mem t (counter_of d))
                                  (keys (counter_of q))))).
  - f_equal. apply map_ext. intros t. rewrite counter_of_get. reflexivity.
  - apply Rsum_perm, Permutation_map, NoDup_Permutation;
      [apply NoDup_filter, counter_of_NoDup | exact Nd|].
    intros t. rewrite filter_In, counter_of_keys, counter_of_mem, mem_In, Hterms.
    tauto.
Qed.

Lemma list_sum_zero (l : list nat) (n : nat) :
  list_sum l = 0%nat -> In n l -> n = 0%nat.
Proof.
  induction l as [|m l IH]; simpl; [tauto|].
  intros H [-> | Hin]; [lia | apply IH; [lia | exact Hin]].
Qed.

(** A zero mean length means every document is empty. *)
Lemma spec_avg_len_zero (docs : list (list str)) (d : list str) :
  docs <> [] -> spec_avg_len docs = 0 -> In d docs -> d = [].
Proof.
  intros Hne H Hin. unfold spec_avg_len in H.
  assert (Hn : 0 < INR (length docs))
    by (apply lt_0_INR; destruct docs; [congruence | simpl; lia]).
  assert (Hs : INR (list_sum (map (@length str) docs)) = 0).
  { apply Rmult_eq_reg_r with (/ INR (length docs));
      [|apply Rinv_neq_0_compat; lra].
    unfold Rdiv in H. rewrite H. lra. }
  apply (INR_eq _ 0%nat) in Hs.
  apply length_zero_iff_nil. apply (list_sum_zero _ _ Hs).
  apply in_map. exact Hin.
Qed.

(** On a built index the contribution of a term of the document is the
    term of the specified formula. *)
Lemma bm25_contribution_spec (docs : list (list str)) (q d : list str) (t : str) :
  docs <> [] -> In d docs -> In t d ->
  bm25_contribution (build_bm25_index docs) (counter_of d) (length d) t
    (count_occ str_eq_dec q t)
  = spec_bm25_term docs q d t.
Proof.
  intros Hne Hd Ht.
  destruct (build_bm25_index_fields docs Hne) as (_ & _ & Havg & Hk & Hb & Hidf).
  unfold bm25_contribution, spec_bm25_term.
  rewrite Havg, Hk, Hb, Hidf, counter_of_get.
  rewrite (dict_get_map (idf_value (length docs))).
  assert (Hmem : counter_mem t (doc_freq_of docs []) = true).
  { apply counter_mem_keys, doc_freq_keys. right. exists d. auto. }
  rewrite Hmem, doc_freq_get. simpl counter_get. rewrite Nat.add_0_l.
  rewrite idf_value_spec. unfold Rdiv. ring.
Qed.

(** C1: on an index built from a non-empty list of documents and a
    non-empty query, [score_bm25] returns one score per document, and the
    score of document [d] is the sum, over any duplicate-free enumeration
    [terms] of the query terms occurring in [d], of
    idf(t) * (tf*(k1+1)) / (tf + k1*(1-b+b*(docLen/avgDocLen))) * (count
    of t in the query); terms absent from [d] are not in the sum. *)
Theorem score_bm25_formula (docs : list (list str)) (q : list str) :
  docs <> [] -> q <> [] ->
  length (score_bm25 q (build_bm25_index docs)) = length docs
  /\ forall i d terms,
       nth_error docs i = Some d ->
       NoDup terms -> (forall t, In t terms <-> In t q /\ In t d) ->
       nth_error (score_bm25 q (build_bm25_index docs)) i
       = Some (Rsum (map (spec_bm25_term docs q d) terms)).
Proof.
  intros Hne Hq.
  destruct (build_bm25_index_fields docs Hne) as (Htf & Hlen & Havg & _).
  set (ix := build_bm25_index docs) in *.
  unfold score_bm25. destruct q as [|t0 q0] eqn:Eq; [congruence|].
  rewrite <- Eq in *. clear Hq.
  rewrite Htf, Hlen, Havg.
  destruct (Req_dec_T (spec_avg_len docs) 0) as [Hz | Hnz].
  - split; [rewrite !length_map; reflexivity|].
    intros i d terms Hd Nd Hterms.
    rewrite !nth_error_map, Hd. simpl. f_equal.
    assert (Hdnil : d = [])
      by (apply (spec_avg_len_zero docs d Hne Hz), (nth_error_In _ _ Hd)).
    destruct terms as [|t terms]; [simpl; lra|].
    exfalso. destruct (proj1 (Hterms t) (or_introl eq_refl)) as [_ Hin].
    rewrite Hdnil in Hin. exact Hin.
  - replace (combine (map counter_of docs) (map (@length str) docs))
      with (map (fun d => (counter_of d, length d)) docs)
      by (clear; induction docs; simpl; congruence).
    split; [rewrite !length_map; reflexivity|].
    intros i d terms Hd Nd Hterms.
    rewrite !nth_error_map, Hd. cbn [option_map fst snd]. f_equal.
    rewrite (bm25_doc_score ix d q terms Nd Hterms).
    f_equal. apply map_ext_in. intros t Ht.
    apply bm25_contribution_spec;
      [exact Hne | apply (nth_error_In _ _ Hd) | apply Hterms, Ht].
Qed.

(** ** Sign of the inverse document frequency *)

Lemma idf_entry_positive (docs : list (list str)) (t : str) (v : R) :
  In (t, v) (idf (build_bm25_index docs)) -> 0 < v.
Proof.
  destruct docs as [|d0 docs0] eqn:E; [intros []|].
  rewrite <- E. assert (Hne : docs <> []) by (rewrite E; discriminate).
  destruct (build_bm25_index_fields docs Hne) as (_ & _ & _ & _ & _ & Hidf).
  rewrite Hidf, in_map_iff. intros ([k n] & Ekv & Hin).
  injection Ekv as <- <-. apply idf_value_pos. cbn [snd].
  rewrite <- (counter_entry_get _ k n (doc_freq_NoDup docs [] (NoDup_nil _)) Hin).
  rewrite doc_freq_get. simpl. apply spec_df_le.
Qed.

(** C3 (amended): every term occurring in some document gets the idf
    ln(1 + (N - df + 0.5)/(df + 0.5)), and that value is strictly
    positive: df never exceeds N, so the argument of the logarithm
    exceeds 1.  No term is assigned a negative idf. *)
Theorem build_bm25_index_idf_positive (docs : list (list str))
  (d : list str) (t : str) :
  In d docs -> In t d ->
  dict_get (idf (build_bm25_index docs)) t 0.0 = spec_idf docs t
  /\ 0 < spec_idf docs t.
Proof.
  intros Hd Ht.
  assert (Hne : docs <> []) by (intros ->; exact Hd).
  destruct (build_bm25_index_fields docs Hne) as (_ & _ & _ & _ & _ & Hidf).
  split.
  - rewrite Hidf, (dict_get_map (idf_value (length docs))).
    assert (Hmem : counter_mem t (doc_freq_of docs []) = true).
    { apply counter_mem_keys, doc_freq_keys. right. exists d. auto. }
    rewrite Hmem, doc_freq_get. simpl counter_get. rewrite Nat.add_0_l.
    apply idf_value_spec.
  - rewrite <- idf_value_spec. apply idf_value_pos, spec_df_le.
Qed.

(** A term present in every document of a two-document corpus. *)
Lemma build_bm25_index_idf_positive_witness :
  dict_get (idf (build_bm25_index common_term_docs)) (lit "python") 0.0
  = spec_idf common_term_docs (lit "python")
  /\ 0 < spec_idf common_term_docs (lit "python").
Proof.
  apply (build_bm25_index_idf_positive common_term_docs [lit "python"]).
  - left; reflexivity.
  - left; reflexivity.
Defined.

(** C3 (as stated) fails: no list of documents gives any term a negative
    idf. *)
Lemma no_negative_idf :
  ~ exists (docs : list (list str)) (t : str) (v : R),
      In (t, v) (idf (build_bm25_index docs)) /\ v < 0.
Proof.
  intros (docs & t & v & Hin & Hneg).
  pose proof (idf_entry_positive docs t v Hin). lra.
Qed.

(** ** Alignment of scores and examples *)

Lemma score_bm25_length (q : list str) (ix : bm25_index) (n : nat) :
  length (doc_term_freqs ix) = n -> length (doc_lengths ix) = n ->
  length (score_bm25 q ix) = n.
Proof.
  intros H1 H2. unfold score_bm25. destruct q; [rewrite length_map; exact H1|].
  destruct (Req_dec_T (avg_doc_length ix) 0); rewrite length_map; [exact H1|].
  rewrite length_combine, H1, H2. apply Nat.min_id.
Qed.

Lemma score_boolean_length (q : list str) (docs : list (list str)) :
  length (score_boolean q docs) = length docs.
Proof. destruct q; simpl; apply length_map. Qed.

Lemma filter_flat_map {A B} (p : B -> bool) (f : A -> list B) (l : list A) :
  filter p (flat_map f l) = flat_map (fun a => filter p (f a)) l.
Proof.
  induction l as [|a l IH]; simpl; [reflexivity|].
  rewrite filter_app, IH. reflexivity.
Qed.

Lemma map_flat_map {A B C} (g : B -> C) (f : A -> list B) (l : list A) :
  map g (flat_map f l) = flat_map (fun a => map g (f a)) l.
Proof.
  induction l as [|a l IH]; simpl; [reflexivity|].
  rewrite map_app, IH. reflexivity.
Qed.

Section EngineFacts.

Variable lower : str -> str.
Variable vec : Type.
Variable cosine : vec -> vec -> R.

Lemma compute_scores_length (q : str) (p : index_payload vec) :
  payload_aligned p = true ->
  exists raw, compute_scores cosine q p = Ok raw
              /\ length raw = length (p_examples p).
Proof.
  unfold payload_aligned, compute_scores.
  destruct (mem (get (p_method p) (lit "tfidf")) [lit "tfidf"; lit "bow"]).
  - destruct (p_vectorizer p) as [v|]; [|discriminate].
    destruct (p_matrix p) as [M|]; [|discriminate].
    intros H. apply Nat.eqb_eq in H. simpl.
    eexists. split; [reflexivity|].
    unfold cosine_similarity. rewrite length_map. exact H.
  - destruct (str_eqb (get (p_method p) (lit "tfidf")) (lit "bm25")).
    + destruct (p_bm25_index p) as [ix|]; [|discriminate].
      intros H. apply andb_true_iff in H. destruct H as [H1 H2].
      apply Nat.eqb_eq in H1, H2. simpl.
      eexists. split; [reflexivity|]. apply score_bm25_length; assumption.
    + destruct (p_doc_tokens p) as [docs|]; [|discriminate].
      intros H. apply Nat.eqb_eq in H. simpl.
      eexists. split; [reflexivity|]. rewrite score_boolean_length. exact H.
Qed.

Lemma corpus_add_fold (tag_ : str) (responses_ : list str) (url : option str)
  (patterns : list str) (acc : list str * list example) :
  fold_left (corpus_add lower tag_ responses_ url) patterns acc
  = (fst acc ++ map (normalize_text lower) (filter (usable lower) patterns),
     snd acc ++ map (fun pattern_ =>
                       {| tag := Some tag_; pattern := pattern_;
                          responses := responses_; source_url := url |})
                    (filter (usable lower) patterns)).
Proof.
  revert acc. induction patterns as [|pat patterns IH]; intros [c e].
  - simpl. rewrite !app_nil_r. reflexivity.
  - cbn [fold_left filter]. rewrite IH. unfold corpus_add, usable.
    destruct (null (normalize_text lower pat)); cbn [negb fst snd map];
      [reflexivity|].
    rewrite <- !app_assoc. reflexivity.
Qed.

Lemma prepare_corpus_eq (intents : option (list intent)) :
  prepare_corpus lower intents
  = (map (fun ex => normalize_text lower (pattern ex))
         (flat_map (intent_examples lower) (get intents [])),
     flat_map (intent_examples lower) (get intents [])).
Proof.
  unfold prepare_corpus.
  change (@nil str, @nil example)
    with (map (fun ex => normalize_text lower (pattern ex)) [], @nil example)
    at 1.
  rewrite <- (app_nil_l (flat_map (intent_examples lower) (get intents []))).
  generalize (@nil example) as acc.
  induction (get intents []) as [|it its IH]; intros acc; simpl.
  - rewrite app_nil_r. reflexivity.
  - rewrite corpus_add_fold. cbn [fst snd].
    rewrite app_assoc, <- IH. f_equal. f_equal.
    rewrite map_app. f_equal. unfold intent_examples.
    rewrite map_map. reflexivity.
Qed.

(** The rows of the FAQ table are added in step as well. *)
Lemma prepare_corpus_from_csv_rows_aligned (rows : list qa_row) :
  fst (prepare_corpus_from_csv_rows lower rows)
  = map (fun ex => normalize_text lower (pattern ex))
        (snd (prepare_corpus_from_csv_rows lower rows)).
Proof.
  unfold prepare_corpus_from_csv_rows.
  assert (H : forall acc : list str * list example,
            fst acc = map (fun ex => normalize_text lower (pattern ex)) (snd acc) ->
            let r := fold_left
                       (fun acc row =>
                          corpus_add lower (lit "web_" ++ topic row) [answer row]
                            (Some (row_source_url row)) acc (question row))
                       rows acc in
            fst r = map (fun ex => normalize_text lower (pattern ex)) (snd r)).
  { induction rows as [|row rows IH]; intros acc Hacc; simpl; [exact Hacc|].
    apply IH. unfold corpus_add.
    destruct (null (normalize_text lower (question row))); [exact Hacc|].
    cbn [fst snd]. rewrite map_app, Hacc. reflexivity. }
  apply (H ([], [])). reflexivity.
Qed.

(** C5: when the scoring structures of the payload's method hold one
    entry per example, [compute_scores] returns, for every query, one
    score per example.  [prepare_corpus] builds corpus and examples in
    step: they have the same length, each corpus entry is the non-empty
    normal form of the pattern of the example at the same position, and
    the patterns kept are exactly those whose normal form is non-empty,
    in file order. *)
Theorem compute_scores_aligned (p : index_payload vec) (q : str)
  (intents : option (list intent)) :
  payload_aligned p = true ->
  (exists scores, compute_scores cosine q p = Ok scores
                  /\ length scores = length (p_examples p))
  /\ (let (corpus, examples) := prepare_corpus lower intents in
      length corpus = length examples
      /\ corpus = map (fun ex => normalize_text lower (pattern ex)) examples
      /\ (forall c, In c corpus -> c <> [])
      /\ map pattern examples
         = filter (usable lower) (all_patterns intents)).
Proof.
  intros Hal. split; [apply compute_scores_length, Hal|].
  rewrite prepare_corpus_eq.
  split; [apply length_map|]. split; [reflexivity|]. split.
  - intros c Hc. apply in_map_iff in Hc. destruct Hc as (ex & <- & Hex).
    apply in_flat_map in Hex. destruct Hex as (it & _ & Hex).
    unfold intent_examples in Hex. apply in_map_iff in Hex.
    destruct Hex as (pat & <- & Hpat). apply filter_In in Hpat.
    destruct Hpat as [_ Hu]. unfold usable in Hu. simpl.
    destruct (normalize_text lower pat); [discriminate | discriminate].
  - unfold all_patterns. rewrite filter_flat_map, map_flat_map.
    apply flat_map_ext. intros it. unfold intent_examples.
    rewrite map_map. simpl. apply map_id.
Qed.

End EngineFacts.

(** ** Lists updated by index *)

Lemma set_item_spec {A} (l : list A) (i : nat) (v : A) (l' : list A) :
  set_item l i v = Ok l' ->
  length l' = length l
  /\ nth_error l' i = Some v
  /\ forall j, j <> i -> nth_error l' j = nth_error l j.
Proof.
  revert i l'. induction l as [|x l IH]; intros i l'; simpl; [discriminate|].
  destruct i as [|i].
  - intros E. injection E as <-. repeat split.
    intros [|j] Hj; [congruence | reflexivity].
  - destruct (set_item l i v) as [l''|e] eqn:E; simpl; [|discriminate].
    intros E'. injection E' as <-.
    destruct (IH i l'' E) as (H1 & H2 & H3).
    split; [simpl; congruence|]. split; [exact H2|].
    intros [|j] Hj; [reflexivity | simpl; apply H3; congruence].
Qed.

Lemma set_item_ok {A} (l : list A) (i : nat) (v : A) :
  (i < length l)%nat -> exists l', set_item l i v = Ok l'.
Proof.
  revert i. induction l as [|x l IH]; intros i; simpl; [lia|].
  destruct i as [|i]; [eexists; reflexivity|].
  intros Hi. destruct (IH i) as [l' E]; [lia|].
  rewrite E. simpl. eexists; reflexivity.
Qed.

Lemma get_item_ok {A} (l : list A) (i : nat) :
  (i < length l)%nat -> exists a, get_item l i = Ok a /\ nth_error l i = Some a.
Proof.
  intros Hi. unfold get_item.
  destruct (nth_error l i) as [a|] eqn:E; [exists a; auto|].
  apply nth_error_None in E. lia.
Qed.

Lemma get_item_inv {A} (l : list A) (i : nat) (a : A) :
  get_item l i = Ok a -> nth_error l i = Some a.
Proof.
  unfold get_item. destruct (nth_error l i); [congruence | discriminate].
Qed.

(** Python's [max] returns an element no other element exceeds. *)
Lemma max_scan_max {A} (keyf : A -> score) (rest : list A) :
  forall best,
    let r := max_scan keyf best rest in
    In r (best :: rest)
    /\ forall y, In y (best :: rest) -> ~ score_lt (keyf r) (keyf y).
Proof.
  induction rest as [|x rest IH]; intros best; cbn zeta; simpl.
  - split; [left; reflexivity|].
    intros y [<- | []]. apply score_lt_irrefl.
  - destruct (score_lt_dec (keyf best) (keyf x)) as [Hb | Hb].
    + destruct (IH x) as [Hin Hmax]. split; [right; exact Hin|].
      intros y [<- | Hy]; [|apply Hmax; exact Hy].
      intros Hc. apply (Hmax x (or_introl eq_refl)).
      eapply score_lt_trans; eassumption.
    + destruct (IH best) as [Hin Hmax]. split.
      * destruct Hin as [<- | Hin]; [left; reflexivity | right; right; exact Hin].
      * intros y [<- | [<- | Hy]];
          [apply Hmax; left; reflexivity | | apply Hmax; right; exact Hy].
        intros Hc. apply Hb.
        eapply score_le_lt_trans; [|exact Hc]. apply Hmax. left; reflexivity.
Qed.

Lemma py_max_spec (scores : list score) :
  scores <> [] ->
  exists top, py_max (fun x => x) scores = Ok top
    /\ In top scores
    /\ forall y, In y scores -> ~ score_lt top y.
Proof.
  destruct scores as [|s scores]; [congruence|]. intros _.
  simpl. eexists. split; [reflexivity|].
  apply (max_scan_max (fun x : score => x) scores s).
Qed.

Lemma nth_error_nth_score (scores : list score) (i : nat) (s : score) :
  nth_error scores i = Some s -> nth i scores NegInf = s.
Proof. intros H. apply nth_error_nth. exact H. Qed.

(** ** The matcher *)

Section MatcherFacts.

Variable lower : str -> str.
Variable vec : Type.
Variable cosine : vec -> vec -> R.

(** The filter loop only ever writes [-inf]; it writes it at every
    example whose topic differs from the filter and leaves every other
    position as it was. *)
Lemma mask_loop (f : str) (exs : list example) :
  forall k scores scores',
    for_enumerate (mask_step lower f) k exs scores = Ok scores' ->
    length scores' = length scores
    /\ (forall j, nth_error scores j = Some NegInf ->
                  nth_error scores' j = Some NegInf)
    /\ (forall i ex, nth_error exs i = Some ex ->
                     example_topic lower ex <> f ->
                     nth_error scores' (k + i) = Some NegInf)
    /\ (forall j,
          (forall i ex, nth_error exs i = Some ex -> (k + i)%nat = j ->
                        example_topic lower ex = f) ->
          nth_error scores' j = nth_error scores j).
Proof.
  induction exs as [|e exs IH]; intros k scores scores'; simpl.
  - intros E. injection E as <-.
    split; [reflexivity|]. split; [auto|]. split; [|reflexivity].
    intros [|i] ex; discriminate.
  - destruct (mask_step lower f k e scores) as [s1|err] eqn:E1; simpl;
      [|discriminate].
    intros E2. destruct (IH (S k) s1 scores' E2) as (L & P & M & U).
    assert (Hshift : forall j,
              (forall i ex, nth_error (e :: exs) i = Some ex ->
                            (k + i)%nat = j -> example_topic lower ex = f) ->
              forall i ex, nth_error exs i = Some ex -> (S k + i)%nat = j ->
                           example_topic lower ex = f).
    { intros j H i ex Hex Hj. apply (H (S i) ex Hex). lia. }
    unfold mask_step in E1. fold (example_topic lower e) in E1.
    destruct (str_eqb (example_topic lower e) f) eqn:Et; simpl in E1.
    + injection E1 as <-. split; [exact L|]. split; [exact P|]. split.
      * intros [|i] ex Hex Hne.
        -- injection Hex as <-. apply str_eqb_eq in Et. contradiction.
        -- rewrite <- plus_n_Sm. apply (M i ex Hex Hne).
      * intros j H. apply U, Hshift, H.
    + destruct (set_item_spec _ _ _ _ E1) as (L1 & V1 & O1).
      split; [congruence|]. split; [|split].
      * intros j Hj. apply P.
        destruct (Nat.eq_dec j k) as [-> | Hjk]; [exact V1|].
        rewrite O1 by exact Hjk. exact Hj.
      * intros [|i] ex Hex Hne.
        -- rewrite Nat.add_0_r. apply P. exact V1.
        -- rewrite <- plus_n_Sm. apply (M i ex Hex Hne).
      * intros j H. rewrite (U j (Hshift j H)). apply O1.
        intros ->. apply str_eqb_neq in Et. apply Et.
        apply (H 0%nat e eq_refl). lia.
Qed.

Lemma mask_loop_ok (f : str) (exs : list example) :
  forall k scores,
    (k + length exs <= length scores)%nat ->
    exists scores', for_enumerate (mask_step lower f) k exs scores = Ok scores'.
Proof.
  induction exs as [|e exs IH]; intros k scores Hlen; simpl.
  - eexists; reflexivity.
  - simpl in Hlen. unfold mask_step at 1.
    destruct (negb (str_eqb _ f)).
    + destruct (set_item_ok scores k NegInf) as [s1 E1]; [lia|].
      rewrite E1. simpl. apply IH.
      destruct (set_item_spec _ _ _ _ E1) as (L1 & _). lia.
    + simpl. apply IH. lia.
Qed.

(** [get_answer_with_source] from the filtered score vector on. *)
Lemma get_answer_with_source_scores (rnd : nat) (text : str)
  (p : index_payload vec) (f : str) (scores : list score) :
  normalize_text lower text <> [] ->
  scores_after_filter lower cosine (normalize_text lower text) p f = Ok scores ->
  get_answer_with_source lower cosine rnd text p f
  = if null scores then Ok (FALLBACK_MESSAGE, Fin 0.0, [])
    else
      top <- py_max (fun x => x) scores ;;
      if is_neg_inf top then Ok (FALLBACK_MESSAGE, Fin 0.0, [])
      else
        best_idx <- argmax scores ;;
        best_score <- get_item scores best_idx ;;
        if score_lt_dec best_score (Fin (get (p_threshold p) 0.25))
        then Ok (FALLBACK_MESSAGE, best_score, [])
        else
          best <- get_item (p_examples p) best_idx ;;
          Ok (choose_response rnd (responses best), best_score,
              get (source_url best) []).
Proof.
  intros Hne Hs. unfold get_answer_with_source, scores_after_filter in *.
  destruct (normalize_text lower text) as [|c n] eqn:En; [congruence|].
  cbn [null]. destruct (compute_scores cosine (c :: n) p) as [raw|e];
    [|discriminate].
  cbn [bind] in *. rewrite Hs. reflexivity.
Qed.

Lemma get_answer_with_source_inv (rnd : nat) (text : str)
  (p : index_payload vec) (f : str) (r : str * score * str) :
  get_answer_with_source lower cosine rnd text p f = Ok r ->
  normalize_text lower text = [] /\ r = (FALLBACK_MESSAGE, Fin 0.0, [])
  \/ normalize_text lower text <> []
     /\ exists scores,
          scores_after_filter lower cosine (normalize_text lower text) p f
          = Ok scores.
Proof.
  unfold get_answer_with_source, scores_after_filter.
  destruct (normalize_text lower text) as [|c n] eqn:En; cbn [null].
  - intros E. injection E as <-. left. auto.
  - intros E. right. split; [discriminate|].
    destruct (compute_scores cosine (c :: n) p) as [raw|e]; [|discriminate].
    cbn [bind] in *.
    destruct (if negb (str_eqb f (lit "all"))
              then for_enumerate (mask_step lower f) 0 (p_examples p)
                                 (map Fin raw)
              else Ok (map Fin raw)) as [scores|e]; [|discriminate].
    exists scores. reflexivity.
Qed.

Lemma choose_response_In (rnd : nat) (rs : list str) :
  choose_response rnd rs <> FALLBACK_MESSAGE -> In (choose_response rnd rs) rs.
Proof.
  unfold choose_response. destruct rs as [|r rs]; [congruence|].
  intros _. apply nth_In. apply Nat.mod_upper_bound. discriminate.
Qed.

(** Every score [-inf] means the fallback triple. *)
Lemma all_filtered_fallback (rnd : nat) (text : str) (p : index_payload vec)
  (f : str) (scores : list score) :
  scores_after_filter lower cosine (normalize_text lower text) p f = Ok scores ->
  (forall s, In s scores -> s = NegInf) ->
  get_answer_with_source lower cosine rnd text p f
  = Ok (FALLBACK_MESSAGE, Fin 0.0, []).
Proof.
  intros Hs Hall.
  destruct (normalize_text lower text) as [|c n] eqn:En.
  { unfold get_answer_with_source. rewrite En. reflexivity. }
  rewrite <- En in Hs.
  rewrite (get_answer_with_source_scores rnd text p f scores);
    [|congruence | exact Hs].
  destruct scores as [|s0 scores0] eqn:Esc; [reflexivity|].
  rewrite <- Esc in *. replace (null scores) with false by (rewrite Esc; reflexivity).
  destruct (py_max_spec scores) as (top & Et & Hin & _);
    [rewrite Esc; discriminate|].
  rewrite Et. cbn [bind]. rewrite (Hall top Hin). reflexivity.
Qed.

(** C6: with a topic filter other than ["all"], (1) an answer that is not
    the fallback message comes from an example whose normalised topic
    equals the filter: it is one of that example's responses and carries
    that example's source; (2) the filter acts on the score vector after
    scoring: the vector keeps its length, the position of every example
    with another topic holds [-inf] and the position of every example
    with the filter's topic holds its computed score; (3) when every
    position is [-inf] the fallback triple is returned, which (4) is what
    happens on an aligned payload none of whose examples has the filter's
    topic. *)
Theorem topic_filter_sound (rnd : nat) (text : str) (p : index_payload vec)
  (f : str) :
  f <> lit "all" ->
  (forall ans s url,
     get_answer_with_source lower cosine rnd text p f = Ok (ans, s, url) ->
     ans <> FALLBACK_MESSAGE ->
     exists i ex,
       nth_error (p_examples p) i = Some ex
       /\ example_topic lower ex = f
       /\ In ans (responses ex)
       /\ url = get (source_url ex) [])
  /\ (forall raw scores,
        compute_scores cosine (normalize_text lower text) p = Ok raw ->
        scores_after_filter lower cosine (normalize_text lower text) p f
        = Ok scores ->
        length scores = length raw
        /\ forall i ex,
             nth_error (p_examples p) i = Some ex ->
             nth_error scores i
             = if str_eqb (example_topic lower ex) f
               then nth_error (map Fin raw) i
               else Some NegInf)
  /\ (forall scores,
        scores_after_filter lower cosine (normalize_text lower text) p f
        = Ok scores ->
        (forall s, In s scores -> s = NegInf) ->
        get_answer_with_source lower cosine rnd text p f
        = Ok (FALLBACK_MESSAGE, Fin 0.0, []))
  /\ (payload_aligned p = true ->
      (forall ex, In ex (p_examples p) -> example_topic lower ex <> f) ->
      get_answer_with_source lower cosine rnd text p f
      = Ok (FALLBACK_MESSAGE, Fin 0.0, [])).
Proof.
  intros Hf. apply str_eqb_neq in Hf. split; [|split; [|split]].
  - intros ans s url Hrun Hans.
    destruct (get_answer_with_source_inv _ _ _ _ _ Hrun)
      as [[_ E] | (Hne & scores & Hs)]; [congruence|].
    rewrite (get_answer_with_source_scores rnd text p f scores Hne Hs) in Hrun.
    destruct (null scores); [congruence|].
    destruct (py_max (fun x => x) scores) as [top|e]; [|discriminate].
    cbn [bind] in Hrun. destruct (is_neg_inf top); [congruence|].
    destruct (argmax scores) as [best_idx|e]; [|discriminate].
    cbn [bind] in Hrun.
    destruct (get_item scores best_idx) as [best_score|e] eqn:Eb; [|discriminate].
    cbn [bind] in Hrun.
    destruct (score_lt_dec best_score (Fin (get (p_threshold p) 0.25)))
      as [Hlt | Hge]; [congruence|].
    destruct (get_item (p_examples p) best_idx) as [best|e] eqn:Ee; [|discriminate].
    cbn [bind] in Hrun. injection Hrun as <- <- <-.
    apply get_item_inv in Eb, Ee.
    exists best_idx, best. split; [exact Ee|]. split.
    + destruct (str_eq_dec (example_topic lower best) f) as [E | Hne']; [exact E|].
      exfalso. unfold scores_after_filter in Hs.
      destruct (compute_scores cosine (normalize_text lower text) p) as [raw|e];
        [|discriminate].
      cbn [bind] in Hs. rewrite Hf in Hs. cbn [negb] in Hs.
      destruct (mask_loop _ _ _ _ _ Hs) as (_ & _ & M & _).
      specialize (M best_idx best Ee Hne'). simpl in M.
      destruct (score_lt_neg_inf _ _ Hge) as [y Hy]. congruence.
    + split; [apply choose_response_In; exact Hans | reflexivity].
  - intros raw scores Er Hs. unfold scores_after_filter in Hs.
    rewrite Er in Hs. cbn [bind] in Hs. rewrite Hf in Hs. cbn [negb] in Hs.
    destruct (mask_loop _ _ _ _ _ Hs) as (L & _ & M & U).
    split; [rewrite L; apply length_map|].
    intros i ex Hex.
    destruct (str_eqb (example_topic lower ex) f) eqn:Et.
    + apply U. intros i' ex' Hex' Hi. simpl in Hi. subst i'.
      rewrite Hex in Hex'. injection Hex' as <-. apply str_eqb_eq. exact Et.
    + apply str_eqb_neq in Et. apply (M i ex Hex Et).
  - intros scores. apply all_filtered_fallback.
  - intros Hal Hnone.
    destruct (compute_scores_length vec cosine (normalize_text lower text) p Hal)
      as (raw & Er & Lr).
    destruct (mask_loop_ok f (p_examples p) 0 (map Fin raw)) as [scores Es];
      [rewrite length_map; lia|].
    assert (Hs : scores_after_filter lower cosine
                   (normalize_text lower text) p f = Ok scores).
    { unfold scores_after_filter. rewrite Er. cbn [bind].
      rewrite Hf. exact Es. }
    apply (all_filtered_fallback rnd text p f scores Hs).
    destruct (mask_loop _ _ _ _ _ Es) as (L & _ & M & _).
    intros s Hin. apply In_nth_error in Hin. destruct Hin as [j Hj].
    assert (Hjl : (j < length (p_examples p))%nat).
    { rewrite <- Lr, <- (length_map Fin raw), <- L.
      apply nth_error_Some. congruence. }
    destruct (nth_error (p_examples p) j) as [ex|] eqn:Eex;
      [|apply nth_error_None in Eex; lia].
    specialize (M j ex Eex (Hnone ex (nth_error_In _ _ Eex))).
    simpl in M. congruence.
Qed.

(** The threshold decision, once the filtered scores have a finite best
    score [x] at the argmax. *)
Lemma get_answer_with_source_decision (rnd : nat) (text : str)
  (p : index_payload vec) (f : str) (scores : list score) (best_idx : nat)
  (x : R) :
  normalize_text lower text <> [] ->
  scores_after_filter lower cosine (normalize_text lower text) p f = Ok scores ->
  argmax scores = Ok best_idx ->
  nth_error scores best_idx = Some (Fin x) ->
  get_answer_with_source lower cosine rnd text p f
  = if Rlt_dec x (get (p_threshold p) 0.25)
    then Ok (FALLBACK_MESSAGE, Fin x, [])
    else
      best <- get_item (p_examples p) best_idx ;;
      Ok (choose_response rnd (responses best), Fin x,
          get (source_url best) []).
Proof.
  intros Hne Hs Ha Hb.
  rewrite (get_answer_with_source_scores rnd text p f scores Hne Hs).
  assert (Hnn : scores <> []) by (intros ->; destruct best_idx; discriminate).
  destruct scores as [|s0 scores0] eqn:Esc; [congruence|].
  rewrite <- Esc in *. replace (null scores) with false by (rewrite Esc; reflexivity).
  destruct (py_max_spec scores Hnn) as (top & Et & _ & Hmax).
  rewrite Et. cbn [bind].
  assert (Htop : is_neg_inf top = false).
  { destruct top; [|reflexivity]. exfalso.
    apply (Hmax (Fin x) (nth_error_In _ _ Hb)). exact I. }
  rewrite Htop, Ha. cbn [bind]. unfold get_item at 1. rewrite Hb. cbn [bind].
  reflexivity.
Qed.

(** C8: when the score at the argmax is finite and strictly below the
    threshold, the answer is the fallback message, the reported score is
    that best score itself, and the source is empty. *)
Theorem below_threshold_fallback (rnd : nat) (text : str)
  (p : index_payload vec) (f : str) (scores : list score) (best_idx : nat)
  (x : R) :
  normalize_text lower text <> [] ->
  scores_after_filter lower cosine (normalize_text lower text) p f = Ok scores ->
  argmax scores = Ok best_idx ->
  nth_error scores best_idx = Some (Fin x) ->
  x < get (p_threshold p) 0.25 ->
  get_answer_with_source lower cosine rnd text p f
  = Ok (FALLBACK_MESSAGE, Fin x, []).
Proof.
  intros Hne Hs Ha Hb Hx.
  rewrite (get_answer_with_source_decision rnd text p f scores best_idx x)
    by assumption.
  destruct (Rlt_dec x (get (p_threshold p) 0.25)); [reflexivity | contradiction].
Qed.

End MatcherFacts.

(** ** The evaluator *)

Section EvaluatorFacts.

Variable lower : str -> str.
Variable vec : Type.
Variable cosine : vec -> vec -> R.

(** One iteration of the loop for a query that is attempted. *)
Lemma eval_step_run (p : index_payload vec) (th : R) (idx : nat)
  (ex : example) (st : EvalResult) (raw : list R) :
  normalize_text lower (pattern ex) <> [] ->
  compute_scores cosine (normalize_text lower (pattern ex)) p = Ok raw ->
  raw <> [] ->
  eval_step lower cosine p th idx ex st
  = scores <- set_item (map Fin raw) idx NegInf ;;
    best_idx <- argmax scores ;;
    best_score <- get_item scores best_idx ;;
    if score_lt_dec best_score (Fin th)
    then Ok {| method := method st; total := S (total st);
               correct := correct st; fallbacks := S (fallbacks st) |}
    else
      best <- get_item (p_examples p) best_idx ;;
      best_tag <- key (tag best) ;;
      own_tag <- key (tag ex) ;;
      if str_eqb best_tag own_tag
      then Ok {| method := method st; total := S (total st);
                 correct := S (correct st); fallbacks := fallbacks st |}
      else Ok {| method := method st; total := S (total st);
                 correct := correct st; fallbacks := fallbacks st |}.
Proof.
  intros Hn Hc Hr. unfold eval_step.
  destruct (normalize_text lower (pattern ex)) as [|c n]; [congruence|].
  cbn [null]. rewrite Hc. cbn [bind].
  destruct raw as [|r raw]; [congruence|]. reflexivity.
Qed.

Lemma eval_step_skip (p : index_payload vec) (th : R) (idx : nat)
  (ex : example) (st : EvalResult) :
  normalize_text lower (pattern ex) = [] ->
  eval_step lower cosine p th idx ex st = Ok st.
Proof. intros H. unfold eval_step. rewrite H. reflexivity. Qed.

(** A query counted as correct was won by another row with the same tag
    whose own score reaches the threshold. *)
Lemma eval_step_correct (p : index_payload vec) (th : R) (idx : nat)
  (ex : example) (st st' : EvalResult) :
  eval_step lower cosine p th idx ex st = Ok st' ->
  correct st' = S (correct st) ->
  exists raw j exj t y,
    compute_scores cosine (normalize_text lower (pattern ex)) p = Ok raw
    /\ j <> idx
    /\ nth_error raw j = Some y /\ th <= y
    /\ nth_error (p_examples p) j = Some exj
    /\ tag exj = Some t /\ tag ex = Some t.
Proof.
  intros Hrun Hcor.
  destruct (normalize_text lower (pattern ex)) as [|c n] eqn:En.
  { rewrite eval_step_skip in Hrun by exact En. injection Hrun as <-. lia. }
  destruct (compute_scores cosine (c :: n) p) as [raw|e] eqn:Ec.
  2:{ unfold eval_step in Hrun. rewrite En in Hrun. cbn [null] in Hrun.
      rewrite Ec in Hrun. discriminate. }
  destruct raw as [|r0 raw0] eqn:Er.
  { unfold eval_step in Hrun. rewrite En in Hrun. cbn [null] in Hrun.
    rewrite Ec in Hrun. cbn [bind null] in Hrun. injection Hrun as <-. lia. }
  rewrite <- Er in *.
  rewrite (eval_step_run p th idx ex st raw) in Hrun;
    [|rewrite En; discriminate | rewrite En; exact Ec | rewrite Er; discriminate].
  destruct (set_item (map Fin raw) idx NegInf) as [scores|e] eqn:Es; [|discriminate].
  cbn [bind] in Hrun.
  destruct (argmax scores) as [best_idx|e]; [|discriminate].
  cbn [bind] in Hrun.
  destruct (get_item scores best_idx) as [bs|e] eqn:Eb; [|discriminate].
  cbn [bind] in Hrun.
  destruct (score_lt_dec bs (Fin th)) as [Hlt | Hge].
  { injection Hrun as <-. simpl in Hcor. lia. }
  destruct (get_item (p_examples p) best_idx) as [best|e] eqn:Ee; [|discriminate].
  cbn [bind] in Hrun.
  destruct (tag best) as [bt|] eqn:Etb; [|discriminate].
  destruct (tag ex) as [ot|] eqn:Eto; [|discriminate].
  cbn [bind key] in Hrun.
  destruct (str_eqb bt ot) eqn:Etag; injection Hrun as <-; simpl in Hcor; [|lia].
  apply str_eqb_eq in Etag. subst ot.
  apply get_item_inv in Eb, Ee.
  destruct (set_item_spec _ _ _ _ Es) as (_ & Hself & Hother).
  destruct (score_lt_neg_inf _ _ Hge) as [y Hy]. subst bs.
  assert (Hj : best_idx <> idx) by (intros ->; congruence).
  rewrite (Hother best_idx Hj), nth_error_map in Eb.
  destruct (nth_error raw best_idx) as [y'|] eqn:Ey; [|discriminate].
  injection Eb as ->.
  exists raw, best_idx, best, bt, y. repeat split; auto.
  simpl in Hge. lra.
Qed.

(** Under alignment an attempted query always completes, counts once,
    and adds at most one to [correct] or [fallbacks]. *)
Lemma eval_step_aligned (p : index_payload vec) (th : R) (idx : nat)
  (ex : example) (st : EvalResult) :
  payload_aligned p = true ->
  (idx < length (p_examples p))%nat ->
  (forall e, In e (p_examples p) -> tag e <> None) ->
  tag ex <> None ->
  exists st', eval_step lower cosine p th idx ex st = Ok st'
    /\ method st' = method st
    /\ total st' = (total st + if usable lower (pattern ex) then 1 else 0)%nat
    /\ (correct st <= correct st')%nat /\ (fallbacks st <= fallbacks st')%nat
    /\ (correct st' + fallbacks st' + total st
        <= correct st + fallbacks st + total st')%nat.
Proof.
  intros Hal Hidx Htags Hown. unfold usable.
  destruct (normalize_text lower (pattern ex)) as [|c n] eqn:En.
  { exists st. rewrite eval_step_skip by exact En. cbn [null negb].
    repeat split; lia. }
  cbn [null negb].
  destruct (compute_scores_length vec cosine (c :: n) p Hal) as (raw & Ec & Lr).
  assert (Hraw : raw <> []) by (intros ->; simpl in Lr; lia).
  rewrite (eval_step_run p th idx ex st raw);
    [|rewrite En; discriminate | rewrite En; exact Ec | exact Hraw].
  destruct (set_item_ok (map Fin raw) idx NegInf) as [scores Es];
    [rewrite length_map; lia|].
  rewrite Es. cbn [bind].
  destruct (set_item_spec _ _ _ _ Es) as (Ls & _ & _).
  rewrite length_map in Ls.
  destruct (argmax_spec scores) as (best & Ea & Hb & _);
    [intros ->; simpl in Ls; lia|].
  rewrite Ea. cbn [bind].
  destruct (get_item_ok scores best Hb) as (bs & Eb & _).
  rewrite Eb. cbn [bind].
  destruct (score_lt_dec bs (Fin th)).
  { eexists. split; [reflexivity|]. simpl. repeat split; lia. }
  destruct (get_item_ok (p_examples p) best) as (bex & Ee & Hn); [lia|].
  rewrite Ee. cbn [bind].
  destruct (tag bex) as [bt|] eqn:Etb;
    [|exfalso; apply (Htags bex (nth_error_In _ _ Hn)); exact Etb].
  destruct (tag ex) as [ot|]; [|congruence].
  cbn [bind key].
  destruct (str_eqb bt ot); eexists; (split; [reflexivity|]);
    simpl; repeat split; lia.
Qed.

Lemma eval_loop (p : index_payload vec) (th : R) (exs : list example) :
  payload_aligned p = true ->
  (forall e, In e (p_examples p) -> tag e <> None) ->
  forall k st,
    (k + length exs <= length (p_examples p))%nat ->
    (forall e, In e exs -> tag e <> None) ->
    exists r, for_enumerate (eval_step lower cosine p th) k exs st = Ok r
      /\ method r = method st
      /\ total r
         = (total st
            + length (filter (fun ex => usable lower (pattern ex)) exs))%nat
      /\ (correct r + fallbacks r + total st
          <= correct st + fallbacks st + total r)%nat.
Proof.
  intros Hal Htags. induction exs as [|ex exs IH]; intros k st Hk Hex.
  - exists st. simpl. repeat split; lia.
  - simpl in Hk. cbn [for_enumerate].
    destruct (eval_step_aligned p th k ex st Hal) as (st1 & E1 & M1 & T1 & _ & _ & C1);
      [lia | exact Htags | apply Hex; left; reflexivity|].
    rewrite E1. cbn [bind].
    destruct (IH (S k) st1) as (r & Er & Mr & Tr & Cr);
      [lia | intros e He; apply Hex; right; exact He|].
    exists r. split; [exact Er|]. split; [congruence|].
    cbn [filter]. destruct (usable lower (pattern ex)); simpl; split; lia.
Qed.

(** The specification gives every query one outcome. *)
Lemma spec_outcome_unique (p : index_payload vec) (th : R) (i : nat)
  (ex : example) (o o' : outcome) :
  spec_outcome lower cosine p th i ex o ->
  spec_outcome lower cosine p th i ex o' ->
  o = o'.
Proof.
  intros [[Hn ->] | (Hq & raw & scores & best & bs & Ec & Hm & Hf & Hd)]
         [[Hn' ->] | (Hq' & raw' & scores' & best' & bs' & Ec' & Hm' & Hf' & Hd')];
    try reflexivity; try contradiction.
  rewrite Ec in Ec'. injection Ec' as <-.
  assert (Es : scores' = scores).
  { destruct Hm as (L & Hi & Ho), Hm' as (L' & Hi' & Ho').
    apply nth_error_ext. intros j. destruct (Nat.eq_dec j i) as [-> | Hj].
    - congruence.
    - rewrite (Ho j Hj), (Ho' j Hj). reflexivity. }
  subst scores'.
  destruct Hf as (Hb & Hmax & Hfirst), Hf' as (Hb' & Hmax' & Hfirst').
  assert (Eb : best' = best).
  { destruct (Nat.lt_trichotomy best best') as [Hlt | [-> | Hlt]];
      [|reflexivity|].
    - exfalso. apply (Hmax best' bs' Hb'). apply (Hfirst' best bs Hlt Hb).
    - exfalso. apply (Hmax' best bs Hb). apply (Hfirst best' bs' Hlt Hb'). }
  subst best'. rewrite Hb in Hb'. injection Hb' as <-.
  destruct Hd as [[Hlt ->] | (Hge & bex & Hx & Ht)],
           Hd' as [[Hlt' ->] | (Hge' & bex' & Hx' & Ht')];
    try reflexivity; try contradiction.
  rewrite Hx in Hx'. injection Hx' as <-.
  destruct Ht as [[E ->] | [E ->]], Ht' as [[E' ->] | [E' ->]];
    try reflexivity; contradiction.
Qed.

(** One pass of the loop against the specification's outcome. *)
Lemma eval_step_outcome (p : index_payload vec) (th : R) (idx : nat)
  (ex : example) (st : EvalResult) :
  payload_aligned p = true ->
  (idx < length (p_examples p))%nat ->
  (forall e, In e (p_examples p) -> tag e <> None) ->
  tag ex <> None ->
  exists st' o,
    eval_step lower cosine p th idx ex st = Ok st'
    /\ spec_outcome lower cosine p th idx ex o
    /\ method st' = method st
    /\ total st' = (total st + if outcome_eqb o Skipped then 0 else 1)%nat
    /\ correct st' = (correct st + if outcome_eqb o Correct then 1 else 0)%nat
    /\ fallbacks st'
       = (fallbacks st + if outcome_eqb o Fallback then 1 else 0)%nat.
Proof.
  intros Hal Hidx Htags Hown.
  destruct (normalize_text lower (pattern ex)) as [|c n] eqn:En.
  { exists st, Skipped. rewrite eval_step_skip by exact En.
    split; [reflexivity|]. split; [left; split; [exact En | reflexivity]|].
    simpl. repeat split; lia. }
  assert (Hq : normalize_text lower (pattern ex) <> [])
    by (rewrite En; discriminate).
  destruct (compute_scores_length vec cosine (c :: n) p Hal) as (raw & Ec & Lr).
  rewrite <- En in Ec.
  assert (Hraw : raw <> []) by (intros ->; simpl in Lr; lia).
  rewrite (eval_step_run p th idx ex st raw Hq Ec Hraw).
  destruct (set_item_ok (map Fin raw) idx NegInf) as [scores Es];
    [rewrite length_map; lia|].
  rewrite Es. cbn [bind].
  destruct (set_item_spec _ _ _ _ Es) as (Ls & Hself & Hother).
  rewrite length_map in Ls.
  destruct (argmax_spec scores) as (best & Ea & Hb & M & F);
    [intros ->; simpl in Ls; lia|].
  rewrite Ea. cbn [bind].
  destruct (get_item_ok scores best Hb) as (bs & Eb & Hbs).
  rewrite Eb. cbn [bind].
  assert (Hmask : spec_masked raw idx scores).
  { split; [exact Ls|]. split; [exact Hself|].
    intros j Hj. rewrite (Hother j Hj). apply nth_error_map. }
  assert (Hfirst : spec_first_best scores best bs).
  { split; [exact Hbs|]. split.
    - intros j s Hj.
      assert (Hjl : (j < length scores)%nat)
        by (apply nth_error_Some; congruence).
      specialize (M j Hjl).
      rewrite (nth_error_nth_score _ _ _ Hbs),
        (nth_error_nth_score _ _ _ Hj) in M. exact M.
    - intros j s Hlt Hj. specialize (F j Hlt).
      rewrite (nth_error_nth_score _ _ _ Hbs),
        (nth_error_nth_score _ _ _ Hj) in F. exact F. }
  destruct (score_lt_dec bs (Fin th)) as [Hlt | Hge].
  { eexists. exists Fallback. split; [reflexivity|]. split.
    - right. split; [exact Hq|]. exists raw, scores, best, bs.
      split; [exact Ec|]. split; [exact Hmask|]. split; [exact Hfirst|].
      left. split; [exact Hlt | reflexivity].
    - simpl. repeat split; lia. }
  destruct (get_item_ok (p_examples p) best) as (bex & Ee & Hn); [lia|].
  rewrite Ee. cbn [bind].
  destruct (tag bex) as [bt|] eqn:Etb;
    [|exfalso; apply (Htags bex (nth_error_In _ _ Hn)); exact Etb].
  destruct (tag ex) as [ot|] eqn:Eto; [|congruence].
  cbn [bind key].
  destruct (str_eqb bt ot) eqn:Et.
  - apply str_eqb_eq in Et. subst ot.
    eexists. exists Correct. split; [reflexivity|]. split.
    + right. split; [exact Hq|]. exists raw, scores, best, bs.
      split; [exact Ec|]. split; [exact Hmask|]. split; [exact Hfirst|].
      right. split; [exact Hge|]. exists bex. split; [exact Hn|].
      left. split; [congruence | reflexivity].
    + simpl. repeat split; lia.
  - apply str_eqb_neq in Et.
    eexists. exists Wrong. split; [reflexivity|]. split.
    + right. split; [exact Hq|]. exists raw, scores, best, bs.
      split; [exact Ec|]. split; [exact Hmask|]. split; [exact Hfirst|].
      right. split; [exact Hge|]. exists bex. split; [exact Hn|].
      right. split; [congruence | reflexivity].
    + simpl. repeat split; lia.
Qed.

Lemma count_outcome_cons (o a : outcome) (l : list outcome) :
  count_outcome o (a :: l)
  = ((if outcome_eqb o a then 1 else 0) + count_outcome o l)%nat.
Proof. unfold count_outcome. simpl. destruct (outcome_eqb o a); reflexivity. Qed.

Lemma count_outcome_le (o : outcome) (l : list outcome) :
  (count_outcome o l <= length l)%nat.
Proof. apply filter_length_le. Qed.

Lemma outcome_eqb_sym (a c : outcome) : outcome_eqb a c = outcome_eqb c a.
Proof. destruct a, c; reflexivity. Qed.

(** The loop against the specification: one outcome per example, and the
    counters count the outcomes. *)
Lemma eval_loop_outcomes (p : index_payload vec) (th : R)
  (exs : list example) :
  payload_aligned p = true ->
  (forall e, In e (p_examples p) -> tag e <> None) ->
  forall k st,
    (k + length exs <= length (p_examples p))%nat ->
    (forall e, In e exs -> tag e <> None) ->
    exists r outcomes,
      for_enumerate (eval_step lower cosine p th) k exs st = Ok r
      /\ length outcomes = length exs
      /\ (forall i ex, nth_error exs i = Some ex ->
            exists o, nth_error outcomes i = Some o
              /\ spec_outcome lower cosine p th (k + i) ex o)
      /\ method r = method st
      /\ (total r + count_outcome Skipped outcomes
          = total st + length outcomes)%nat
      /\ correct r = (correct st + count_outcome Correct outcomes)%nat
      /\ fallbacks r = (fallbacks st + count_outcome Fallback outcomes)%nat.
Proof.
  intros Hal Htags. induction exs as [|ex exs IH]; intros k st Hk Hex.
  - exists st, []. simpl. split; [reflexivity|]. split; [reflexivity|].
    split; [intros [|i] ex E; discriminate|]. split; [reflexivity|].
    unfold count_outcome. simpl. repeat split; lia.
  - simpl in Hk. cbn [for_enumerate].
    destruct (eval_step_outcome p th k ex st Hal)
      as (st1 & o & E1 & Ho & M1 & T1 & C1 & F1);
      [lia | exact Htags | apply Hex; left; reflexivity|].
    rewrite E1. cbn [bind].
    destruct (IH (S k) st1) as (r & os & Er & Lo & Hos & Mr & Tr & Cr & Fr);
      [lia | intros e He; apply Hex; right; exact He|].
    exists r, (o :: os). split; [exact Er|].
    split; [simpl; congruence|]. split.
    + intros [|i] e Hi; simpl in Hi.
      * injection Hi as <-. exists o. split; [reflexivity|].
        rewrite Nat.add_0_r. exact Ho.
      * destruct (Hos i e Hi) as (o' & Eo & Ho'). exists o'.
        split; [exact Eo|].
        replace (k + S i)%nat with (S k + i)%nat by lia. exact Ho'.
    + rewrite !count_outcome_cons. cbn [length].
      rewrite (outcome_eqb_sym Skipped o), (outcome_eqb_sym Correct o),
        (outcome_eqb_sym Fallback o).
      split; [congruence|].
      destruct o; simpl in *; repeat split; lia.
Qed.

(** The evaluation of an aligned payload with tags, against the
    specification. *)
Lemma evaluate_method_outcomes (m : str) (p : index_payload vec) :
  payload_aligned p = true ->
  (forall ex, In ex (p_examples p) -> tag ex <> None) ->
  exists r outcomes,
    evaluate_method lower cosine m p = Ok r
    /\ length outcomes = length (p_examples p)
    /\ (forall i ex, nth_error (p_examples p) i = Some ex ->
          exists o, nth_error outcomes i = Some o
            /\ spec_outcome lower cosine p (get (p_threshold p) 0.25) i ex o)
    /\ total r = (length outcomes - count_outcome Skipped outcomes)%nat
    /\ correct r = count_outcome Correct outcomes
    /\ fallbacks r = count_outcome Fallback outcomes.
Proof.
  intros Hal Htags. unfold evaluate_method.
  destruct (eval_loop_outcomes p (get (p_threshold p) 0.25) (p_examples p)
              Hal Htags 0
              {| method := m; total := 0; correct := 0; fallbacks := 0 |})
    as (r & os & Er & Lo & Hos & _ & Tr & Cr & Fr); [lia | exact Htags|].
  exists r, os. split; [exact Er|]. split; [exact Lo|].
  split; [exact Hos|]. simpl in Tr, Cr, Fr.
  pose proof (count_outcome_le Skipped os). repeat split; lia.
Qed.

(** C9: in [evaluate_method], an example whose normalised pattern is
    empty leaves the counters untouched; a query counted as correct was
    won by a different row (its own score was forced to [-inf]); on an
    aligned payload whose examples carry tags the run completes with one
    outcome per example, the outcome of the query at position [i] being
    the specification's: skipped when the normal form is empty,
    otherwise decided on the scores of the whole corpus with position
    [i] forced to [-inf], by the first position that holds the largest
    of them; [total], [correct] and [fallbacks] count the attempted, the
    correct and the fallback outcomes, and [total] is the number of
    examples with a non-empty normal form; and when the corpus has a
    single example every attempted query falls back: [correct = 0] and
    [fallbacks = total]. *)
Theorem evaluate_method_leave_one_out (m : str) (p : index_payload vec) :
  payload_aligned p = true ->
  (forall th idx ex st,
     normalize_text lower (pattern ex) = [] ->
     eval_step lower cosine p th idx ex st = Ok st)
  /\ (forall th idx ex st st',
        eval_step lower cosine p th idx ex st = Ok st' ->
        correct st' = S (correct st) ->
        exists raw j exj t y,
          compute_scores cosine (normalize_text lower (pattern ex)) p = Ok raw
          /\ j <> idx
          /\ nth_error raw j = Some y /\ th <= y
          /\ nth_error (p_examples p) j = Some exj
          /\ tag exj = Some t /\ tag ex = Some t)
  /\ ((forall ex, In ex (p_examples p) -> tag ex <> None) ->
      exists r outcomes,
        evaluate_method lower cosine m p = Ok r
        /\ length outcomes = length (p_examples p)
        /\ (forall i ex, nth_error (p_examples p) i = Some ex ->
              exists o, nth_error outcomes i = Some o
                /\ spec_outcome lower cosine p (get (p_threshold p) 0.25)
                     i ex o)
        /\ total r = (length outcomes - count_outcome Skipped outcomes)%nat
        /\ correct r = count_outcome Correct outcomes
        /\ fallbacks r = count_outcome Fallback outcomes
        /\ total r
           = length (filter (fun ex => usable lower (pattern ex))
                            (p_examples p))
        /\ (correct r + fallbacks r <= total r)%nat)
  /\ (forall e, p_examples p = [e] ->
      exists r, evaluate_method lower cosine m p = Ok r
        /\ correct r = 0%nat
        /\ fallbacks r = total r
        /\ total r = if usable lower (pattern e) then 1%nat else 0%nat).
Proof.
  intros Hal. split; [intros; apply eval_step_skip; assumption|].
  split; [intros th idx ex st st'; apply eval_step_correct|].
  split.
  - intros Htags.
    destruct (evaluate_method_outcomes m p Hal Htags)
      as (r & os & Er & Lo & Hos & Tr & Cr & Fr).
    exists r, os. split; [exact Er|]. split; [exact Lo|].
    split; [exact Hos|]. split; [exact Tr|]. split; [exact Cr|].
    split; [exact Fr|].
    unfold evaluate_method in Er.
    destruct (eval_loop p (get (p_threshold p) 0.25) (p_examples p) Hal Htags 0
                {| method := m; total := 0; correct := 0; fallbacks := 0 |})
      as (r' & Er' & _ & Tr' & Cr'); [lia | exact Htags|].
    rewrite Er in Er'. injection Er' as <-.
    simpl in Tr', Cr'. split; lia.
  - intros e He. unfold evaluate_method, usable. rewrite He.
    cbn [for_enumerate].
    destruct (normalize_text lower (pattern e)) as [|c n] eqn:En.
    { rewrite eval_step_skip by exact En. cbn [bind null negb].
      eexists. split; [reflexivity|]. simpl. auto. }
    cbn [null negb].
    destruct (compute_scores_length vec cosine (c :: n) p Hal) as (raw & Ec & Lr).
    rewrite He in Lr. simpl in Lr.
    destruct raw as [|x [|x' raw]]; try discriminate.
    rewrite (eval_step_run p _ 0 e _ [x]);
      [|rewrite En; discriminate | rewrite En; exact Ec | discriminate].
    cbn [map set_item bind argmax length seq py_max max_scan get_item nth_error].
    destruct (score_lt_dec NegInf (Fin (get (p_threshold p) 0.25)))
      as [_ | Hc]; [|exfalso; apply Hc; exact I].
    eexists. split; [reflexivity|]. simpl. auto.
Qed.

(** C10: a payload without a ["threshold"] entry is answered and
    evaluated exactly as the same payload with threshold 0.25.  In
    [get_answer_with_source] a finite best score below 0.25 gives the
    fallback and a best score of at least 0.25 gives the matched
    example.  In [evaluate_method], on an aligned payload whose examples
    carry tags, the outcome of every query is the specification's for
    the threshold 0.25: an attempted query is a fallback exactly when the
    best score left after its own is forced to [-inf] is below 0.25, and
    [fallbacks], [correct] and [total] count those outcomes. *)
Theorem default_threshold (rnd : nat) (text : str) (p : index_payload vec)
  (f m : str) :
  p_threshold p = None ->
  get_answer_with_source lower cosine rnd text p f
  = get_answer_with_source lower cosine rnd text (with_threshold p 0.25) f
  /\ evaluate_method lower cosine m p
     = evaluate_method lower cosine m (with_threshold p 0.25)
  /\ (forall scores best_idx x,
       normalize_text lower text <> [] ->
       scores_after_filter lower cosine (normalize_text lower text) p f
       = Ok scores ->
       argmax scores = Ok best_idx ->
       nth_error scores best_idx = Some (Fin x) ->
       (x < 0.25 ->
        get_answer_with_source lower cosine rnd text p f
        = Ok (FALLBACK_MESSAGE, Fin x, []))
       /\ (0.25 <= x ->
           get_answer_with_source lower cosine rnd text p f
           = best <- get_item (p_examples p) best_idx ;;
             Ok (choose_response rnd (responses best), Fin x,
                 get (source_url best) [])))
  /\ (payload_aligned p = true ->
      (forall ex, In ex (p_examples p) -> tag ex <> None) ->
      exists r outcomes,
        evaluate_method lower cosine m p = Ok r
        /\ length outcomes = length (p_examples p)
        /\ (forall i ex, nth_error (p_examples p) i = Some ex ->
              exists o, nth_error outcomes i = Some o
                /\ spec_outcome lower cosine p 0.25 i ex o)
        /\ total r = (length outcomes - count_outcome Skipped outcomes)%nat
        /\ correct r = count_outcome Correct outcomes
        /\ fallbacks r = count_outcome Fallback outcomes).
Proof.
  intros H. split; [|split; [|split]].
  - unfold get_answer_with_source. rewrite H. reflexivity.
  - unfold evaluate_method. rewrite H. reflexivity.
  - intros scores best_idx x Hne Hs Ha Hb.
    rewrite (get_answer_with_source_decision lower vec cosine rnd text p f
               scores best_idx x) by assumption.
    rewrite H. cbn [get].
    destruct (Rlt_dec x 0.25); split; intros Hx;
      [reflexivity | exfalso; lra | contradiction | reflexivity].
  - intros Hal Htags.
    destruct (evaluate_method_outcomes m p Hal Htags)
      as (r & os & Er & Lo & Hos & Tr & Cr & Fr).
    rewrite H in Hos. cbn [get] in Hos.
    exists r, os. auto 10.
Qed.

End EvaluatorFacts.

(** ** Selection among tied scores *)

Section SelectionFacts.

Variable lower : str -> str.
Variable vec : Type.
Variable cosine : vec -> vec -> R.

(** C4: let position [i] of a score list hold a maximal score and be the
    first position holding it, whatever later positions tie with it.
    Then the [max(range(len(scores)), key=...)] expression selects [i];
    in [get_answer_with_source], when that list is the filtered score
    vector and the score reaches the threshold, the answer is taken from
    example [i]; and in the loop body of [evaluate_method], when that
    list is the self-excluded score vector and the score reaches the
    threshold, the tag compared with the query's tag is that of example
    [i]. *)
Theorem argmax_first_of_ties (scores : list score) (i : nat) (x : R) :
  nth_error scores i = Some (Fin x) ->
  (forall j, (j < length scores)%nat ->
     ~ score_lt (Fin x) (nth j scores NegInf)) ->
  (forall j, (j < i)%nat -> nth j scores NegInf <> Fin x) ->
  argmax scores = Ok i
  /\ (forall rnd text (p : index_payload vec) f ex,
        normalize_text lower text <> [] ->
        scores_after_filter lower cosine (normalize_text lower text) p f
        = Ok scores ->
        get (p_threshold p) 0.25 <= x ->
        nth_error (p_examples p) i = Some ex ->
        get_answer_with_source lower cosine rnd text p f
        = Ok (choose_response rnd (responses ex), Fin x,
              get (source_url ex) []))
  /\ (forall (p : index_payload vec) th idx ex st raw best best_tag own_tag,
        normalize_text lower (pattern ex) <> [] ->
        compute_scores cosine (normalize_text lower (pattern ex)) p = Ok raw ->
        set_item (map Fin raw) idx NegInf = Ok scores ->
        th <= x ->
        nth_error (p_examples p) i = Some best ->
        tag best = Some best_tag -> tag ex = Some own_tag ->
        eval_step lower cosine p th idx ex st
        = Ok {| method := method st; total := S (total st);
                correct := if str_eqb best_tag own_tag
                           then S (correct st) else correct st;
                fallbacks := fallbacks st |}).
Proof.
  intros Hi Hmax Hfirst.
  assert (Hlen : (i < length scores)%nat)
    by (apply nth_error_Some; congruence).
  assert (Hnth : nth i scores NegInf = Fin x)
    by (apply nth_error_nth_score; exact Hi).
  assert (Ha : argmax scores = Ok i).
  { apply argmax_first_maximum; [exact Hlen | |]; rewrite Hnth; assumption. }
  split; [exact Ha|]. split.
  - intros rnd text p f ex Hne Hs Hth Hex.
    rewrite (get_answer_with_source_decision lower vec cosine rnd text p f
               scores i x Hne Hs Ha Hi).
    destruct (Rlt_dec x (get (p_threshold p) 0.25)); [exfalso; lra|].
    unfold get_item. rewrite Hex. reflexivity.
  - intros p th idx ex st raw best best_tag own_tag Hne Hc Hset Hth Hex Hbt Hot.
    assert (Hraw : raw <> []) by (intros ->; discriminate).
    rewrite (eval_step_run lower vec cosine p th idx ex st raw Hne Hc Hraw).
    rewrite Hset. cbn [bind]. rewrite Ha. cbn [bind].
    unfold get_item at 1. rewrite Hi. cbn [bind].
    destruct (score_lt_dec (Fin x) (Fin th)) as [Hlt | _];
      [exfalso; simpl in Hlt; lra|].
    unfold get_item. rewrite Hex. cbn [bind]. rewrite Hbt, Hot. cbn [bind key].
    destruct (str_eqb best_tag own_tag); reflexivity.
Qed.

End SelectionFacts.

(** ** Worked runs

    The model on concrete payloads, with the case mapping [basic_lower]. *)

Example normalize_password_query :
  normalize_text basic_lower (lit "How do I reset my password?")
  = lit "do i reset my password".
Proof. vm_compute. reflexivity. Qed.

Example example_topic_strips_prefix :
  example_topic basic_lower python_example = lit "tech_docs".
Proof. vm_compute. reflexivity. Qed.

(** Three of the five query terms occur in the stored question. *)
Example answer_password_query :
  get_answer_with_source basic_lower no_cosine 0
    (lit "How do I reset my password?") boolean_payload (lit "all")
  = Ok (lit "Go to settings > security > reset.", Fin (INR 3 / INR 5), []).
Proof.
  unfold get_answer_with_source. rewrite normalize_password_query.
  cbn -[Rlt_dec INR Rdiv].
  destruct (Rlt_dec _ _) as [H | H]; [exfalso; simpl in H; lra | reflexivity].
Qed.

(** With the topic filter set, the other topic's row is masked. *)
Example answer_with_topic_filter :
  get_answer_with_source basic_lower no_cosine 0
    (lit "reset password") two_topic_payload (lit "account")
  = Ok (lit "Go to settings > security > reset.", Fin (INR 2 / INR 2), []).
Proof.
  unfold get_answer_with_source.
  replace (normalize_text basic_lower (lit "reset password"))
    with (lit "reset password") by (vm_compute; reflexivity).
  cbn -[Rlt_dec INR Rdiv].
  destruct (Rlt_dec _ _) as [H | H]; [exfalso; simpl in H; lra | reflexivity].
Qed.

Example filtered_scores_one_in_five :
  scores_after_filter basic_lower no_cosine
    (normalize_text basic_lower (lit "my cat dog bird fish"))
    boolean_payload (lit "all")
  = Ok [Fin (INR 1 / INR 5)].
Proof.
  replace (normalize_text basic_lower (lit "my cat dog bird fish"))
    with (lit "my cat dog bird fish") by (vm_compute; reflexivity).
  reflexivity.
Qed.

(** Evaluation of two rows with the same terms and the same tag: each
    query is won by the other row. *)
Example evaluate_tie_payload :
  evaluate_method basic_lower no_cosine (lit "boolean") tie_payload
  = Ok {| method := lit "boolean"; total := 2; correct := 2; fallbacks := 0 |}.
Proof.
  unfold evaluate_method.
  cbn [p_examples p_threshold tie_payload get for_enumerate].
  rewrite (eval_step_run basic_lower unit no_cosine tie_payload 0.25 0
             first_example _ [INR 2 / INR 2; INR 2 / INR 2]).
  2: vm_compute; discriminate.
  2: { replace (normalize_text basic_lower (pattern first_example))
         with (lit "reset password") by (vm_compute; reflexivity).
       reflexivity. }
  2: discriminate.
  cbn -[Rlt_dec INR Rdiv eval_step]. decide_scores.
  rewrite (eval_step_run basic_lower unit no_cosine tie_payload 0.25 1
             second_example _ [INR 2 / INR 2; INR 2 / INR 2]).
  2: vm_compute; discriminate.
  2: { replace (normalize_text basic_lower (pattern second_example))
         with (lit "password reset") by (vm_compute; reflexivity).
       reflexivity. }
  2: discriminate.
  cbn -[Rlt_dec INR Rdiv eval_step]. decide_scores.
  reflexivity.
Qed.

(** Evaluation without a stored threshold: the first query finds the
    other row at 1/2 and is correct, the second finds it at 1/5, below
    0.25, and is a fallback. *)
Example evaluate_near_miss :
  evaluate_method basic_lower no_cosine (lit "boolean") near_miss_payload
  = Ok {| method := lit "boolean"; total := 2; correct := 1; fallbacks := 1 |}.
Proof.
  unfold evaluate_method.
  cbn [p_examples p_threshold near_miss_payload get for_enumerate].
  rewrite (eval_step_run basic_lower unit no_cosine near_miss_payload 0.25 0
             short_example _ [INR 2 / INR 2; INR 1 / INR 2]).
  2: vm_compute; discriminate.
  2: { replace (normalize_text basic_lower (pattern short_example))
         with (lit "reset password") by (vm_compute; reflexivity).
       reflexivity. }
  2: discriminate.
  cbn -[Rlt_dec INR Rdiv eval_step]. decide_scores.
  rewrite (eval_step_run basic_lower unit no_cosine near_miss_payload 0.25 1
             long_example _ [INR 1 / INR 5; INR 5 / INR 5]).
  2: vm_compute; discriminate.
  2: { replace (normalize_text basic_lower (pattern long_example))
         with (lit "reset cat dog bird fish") by (vm_compute; reflexivity).
       reflexivity. }
  2: discriminate.
  cbn -[Rlt_dec INR Rdiv eval_step]. decide_scores.
  reflexivity.
Qed.

(** ** Instances of the theorems *)

Lemma score_bm25_formula_witness :
  length (score_bm25 [lit "python"] (build_bm25_index common_term_docs)) = 2%nat
  /\ nth_error (score_bm25 [lit "python"] (build_bm25_index common_term_docs)) 0
     = Some (Rsum (map (spec_bm25_term common_term_docs [lit "python"]
                          [lit "python"]) [lit "python"])).
Proof.
  destruct (score_bm25_formula common_term_docs [lit "python"]) as [L F];
    [discriminate | discriminate |].
  split; [exact L|].
  apply (F 0%nat [lit "python"] [lit "python"]).
  - reflexivity.
  - constructor; [intros [] | constructor].
  - intros t. simpl. tauto.
Defined.

(** Two rows tie at the top score; the first one answers. *)
Lemma argmax_first_of_ties_witness :
  argmax [Fin (INR 2 / INR 2); Fin (INR 2 / INR 2)] = Ok 0%nat
  /\ get_answer_with_source basic_lower no_cosine 0
       (lit "reset password") tie_payload (lit "all")
     = Ok (lit "first", Fin (INR 2 / INR 2), []).
Proof.
  destruct (argmax_first_of_ties basic_lower unit no_cosine
              [Fin (INR 2 / INR 2); Fin (INR 2 / INR 2)] 0%nat (INR 2 / INR 2))
    as (A & G & _).
  - reflexivity.
  - intros [|[|j]] Hj; simpl in *; try lra; lia.
  - intros j Hj. lia.
  - split; [exact A|].
    apply (G 0%nat (lit "reset password") tie_payload (lit "all") first_example).
    + vm_compute. discriminate.
    + replace (normalize_text basic_lower (lit "reset password"))
        with (lit "reset password") by (vm_compute; reflexivity).
      reflexivity.
    + simpl. lra.
    + reflexivity.
Defined.

Lemma score_boolean_overlap_witness :
  exists s,
    nth_error (score_boolean [lit "reset"; lit "password"; lit "reset"]
                 [[lit "reset"; lit "my"; lit "password"]]) 0 = Some s
    /\ 0 <= s <= 1
    /\ s = INR 2 / INR 2.
Proof.
  destruct (score_boolean_overlap [lit "reset"; lit "password"; lit "reset"]
              [[lit "reset"; lit "my"; lit "password"]]) as (_ & _ & H).
  destruct (H ltac:(discriminate) 0%nat [lit "reset"; lit "my"; lit "password"]
              eq_refl) as (s & E & B & F).
  exists s. split; [exact E|]. split; [exact B|].
  apply (F [lit "reset"; lit "password"] [lit "reset"; lit "password"]).
  - constructor; [intros [E' | []]; vm_compute in E'; discriminate|].
    constructor; [intros [] | constructor].
  - intros t. simpl. tauto.
  - constructor; [intros [E' | []]; vm_compute in E'; discriminate|].
    constructor; [intros [] | constructor].
  - intros t. simpl. tauto.
Defined.

Lemma compute_scores_aligned_witness :
  payload_aligned boolean_payload = true
  /\ (exists scores,
        compute_scores no_cosine (lit "reset password") boolean_payload
        = Ok scores /\ length scores = 1%nat)
  /\ map pattern (snd (prepare_corpus basic_lower account_intents))
     = [lit "reset my password"].
Proof.
  split; [reflexivity|].
  destruct (compute_scores_aligned basic_lower unit no_cosine boolean_payload
              (lit "reset password") account_intents eq_refl) as [S P].
  split; [exact S|].
  destruct (prepare_corpus basic_lower account_intents) as [corpus examples].
  destruct P as (_ & _ & _ & P). cbn [snd]. rewrite P. vm_compute. reflexivity.
Defined.

Lemma topic_filter_sound_witness :
  lit "account" <> lit "all"
  /\ exists i ex,
       nth_error (p_examples two_topic_payload) i = Some ex
       /\ example_topic basic_lower ex = lit "account"
       /\ In (lit "Go to settings > security > reset.") (responses ex)
       /\ [] = get (source_url ex) [].
Proof.
  assert (Hf : lit "account" <> lit "all") by (vm_compute; discriminate).
  split; [exact Hf|].
  destruct (topic_filter_sound basic_lower unit no_cosine 0
              (lit "reset password") two_topic_payload (lit "account") Hf)
    as (S & _).
  apply (S _ _ _ answer_with_topic_filter).
  vm_compute. discriminate.
Defined.

Lemma below_threshold_fallback_witness :
  get_answer_with_source basic_lower no_cosine 0
    (lit "my cat dog bird fish") boolean_payload (lit "all")
  = Ok (FALLBACK_MESSAGE, Fin (INR 1 / INR 5), []).
Proof.
  apply (below_threshold_fallback basic_lower unit no_cosine 0
           (lit "my cat dog bird fish") boolean_payload (lit "all")
           [Fin (INR 1 / INR 5)] 0%nat).
  - vm_compute. discriminate.
  - exact filtered_scores_one_in_five.
  - reflexivity.
  - reflexivity.
  - simpl. lra.
Defined.

(** A corpus of one row, where the only query falls back, and a corpus
    of two rows, where each query is won by the other row. *)
Lemma evaluate_method_leave_one_out_witness :
  payload_aligned boolean_payload = true
  /\ (exists r,
        evaluate_method basic_lower no_cosine (lit "boolean") boolean_payload
        = Ok r
        /\ correct r = 0%nat /\ fallbacks r = 1%nat /\ total r = 1%nat)
  /\ payload_aligned tie_payload = true
  /\ evaluate_method basic_lower no_cosine (lit "boolean") tie_payload
     = Ok {| method := lit "boolean"; total := 2; correct := 2;
             fallbacks := 0 |}
  /\ exists outcomes,
       length outcomes = 2%nat
       /\ (forall i ex, nth_error (p_examples tie_payload) i = Some ex ->
             exists o, nth_error outcomes i = Some o
               /\ spec_outcome basic_lower no_cosine tie_payload
                    (get (p_threshold tie_payload) 0.25) i ex o)
       /\ count_outcome Correct outcomes = 2%nat
       /\ count_outcome Fallback outcomes = 0%nat
       /\ count_outcome Skipped outcomes = 0%nat.
Proof.
  split; [reflexivity|]. split.
  - destruct (evaluate_method_leave_one_out basic_lower unit no_cosine
                (lit "boolean") boolean_payload eq_refl) as (_ & _ & _ & H).
    destruct (H password_example eq_refl) as (r & E & C & F & T).
    exists r. split; [exact E|]. split; [exact C|].
    assert (T1 : total r = 1%nat) by (rewrite T; vm_compute; reflexivity).
    split; [congruence | exact T1].
  - split; [reflexivity|]. split; [exact evaluate_tie_payload|].
    destruct (evaluate_method_leave_one_out basic_lower unit no_cosine
                (lit "boolean") tie_payload eq_refl) as (_ & _ & H & _).
    destruct H as (r & os & E & L & Hos & T & C & F & _).
    { intros ex [<- | [<- | []]]; discriminate. }
    rewrite evaluate_tie_payload in E. injection E as <-.
    exists os. simpl in T, C, F, L.
    split; [exact L|]. split; [exact Hos|].
    split; [congruence|]. split; [congruence|]. lia.
Defined.

(** Without a stored threshold the query that finds its best other row
    at 1/5 is a fallback in the chat and in the evaluation. *)
Lemma default_threshold_witness :
  p_threshold near_miss_payload = None
  /\ get_answer_with_source basic_lower no_cosine 0
       (lit "my cat dog bird fish") boolean_payload (lit "all")
     = get_answer_with_source basic_lower no_cosine 0
         (lit "my cat dog bird fish") (with_threshold boolean_payload 0.25)
         (lit "all")
  /\ evaluate_method basic_lower no_cosine (lit "boolean") near_miss_payload
     = Ok {| method := lit "boolean"; total := 2; correct := 1;
             fallbacks := 1 |}
  /\ exists outcomes,
       length outcomes = 2%nat
       /\ (forall i ex, nth_error (p_examples near_miss_payload) i = Some ex ->
             exists o, nth_error outcomes i = Some o
               /\ spec_outcome basic_lower no_cosine near_miss_payload 0.25
                    i ex o)
       /\ count_outcome Fallback outcomes = 1%nat
       /\ count_outcome Correct outcomes = 1%nat.
Proof.
  split; [reflexivity|]. split.
  - apply (default_threshold basic_lower unit no_cosine 0
             (lit "my cat dog bird fish") boolean_payload (lit "all")
             (lit "boolean") eq_refl).
  - split; [exact evaluate_near_miss|].
    destruct (default_threshold basic_lower unit no_cosine 0 []
                near_miss_payload (lit "all") (lit "boolean") eq_refl)
      as (_ & _ & _ & H).
    destruct H as (r & os & E & L & Hos & T & C & F).
    { reflexivity. }
    { intros ex [<- | [<- | []]]; discriminate. }
    rewrite evaluate_near_miss in E. injection E as <-.
    exists os. simpl in C, F, L.
    split; [exact L|]. split; [exact Hos|]. split; congruence.
Defined.

(** * Further properties *)

(** ** Tokens and normal forms *)

Lemma token_char_not_space (c : char) :
  is_token_char c = true -> is_space c = false.
Proof.
  intros H. destruct (is_space c) eqn:E; [|reflexivity].
  exfalso. char_class. lia.
Qed.

Lemma split_join_tokens (ts : list str) :
  (forall t, In t ts -> t <> [] /\ forall c, In c t -> is_token_char c = true) ->
  split (join [space] ts) = ts.
Proof.
  intros H. unfold split. apply runs_join; [reflexivity|].
  intros t Ht. destruct (H t Ht) as [Hne Hc]. split; [exact Hne|].
  intros c Hin. rewrite (token_char_not_space c (Hc c Hin)). reflexivity.
Qed.

Lemma join_eq_nil (sep : char) (ts : list str) :
  (forall t, In t ts -> t <> []) -> join [sep] ts = [] -> ts = [].
Proof.
  destruct ts as [|t ts]; [reflexivity|]. intros Hne.
  destruct ts as [|u ts]; simpl.
  - intros ->. exfalso. apply (Hne []); [left|]; reflexivity.
  - intros H. apply app_eq_nil in H. destruct H as [_ H]. discriminate.
Qed.

Section TextFacts.

Variable lower : str -> str.

Hypothesis lower_token_chars : forall x c,
  In c (lower x) -> is_token_char c = true -> is_lower_token_char c = true.

Lemma normalize_text_cleaned (x : str) :
  normalize_text lower x
  = join [space] (filter (fun token => negb (mem token (stopwords_for lower x)))
                         (tokenize lower x)).
Proof.
  unfold normalize_text, stopwords_for.
  destruct (tokenize lower x) as [|t ts]; [reflexivity|].
  destruct (contains_cyrillic lower x); reflexivity.
Qed.

Lemma cleaned_tokens_wf (x : str) (t : str) :
  In t (filter (fun token => negb (mem token (stopwords_for lower x)))
               (tokenize lower x)) ->
  t <> [] /\ forall c, In c t -> is_token_char c = true.
Proof.
  intros H. apply filter_In in H. destruct H as [H _].
  apply runs_spec in H. destruct H as [Hne Hc]. split; [exact Hne|].
  intros c Hin. apply (Hc c Hin).
Qed.

(** X1: Every token is non-empty and made of lower-case letters and digits
    of the token alphabet. *)
Theorem tokenize_tokens_lowercase (x t : str) :
  In t (tokenize lower x) ->
  t <> [] /\ forall c, In c t -> is_lower_token_char c = true.
Proof.
  intros H. apply runs_spec in H. destruct H as [Hne Hc]. split; [exact Hne|].
  intros c Hin. destruct (Hc c Hin) as [K I].
  apply (lower_token_chars x c I K).
Qed.

Lemma split_normalize_cleaned (x : str) :
  split (normalize_text lower x)
  = filter (fun token => negb (mem token (stopwords_for lower x))) (tokenize lower x).
Proof.
  rewrite normalize_text_cleaned. apply split_join_tokens.
  intros t. apply cleaned_tokens_wf.
Qed.

(** X2: Splitting a normal form on whitespace gives back, in order, exactly
    the tokens of the text that are not stopwords of its language; none
    of the pieces is empty or a stopword. *)
Theorem split_normalize_text (x : str) :
  split (normalize_text lower x)
  = filter (fun token => negb (mem token (stopwords_for lower x))) (tokenize lower x)
  /\ forall t, In t (split (normalize_text lower x)) ->
       t <> [] /\ mem t (stopwords_for lower x) = false.
Proof.
  split; [apply split_normalize_cleaned|].
  rewrite split_normalize_cleaned. intros t Ht.
  split; [apply (cleaned_tokens_wf x t Ht)|].
  apply filter_In in Ht. destruct Ht as [_ Ht].
  apply negb_true_iff. exact Ht.
Qed.

(** X3: The normal form is empty exactly when every token of the text is a
    stopword of its language (in particular when there is no token). *)
Theorem normalize_text_empty_iff (x : str) :
  normalize_text lower x = []
  <-> forall t, In t (tokenize lower x) -> mem t (stopwords_for lower x) = true.
Proof.
  rewrite normalize_text_cleaned. split.
  - intros H t Ht.
    apply join_eq_nil in H; [|intros u Hu; apply (cleaned_tokens_wf x u Hu)].
    destruct (mem t (stopwords_for lower x)) eqn:E; [reflexivity|].
    exfalso.
    assert (Hin : In t (filter (fun token => negb (mem token (stopwords_for lower x)))
                               (tokenize lower x)))
      by (apply filter_In; split; [exact Ht | rewrite E; reflexivity]).
    rewrite H in Hin. exact Hin.
  - intros H.
    replace (filter (fun token => negb (mem token (stopwords_for lower x)))
                    (tokenize lower x)) with (@nil str); [reflexivity|].
    symmetry. induction (tokenize lower x) as [|t ts IH]; [reflexivity|].
    simpl. rewrite (H t (or_introl eq_refl)). simpl. apply IH.
    intros u Hu. apply H. right; exact Hu.
Qed.

End TextFacts.

(** ** Method names *)

Section MethodFacts.

Variable lower : str -> str.

Hypothesis lower_fixes : forall y,
  (forall c, In c y -> is_lower_token_char c = true \/ c = space) ->
  lower y = y.

Lemma supported_method_fixed (r : str) :
  In r SUPPORTED_METHODS -> strip (lower r) = r.
Proof.
  intros [<- | [<- | [<- | [<- | []]]]];
    (rewrite lower_fixes; [reflexivity | lower_literal]).
Qed.

(** X4: [validate_method] returns the lower-cased, stripped input when
    that is one of the supported names, and then accepts its own result
    unchanged; for every other input it raises [ValueError]. *)
Theorem validate_method_spec (m : str) :
  (In (strip (lower m)) SUPPORTED_METHODS ->
   validate_method lower m = Ok (strip (lower m))
   /\ validate_method lower (strip (lower m)) = Ok (strip (lower m)))
  /\ (~ In (strip (lower m)) SUPPORTED_METHODS ->
      validate_method lower m = Raise ValueError).
Proof.
  split.
  - intros Hin.
    assert (E : validate_method lower m = Ok (strip (lower m))).
    { unfold validate_method.
      rewrite (proj2 (mem_In (strip (lower m)) SUPPORTED_METHODS) Hin).
      reflexivity. }
    split; [exact E|].
    unfold validate_method. rewrite (supported_method_fixed _ Hin).
    rewrite (proj2 (mem_In (strip (lower m)) SUPPORTED_METHODS) Hin).
    reflexivity.
  - intros Hn. unfold validate_method.
    destruct (mem (strip (lower m)) SUPPORTED_METHODS) eqn:E; [|reflexivity].
    exfalso. apply Hn, mem_In, E.
Qed.

End MethodFacts.

(** ** Sorting *)

Lemma str_leb_total (a c : str) : str_leb a c = false -> str_leb c a = true.
Proof.
  revert c. induction a as [|x a IH]; intros [|y c]; simpl; try discriminate;
    [reflexivity|].
  intros H. apply orb_false_iff in H. destruct H as [H1 H2].
  apply N.ltb_ge in H1.
  destruct (y <? x)%N eqn:E; [reflexivity|]. apply N.ltb_ge in E.
  assert (Hxy : x = y) by lia. subst y.
  rewrite N.eqb_refl in *. simpl in *. apply IH. exact H2.
Qed.

Lemma insert_sorted_perm (x : str) (l : list str) :
  Permutation (insert_sorted x l) (x :: l).
Proof.
  induction l as [|y l IH]; simpl; [reflexivity|].
  destruct (str_leb x y); [reflexivity|].
  rewrite IH. apply perm_swap.
Qed.

Lemma sorted_perm (l : list str) : Permutation (sorted l) l.
Proof.
  induction l as [|x l IH]; simpl; [reflexivity|].
  rewrite insert_sorted_perm. constructor. exact IH.
Qed.

Lemma insert_sorted_Sorted (x : str) (l : list str) :
  Sorted (fun a c => str_leb a c = true) l ->
  Sorted (fun a c => str_leb a c = true) (insert_sorted x l).
Proof.
  induction l as [|y l IH]; intros H; simpl.
  - constructor; constructor.
  - destruct (str_leb x y) eqn:E.
    + constructor; [exact H | constructor; exact E].
    + inversion H as [|? ? Hs Hh]; subst. constructor; [apply IH; exact Hs|].
      destruct l as [|z l]; simpl.
      * constructor. apply str_leb_total. exact E.
      * destruct (str_leb x z); constructor;
          [apply str_leb_total; exact E|].
        inversion Hh; subst. assumption.
Qed.

Lemma sorted_Sorted (l : list str) :
  Sorted (fun a c => str_leb a c = true) (sorted l).
Proof.
  induction l as [|x l IH]; simpl; [constructor|].
  apply insert_sorted_Sorted. exact IH.
Qed.

(** ** Topics and the chat loop *)

Section ChatFacts.

Variable lower : str -> str.
Variable vec : Type.
Variable cosine : vec -> vec -> R.

(** X5: The topics offered are in ascending order without repetition; they
    are exactly the non-empty normalised topics of the examples. *)
Theorem get_available_topics_spec (p : index_payload vec) :
  Sorted (fun a c => str_leb a c = true) (get_available_topics lower p)
  /\ NoDup (get_available_topics lower p)
  /\ forall t,
       In t (get_available_topics lower p)
       <-> t <> [] /\ exists ex, In ex (p_examples p)
                                 /\ example_topic lower ex = t.
Proof.
  unfold get_available_topics. split; [apply sorted_Sorted|]. split.
  - eapply Permutation_NoDup; [symmetry; apply sorted_perm|].
    apply NoDup_filter, set_of_NoDup.
  - intros t. split.
    + intros H. apply (Permutation_in _ (sorted_perm _)) in H.
      apply filter_In in H. destruct H as [H Hn].
      apply set_of_In, in_map_iff in H. destruct H as (ex & E & Hex).
      split; [intros ->; discriminate|]. exists ex. auto.
    + intros (Hne & ex & Hex & E).
      apply (Permutation_in _ (Permutation_sym (sorted_perm _))).
      apply filter_In. split.
      * apply set_of_In, in_map_iff. exists ex. auto.
      * destruct t; [congruence | reflexivity].
Qed.

Lemma choose_initial_topic_ok (typed : str) (p : index_payload vec) :
  topic_ok lower p (choose_initial_topic lower typed p).
Proof.
  unfold choose_initial_topic, topic_ok.
  destruct (null (lower (strip typed)) || str_eqb (lower (strip typed)) (lit "all"));
    [left; reflexivity|].
  destruct (mem _ (get_available_topics lower p)) eqn:E; simpl;
    [right; apply mem_In; exact E | left; reflexivity].
Qed.

Lemma chat_turn_ok (rnd : nat) (p : index_payload vec) (active typed : str)
  (t : turn) :
  topic_ok lower p active ->
  chat_turn lower cosine rnd p active typed = Ok t ->
  match t with
  | Stop => True
  | Next active' => topic_ok lower p active'
  | Reply active' r =>
      active' = active
      /\ get_answer_with_source lower cosine rnd (strip typed) p active = Ok r
  end.
Proof.
  intros Hok. unfold chat_turn.
  repeat match goal with
         | |- (if ?c then _ else _) = _ -> _ =>
             destruct c eqn:?;
             [try (intros E; injection E as <-; first [exact I | exact Hok])|]
         end.
  - destruct (get_item (split_once (strip typed)) 1) as [arg|e]; [|discriminate].
    cbn [bind].
    destruct (str_eqb (normalized_topic lower arg) (lit "all"));
      [intros E; injection E as <-; left; reflexivity|].
    destruct (mem (normalized_topic lower arg) (get_available_topics lower p))
      eqn:Em; intros E; injection E as <-;
      [right; apply mem_In; exact Em | exact Hok].
  - destruct (get_answer_with_source lower cosine rnd (strip typed) p active)
      as [r|e]; [|discriminate].
    cbn [bind]. intros E. injection E as <-. auto.
Qed.

Lemma chat_loop_ok (rnd : nat -> nat) (p : index_payload vec)
  (typed : list str) :
  forall active n replies,
    topic_ok lower p active ->
    chat_loop lower cosine rnd p active n typed = Ok replies ->
    forall t r, In (t, r) replies ->
      topic_ok lower p t
      /\ exists k text,
           get_answer_with_source lower cosine k text p t = Ok r.
Proof.
  induction typed as [|line typed IH]; intros active n replies Hok; simpl.
  - intros E. injection E as <-. intros t r [].
  - destruct (chat_turn lower cosine (rnd n) p active line) as [tn|e] eqn:Et;
      [|discriminate].
    cbn [bind]. pose proof (chat_turn_ok _ _ _ _ _ Hok Et) as Ht.
    destruct tn as [|active'|active' r0].
    + intros E. injection E as <-. intros t r [].
    + apply IH. exact Ht.
    + destruct Ht as [-> Hr].
      destruct (chat_loop lower cosine rnd p active (S n) typed) as [rest|e] eqn:El;
        [|discriminate].
      cbn [bind]. intros E. injection E as <-.
      intros t r [Hin | Hin].
      * injection Hin as <- <-. split; [exact Hok|]. eauto.
      * apply (IH active (S n) rest Hok El t r Hin).
Qed.

(** X6: Every reply of a chat session was computed by
    [get_answer_with_source] under a topic filter that is ["all"] or one
    of the payload's topics, whatever was typed at the topic prompt and
    in [/topic] commands. *)
Theorem run_chat_topic_filter (rnd : nat -> nat) (p : index_payload vec)
  (first : str) (typed : list str) (replies : list (str * (str * score * str))) :
  run_chat lower cosine rnd p first typed = Ok replies ->
  forall t r, In (t, r) replies ->
    topic_ok lower p t
    /\ exists k text, get_answer_with_source lower cosine k text p t = Ok r.
Proof.
  unfold run_chat. apply chat_loop_ok, choose_initial_topic_ok.
Qed.

End ChatFacts.

(** ** Boolean overlap: what the score depends on *)

Lemma filter_length_all {A} (f : A -> bool) (l : list A) :
  length (filter f l) = length l <-> forall a, In a l -> f a = true.
Proof.
  split.
  - induction l as [|a l IH]; simpl; [intros _ ? []|].
    destruct (f a) eqn:E; simpl; intros H.
    + intros c [<- | Hc]; [exact E | apply IH; [lia | exact Hc]].
    + pose proof (filter_length_le f l). lia.
  - intros H. f_equal. apply filter_all. exact H.
Qed.

Lemma filter_length_none {A} (f : A -> bool) (l : list A) :
  length (filter f l) = 0%nat <-> forall a, In a l -> f a = false.
Proof.
  induction l as [|a l IH]; simpl; [split; [intros _ ? [] | reflexivity]|].
  destruct (f a) eqn:E; simpl.
  - split; [discriminate|]. intros H.
    specialize (H a (or_introl eq_refl)). congruence.
  - rewrite IH. split.
    + intros H c [<- | Hc]; [exact E | apply H; exact Hc].
    + intros H c Hc. apply H. right; exact Hc.
Qed.

Lemma overlap_same_sets (q q' d d' : list str) :
  (forall t, In t q <-> In t q') -> (forall t, In t d <-> In t d') ->
  INR (length (intersection (set_of q) (set_of d))) / INR (length (set_of q))
  = INR (length (intersection (set_of q') (set_of d')))
    / INR (length (set_of q')).
Proof.
  intros Hq Hd. f_equal; f_equal.
  - apply NoDup_same_length;
      try (apply intersection_NoDup, set_of_NoDup).
    intros t. rewrite !intersection_In, !set_of_In, Hq, Hd. tauto.
  - apply NoDup_same_length; try apply set_of_NoDup.
    intros t. rewrite !set_of_In. apply Hq.
Qed.

(** X7: The Boolean scores depend only on which terms query and documents
    contain: order and repetition of tokens change nothing. *)
Theorem score_boolean_same_sets (q q' : list str) (docs docs' : list (list str)) :
  (forall t, In t q <-> In t q') ->
  Forall2 (fun d d' => forall t, In t d <-> In t d') docs docs' ->
  score_boolean q docs = score_boolean q' docs'.
Proof.
  intros Hq Hdocs.
  destruct q as [|t0 q0] eqn:Eq, q' as [|t0' q0'] eqn:Eq'.
  - simpl. induction Hdocs; simpl; congruence.
  - exfalso. apply (proj2 (Hq t0')). left; reflexivity.
  - exfalso. apply (proj1 (Hq t0)). left; reflexivity.
  - rewrite <- Eq, <- Eq' in *.
    replace (score_boolean q docs)
      with (map (fun d => INR (length (intersection (set_of q) (set_of d)))
                          / INR (length (set_of q))) docs)
      by (rewrite Eq; reflexivity).
    replace (score_boolean q' docs')
      with (map (fun d => INR (length (intersection (set_of q') (set_of d)))
                          / INR (length (set_of q'))) docs')
      by (rewrite Eq'; reflexivity).
    induction Hdocs as [|d d' docs docs' Hd _ IH]; simpl; [reflexivity|].
    rewrite IH. f_equal. apply overlap_same_sets; assumption.
Qed.

(** X8: For a non-empty query, a document scores 1 exactly when it contains
    every query term and 0 exactly when it contains none. *)
Theorem score_boolean_extremes (q : list str) (docs : list (list str))
  (i : nat) (d : list str) :
  q <> [] -> nth_error docs i = Some d ->
  (nth_error (score_boolean q docs) i = Some 1
   <-> forall t, In t q -> In t d)
  /\ (nth_error (score_boolean q docs) i = Some 0
      <-> forall t, In t q -> ~ In t d).
Proof.
  intros Hq Hd.
  assert (Hn : (0 < length (set_of q))%nat) by (apply set_of_nonempty, Hq).
  assert (Hn' : 0 < INR (length (set_of q))) by (apply lt_0_INR, Hn).
  assert (Hs : nth_error (score_boolean q docs) i
               = Some (INR (length (intersection (set_of q) (set_of d)))
                       / INR (length (set_of q)))).
  { destruct q as [|t0 q0]; [congruence|]. unfold score_boolean.
    rewrite nth_error_map, Hd. reflexivity. }
  rewrite Hs. unfold intersection. split.
  - transitivity (length (filter (fun x => mem x (set_of d)) (set_of q))
                  = length (set_of q)).
    + split.
      * intros E. injection E as E. apply INR_eq.
        apply Rmult_eq_reg_r with (/ INR (length (set_of q)));
          [|apply Rinv_neq_0_compat; lra].
        unfold Rdiv in E. rewrite E, Rinv_r; lra.
      * intros E. rewrite E. f_equal. unfold Rdiv. apply Rinv_r. lra.
    + rewrite filter_length_all. split.
      * intros H t Ht. apply set_of_In, mem_In, H, set_of_In, Ht.
      * intros H t Ht. apply mem_In, set_of_In, H, set_of_In, Ht.
  - transitivity (length (filter (fun x => mem x (set_of d)) (set_of q)) = 0%nat).
    + split.
      * intros E. injection E as E. apply INR_eq.
        apply Rmult_eq_reg_r with (/ INR (length (set_of q)));
          [|apply Rinv_neq_0_compat; lra].
        unfold Rdiv in E. rewrite E. simpl. lra.
      * intros E. rewrite E. f_equal. simpl. unfold Rdiv. lra.
    + rewrite filter_length_none. split.
      * intros H t Ht Hin.
        assert (Hm : mem t (set_of d) = true) by (apply mem_In, set_of_In, Hin).
        rewrite (H t (proj2 (set_of_In q t) Ht)) in Hm. discriminate.
      * intros H t Ht. destruct (mem t (set_of d)) eqn:E; [|reflexivity].
        exfalso. apply (H t); [apply set_of_In, Ht | apply set_of_In, mem_In, E].
Qed.

(** ** BM25: the built index and the scores *)

Lemma common_terms_NoDup (q d : list str) : NoDup (common_terms q d).
Proof. apply intersection_NoDup, set_of_NoDup. Qed.

Lemma common_terms_In (q d : list str) (t : str) :
  In t (common_terms q d) <-> In t q /\ In t d.
Proof. unfold common_terms. rewrite intersection_In, !set_of_In. tauto. Qed.

(** The scores on a built index, in closed form. *)
Lemma score_bm25_built (docs : list (list str)) (q : list str) :
  docs <> [] ->
  score_bm25 q (build_bm25_index docs)
  = map (fun d => Rsum (map (spec_bm25_term docs q d) (common_terms q d))) docs.
Proof.
  intros Hne.
  destruct (build_bm25_index_fields docs Hne) as (Htf & Hlen & Havg & _).
  set (ix := build_bm25_index docs) in *.
  unfold score_bm25. rewrite Htf, Hlen, Havg.
  destruct q as [|t0 q0] eqn:Eq.
  { rewrite map_map. apply map_ext. intros d. simpl. lra. }
  rewrite <- Eq in *.
  destruct (Req_dec_T (spec_avg_len docs) 0) as [Hz | Hnz].
  - rewrite map_map. apply map_ext_in. intros d Hd.
    rewrite (spec_avg_len_zero docs d Hne Hz Hd).
    unfold common_terms, intersection.
    replace (filter (fun x => mem x (set_of [])) (set_of q)) with (@nil str);
      [simpl; lra|].
    symmetry. induction (set_of q) as [|u l IH]; [reflexivity | exact IH].
  - replace (combine (map counter_of docs) (map (@length str) docs))
      with (map (fun d => (counter_of d, length d)) docs)
      by (clear; induction docs; simpl; congruence).
    rewrite map_map. apply map_ext_in. intros d Hd. cbn [fst snd].
    rewrite (bm25_doc_score ix d q (common_terms q d)
               (common_terms_NoDup q d) (common_terms_In q d)).
    f_equal. apply map_ext_in. intros t Ht.
    apply bm25_contribution_spec;
      [exact Hne | exact Hd | apply (common_terms_In q d t), Ht].
Qed.

Lemma spec_avg_len_pos (docs : list (list str)) (d : list str) (t : str) :
  In d docs -> In t d -> 0 < spec_avg_len docs.
Proof.
  intros Hd Ht. unfold spec_avg_len.
  assert (Hn : (0 < length docs)%nat) by (destruct docs; [destruct Hd | simpl; lia]).
  assert (Hs : (0 < list_sum (map (@length str) docs))%nat).
  { clear Hn. induction docs as [|e docs IH]; [destruct Hd|].
    simpl. destruct Hd as [-> | Hd].
    - destruct d as [|c d']; [destruct Ht | simpl; lia].
    - specialize (IH Hd). lia. }
  apply Rdiv_lt_0_compat; apply lt_0_INR; assumption.
Qed.

Lemma spec_bm25_term_pos (docs : list (list str)) (q d : list str) (t : str) :
  In d docs -> In t d -> In t q -> 0 < spec_bm25_term docs q d t.
Proof.
  intros Hd Ht Hq. unfold spec_bm25_term.
  assert (Hidf : 0 < spec_idf docs t)
    by (rewrite <- idf_value_spec; apply idf_value_pos, spec_df_le).
  assert (Htf : 1 <= INR (count_occ str_eq_dec d t)).
  { change 1 with (INR 1). apply le_INR.
    apply (count_occ_In str_eq_dec) in Ht. lia. }
  assert (Hqf : 1 <= INR (count_occ str_eq_dec q t)).
  { change 1 with (INR 1). apply le_INR.
    apply (count_occ_In str_eq_dec) in Hq. lia. }
  assert (Hlen : 0 <= INR (length d) / spec_avg_len docs).
  { apply Rmult_le_pos; [apply pos_INR|].
    left. apply Rinv_0_lt_compat, (spec_avg_len_pos docs d t Hd Ht). }
  apply Rmult_lt_0_compat; [|lra].
  apply Rdiv_lt_0_compat; [apply Rmult_lt_0_compat; lra | lra].
Qed.

Lemma Rsum_nonneg (l : list R) : (forall x, In x l -> 0 <= x) -> 0 <= Rsum l.
Proof.
  induction l as [|x l IH]; simpl; intros H; [lra|].
  pose proof (H x (or_introl eq_refl)).
  assert (0 <= Rsum l) by (apply IH; intros y Hy; apply H; right; exact Hy).
  lra.
Qed.

Lemma Rsum_pos (l : list R) :
  l <> [] -> (forall x, In x l -> 0 < x) -> 0 < Rsum l.
Proof.
  destruct l as [|x l]; [congruence|]. intros _ H. simpl.
  pose proof (H x (or_introl eq_refl)).
  assert (0 <= Rsum l)
    by (apply Rsum_nonneg; intros y Hy; left; apply H; right; exact Hy).
  lra.
Qed.

Lemma score_bm25_built_nonneg (docs : list (list str)) (q : list str) (s : R) :
  docs <> [] -> In s (score_bm25 q (build_bm25_index docs)) -> 0 <= s.
Proof.
  intros Hne Hs. rewrite (score_bm25_built docs q Hne) in Hs.
  apply in_map_iff in Hs. destruct Hs as (d & <- & Hd).
  apply Rsum_nonneg. intros x Hx. apply in_map_iff in Hx.
  destruct Hx as (t & <- & Ht). apply common_terms_In in Ht.
  destruct Ht as [Hq Ht]. left. apply spec_bm25_term_pos; assumption.
Qed.

(** X10: On a built index no score is negative, and a document's score is
    positive exactly when the document shares a term with the query. *)
Theorem score_bm25_sign (docs : list (list str)) (q : list str) (i : nat)
  (d : list str) :
  nth_error docs i = Some d ->
  exists s,
    nth_error (score_bm25 q (build_bm25_index docs)) i = Some s
    /\ 0 <= s
    /\ (0 < s <-> exists t, In t q /\ In t d).
Proof.
  intros Hd.
  assert (Hne : docs <> []) by (intros ->; destruct i; discriminate).
  pose proof (nth_error_In _ _ Hd) as Hin.
  rewrite (score_bm25_built docs q Hne), nth_error_map, Hd. cbn [option_map].
  eexists. split; [reflexivity|].
  assert (Hpos : forall x, In x (map (spec_bm25_term docs q d) (common_terms q d))
                           -> 0 < x).
  { intros x Hx. apply in_map_iff in Hx. destruct Hx as (t & <- & Ht).
    apply common_terms_In in Ht. destruct Ht as [Hq Ht].
    apply spec_bm25_term_pos; assumption. }
  split; [apply Rsum_nonneg; intros x Hx; left; apply Hpos, Hx|].
  split.
  - intros Hs. destruct (common_terms q d) as [|t l] eqn:E; [simpl in Hs; lra|].
    exists t. apply common_terms_In. rewrite E. left; reflexivity.
  - intros (t & Hq & Ht). apply Rsum_pos; [|exact Hpos].
    intros E. apply map_eq_nil in E.
    assert (H : In t (common_terms q d)) by (apply common_terms_In; auto).
    rewrite E in H. exact H.
Qed.

(** X11: A query term that occurs in no document does not change any score. *)
Theorem score_bm25_unknown_term (docs : list (list str)) (q : list str)
  (t : str) :
  (forall d, In d docs -> ~ In t d) ->
  score_bm25 (t :: q) (build_bm25_index docs)
  = score_bm25 q (build_bm25_index docs).
Proof.
  intros Hnot. destruct docs as [|d0 docs0] eqn:E.
  { unfold score_bm25, build_bm25_index. simpl.
    destruct q; destruct (Req_dec_T 0.0 0); reflexivity. }
  rewrite <- E in *. assert (Hne : docs <> []) by (rewrite E; discriminate).
  rewrite !(score_bm25_built docs _ Hne). apply map_ext_in. intros d Hd.
  assert (Hc : common_terms (t :: q) d = common_terms q d).
  { unfold common_terms, intersection, set_of. simpl.
    assert (Hm : mem t (nodup str_eq_dec d) = false).
    { destruct (mem t (nodup str_eq_dec d)) eqn:Em; [|reflexivity].
      exfalso. apply (Hnot d Hd). apply (nodup_In str_eq_dec), mem_In, Em. }
    destruct (in_dec str_eq_dec t q); [reflexivity|].
    simpl. rewrite Hm. reflexivity. }
  rewrite Hc. f_equal. apply map_ext_in. intros u Hu.
  unfold spec_bm25_term. simpl count_occ.
  destruct (str_eq_dec t u) as [-> | Hne']; [|reflexivity].
  exfalso. apply (Hnot d Hd). apply (common_terms_In q d u), Hu.
Qed.

Lemma idf_lookup (docs : list (list str)) (d : list str) (t : str) :
  In d docs -> In t d ->
  dict_get (idf (build_bm25_index docs)) t 0.0
  = idf_value (length docs) (spec_df docs t).
Proof.
  intros Hd Ht.
  assert (Hne : docs <> []) by (intros ->; exact Hd).
  destruct (build_bm25_index_fields docs Hne) as (_ & _ & _ & _ & _ & Hidf).
  rewrite Hidf, (dict_get_map (idf_value (length docs))).
  assert (Hmem : counter_mem t (doc_freq_of docs []) = true).
  { apply counter_mem_keys, doc_freq_keys. right. exists d. auto. }
  rewrite Hmem, doc_freq_get. reflexivity.
Qed.

Lemma idf_value_decreasing (n f1 f2 : nat) :
  (f1 < f2)%nat -> (f2 <= n)%nat -> idf_value n f2 < idf_value n f1.
Proof.
  intros H12 H2n. unfold idf_value. rewrite !minus_IZR, <- !INR_IZR_INZ.
  assert (H0 : 0 <= INR f1) by apply pos_INR.
  assert (H1 : INR f1 < INR f2) by (apply lt_INR; exact H12).
  assert (H2 : INR f2 <= INR n) by (apply le_INR; exact H2n).
  assert (Ha : 0 < (INR n - INR f2 + 0.5) / (INR f2 + 0.5))
    by (apply Rdiv_lt_0_compat; lra).
  apply ln_increasing; [lra|].
  apply Rplus_lt_compat_l.
  apply Rmult_lt_reg_r with (INR f2 + 0.5); [lra|].
  apply Rmult_lt_reg_r with (INR f1 + 0.5); [lra|].
  unfold Rdiv.
  replace ((INR n - INR f2 + 0.5) * / (INR f2 + 0.5) * (INR f2 + 0.5)
           * (INR f1 + 0.5))
    with ((INR n - INR f2 + 0.5) * (INR f1 + 0.5)) by (field; lra).
  replace ((INR n - INR f1 + 0.5) * / (INR f1 + 0.5) * (INR f2 + 0.5)
           * (INR f1 + 0.5))
    with ((INR n - INR f1 + 0.5) * (INR f2 + 0.5)) by (field; lra).
  nra.
Qed.

(** X12: Of two terms of the corpus, the one found in fewer documents has the
    larger idf. *)
Theorem idf_rarer_term_weighs_more (docs : list (list str))
  (d1 d2 : list str) (t1 t2 : str) :
  In d1 docs -> In t1 d1 -> In d2 docs -> In t2 d2 ->
  (spec_df docs t1 < spec_df docs t2)%nat ->
  dict_get (idf (build_bm25_index docs)) t2 0.0
  < dict_get (idf (build_bm25_index docs)) t1 0.0.
Proof.
  intros Hd1 Ht1 Hd2 Ht2 Hlt.
  rewrite (idf_lookup docs d1 t1 Hd1 Ht1), (idf_lookup docs d2 t2 Hd2 Ht2).
  apply idf_value_decreasing; [exact Hlt | apply spec_df_le].
Qed.

(** X13: What the built index stores: per document its token count and its
    term counts, the mean length, and an idf entry for exactly the terms
    that occur in some document, each once. *)
Theorem build_bm25_index_contents (docs : list (list str)) :
  let ix := build_bm25_index docs in
  length (doc_term_freqs ix) = length docs
  /\ length (doc_lengths ix) = length docs
  /\ (forall i d, nth_error docs i = Some d ->
        nth_error (doc_lengths ix) i = Some (length d)
        /\ exists tf, nth_error (doc_term_freqs ix) i = Some tf
             /\ forall t, counter_get tf t = count_occ str_eq_dec d t
                          /\ (counter_mem t tf = true <-> In t d))
  /\ avg_doc_length ix * INR (length docs)
     = INR (list_sum (map (@length str) docs))
  /\ NoDup (keys (idf ix))
  /\ forall t, In t (keys (idf ix)) <-> exists d, In d docs /\ In t d.
Proof.
  destruct docs as [|d0 docs0] eqn:E.
  { cbn. split; [reflexivity|]. split; [reflexivity|].
    split; [intros [|i] d; discriminate|]. split; [lra|].
    split; [constructor|].
    intros t. split; [intros [] | intros (d & [] & _)]. }
  rewrite <- E. assert (Hne : docs <> []) by (rewrite E; discriminate).
  destruct (build_bm25_index_fields docs Hne)
    as (Htf & Hlen & Havg & _ & _ & Hidf).
  cbn zeta. rewrite Htf, Hlen, Havg, Hidf.
  assert (Hkeys : keys (map (fun tf : str * nat =>
                               (fst tf, idf_value (length docs) (snd tf)))
                            (doc_freq_of docs []))
                  = keys (doc_freq_of docs [])).
  { unfold keys. rewrite map_map. reflexivity. }
  rewrite Hkeys.
  split; [apply length_map|]. split; [apply length_map|]. split; [|split; [|split]].
  - intros i d Hd. rewrite !nth_error_map, Hd. cbn [option_map].
    split; [reflexivity|]. eexists. split; [reflexivity|].
    intros t. split; [apply counter_of_get|].
    rewrite counter_of_mem. apply mem_In.
  - unfold spec_avg_len, Rdiv. rewrite Rmult_assoc, Rinv_l; [lra|].
    apply not_0_INR. destruct docs; [congruence | discriminate].
  - apply doc_freq_NoDup. constructor.
  - intros t. rewrite doc_freq_keys. simpl. tauto.
Qed.

(** ** The matcher: errors, gating and the best score *)

Lemma score_boolean_range (q : list str) (docs : list (list str)) (s : R) :
  In s (score_boolean q docs) -> 0 <= s <= 1.
Proof.
  destruct q as [|t0 q0]; unfold score_boolean.
  - intros H. apply in_map_iff in H. destruct H as (d & <- & _). lra.
  - intros H. apply in_map_iff in H. destruct H as (d & <- & _).
    apply ratio_bounds; [apply intersection_length|].
    apply set_of_nonempty. discriminate.
Qed.

Section AnswerFacts.

Variable lower : str -> str.
Variable vec : Type.
Variable cosine : vec -> vec -> R.

Lemma mask_loop_cases (f : str) (exs : list example) :
  forall k scores scores',
    for_enumerate (mask_step lower f) k exs scores = Ok scores' ->
    forall j s, nth_error scores' j = Some s ->
                s = NegInf \/ nth_error scores j = Some s.
Proof.
  induction exs as [|e exs IH]; intros k scores scores'; simpl.
  - intros E. injection E as <-. auto.
  - destruct (mask_step lower f k e scores) as [s1|err] eqn:E1; simpl;
      [|discriminate].
    intros E2 j s Hj. destruct (IH (S k) s1 scores' E2 j s Hj) as [-> | H1];
      [left; reflexivity|].
    unfold mask_step in E1.
    destruct (negb (str_eqb _ f)); [|injection E1 as <-; right; exact H1].
    destruct (set_item_spec _ _ _ _ E1) as (_ & V & O).
    destruct (Nat.eq_dec j k) as [-> | Hjk]; [left; congruence|].
    right. rewrite <- (O j Hjk). exact H1.
Qed.

Lemma mask_loop_noop (f : str) (exs : list example) :
  (forall ex, In ex exs -> example_topic lower ex = f) ->
  forall k scores, for_enumerate (mask_step lower f) k exs scores = Ok scores.
Proof.
  induction exs as [|e exs IH]; intros H k scores; simpl; [reflexivity|].
  unfold mask_step at 1. fold (example_topic lower e).
  rewrite (H e (or_introl eq_refl)), str_eqb_refl. simpl.
  apply IH. intros ex Hex. apply H. right; exact Hex.
Qed.

(** A finite filtered score is the computed score at the same position. *)
Lemma scores_after_filter_finite (q : str) (p : index_payload vec) (f : str)
  (scores : list score) :
  scores_after_filter lower cosine q p f = Ok scores ->
  exists raw, compute_scores cosine q p = Ok raw
    /\ forall j x, nth_error scores j = Some (Fin x) -> nth_error raw j = Some x.
Proof.
  unfold scores_after_filter.
  destruct (compute_scores cosine q p) as [raw|e]; [|discriminate].
  cbn [bind]. intros H. exists raw. split; [reflexivity|].
  assert (Hmap : forall j x, nth_error (map Fin raw) j = Some (Fin x) ->
                             nth_error raw j = Some x).
  { intros j x. rewrite nth_error_map.
    destruct (nth_error raw j); simpl; congruence. }
  destruct (negb (str_eqb f (lit "all"))).
  - intros j x Hj.
    destruct (mask_loop_cases _ _ _ _ _ H j (Fin x) Hj) as [E | E];
      [discriminate | apply Hmap, E].
  - injection H as <-. exact Hmap.
Qed.

(** The ways [get_answer_with_source] returns. *)
Lemma get_answer_with_source_cases (rnd : nat) (text : str)
  (p : index_payload vec) (f : str) (ans : str) (s : score) (url : str) :
  get_answer_with_source lower cosine rnd text p f = Ok (ans, s, url) ->
  (ans = FALLBACK_MESSAGE /\ s = Fin 0.0 /\ url = [])
  \/ exists scores best_idx x,
       scores_after_filter lower cosine (normalize_text lower text) p f
       = Ok scores
       /\ argmax scores = Ok best_idx
       /\ nth_error scores best_idx = Some (Fin x)
       /\ s = Fin x
       /\ ((x < get (p_threshold p) 0.25 /\ ans = FALLBACK_MESSAGE /\ url = [])
           \/ (get (p_threshold p) 0.25 <= x
               /\ exists ex, nth_error (p_examples p) best_idx = Some ex
                    /\ ans = choose_response rnd (responses ex)
                    /\ url = get (source_url ex) [])).
Proof.
  intros Hrun.
  destruct (get_answer_with_source_inv _ _ _ _ _ _ _ _ Hrun)
    as [[_ E] | (Hne & scores & Hs)];
    [injection E as -> -> ->; left; auto|].
  rewrite (get_answer_with_source_scores lower vec cosine rnd text p f scores
             Hne Hs) in Hrun.
  destruct (null scores) eqn:En;
    [injection Hrun as <- <- <-; left; auto|].
  assert (Hnn : scores <> []) by (intros ->; discriminate).
  destruct (py_max_spec scores Hnn) as (top & Et & Hin & _).
  rewrite Et in Hrun. cbn [bind] in Hrun.
  destruct top as [|y]; cbn [is_neg_inf] in Hrun;
    [injection Hrun as <- <- <-; left; auto|].
  destruct (argmax_spec scores Hnn) as (r & Ea & Hr & M & _).
  rewrite Ea in Hrun. cbn [bind] in Hrun.
  destruct (get_item_ok scores r Hr) as (bs & Eb & Hb).
  rewrite Eb in Hrun. cbn [bind] in Hrun.
  assert (Hfin : exists x, bs = Fin x).
  { apply In_nth_error in Hin. destruct Hin as [j Hj].
    assert (Hjl : (j < length scores)%nat) by (apply nth_error_Some; congruence).
    specialize (M j Hjl).
    rewrite (nth_error_nth_score _ _ _ Hb), (nth_error_nth_score _ _ _ Hj) in M.
    apply (score_lt_neg_inf _ _ M). }
  destruct Hfin as [x ->]. right. exists scores, r, x.
  split; [exact Hs|]. split; [exact Ea|]. split; [exact Hb|].
  destruct (score_lt_dec (Fin x) (Fin (get (p_threshold p) 0.25))) as [Hlt | Hge].
  - injection Hrun as <- <- <-. split; [reflexivity|]. left. auto.
  - destruct (get_item (p_examples p) r) as [best|e] eqn:Ee; [|discriminate].
    cbn [bind] in Hrun. injection Hrun as <- <- <-.
    split; [reflexivity|]. right. simpl in Hge. split; [lra|].
    exists best. split; [apply get_item_inv, Ee | auto].
Qed.

(** X14: On an aligned payload [get_answer_with_source] raises no exception,
    whatever the text and the topic filter. *)
Theorem get_answer_with_source_total (rnd : nat) (text : str)
  (p : index_payload vec) (f : str) :
  payload_aligned p = true ->
  exists r, get_answer_with_source lower cosine rnd text p f = Ok r.
Proof.
  intros Hal.
  destruct (normalize_text lower text) as [|c n] eqn:En.
  { unfold get_answer_with_source. rewrite En. eexists; reflexivity. }
  destruct (compute_scores_length vec cosine (c :: n) p Hal) as (raw & Er & Lr).
  assert (Hex : exists scores,
            scores_after_filter lower cosine (normalize_text lower text) p f
            = Ok scores /\ length scores = length (p_examples p)).
  { unfold scores_after_filter. rewrite En, Er. cbn [bind].
    destruct (negb (str_eqb f (lit "all"))).
    - destruct (mask_loop_ok lower f (p_examples p) 0 (map Fin raw))
        as [scores Es]; [rewrite length_map; lia|].
      exists scores. split; [exact Es|].
      destruct (mask_loop _ _ _ _ _ _ Es) as (L & _).
      rewrite L, length_map. exact Lr.
    - exists (map Fin raw). split; [reflexivity|]. rewrite length_map. exact Lr. }
  destruct Hex as (scores & Hs & Ls).
  rewrite (get_answer_with_source_scores lower vec cosine rnd text p f scores);
    [|congruence | exact Hs].
  destruct (null scores) eqn:Enull; [eexists; reflexivity|].
  assert (Hnn : scores <> []) by (intros ->; discriminate).
  destruct (py_max_spec scores Hnn) as (top & Et & _).
  rewrite Et. cbn [bind].
  destruct (is_neg_inf top); [eexists; reflexivity|].
  destruct (argmax_spec scores Hnn) as (r & Ea & Hr & _).
  rewrite Ea. cbn [bind].
  destruct (get_item_ok scores r Hr) as (bs & Eb & _).
  rewrite Eb. cbn [bind].
  destruct (score_lt_dec bs (Fin (get (p_threshold p) 0.25)));
    [eexists; reflexivity|].
  destruct (get_item_ok (p_examples p) r) as (best & Ee & _); [lia|].
  rewrite Ee. cbn [bind]. eexists; reflexivity.
Qed.

(** X15: An answer other than the fallback message is only given for a score
    that reaches the threshold, and that score is the computed score of
    the example the answer is taken from. *)
Theorem answer_reaches_threshold (rnd : nat) (text : str)
  (p : index_payload vec) (f : str) (ans : str) (s : score) (url : str) :
  get_answer_with_source lower cosine rnd text p f = Ok (ans, s, url) ->
  ans <> FALLBACK_MESSAGE ->
  exists x i ex raw,
    s = Fin x /\ get (p_threshold p) 0.25 <= x
    /\ compute_scores cosine (normalize_text lower text) p = Ok raw
    /\ nth_error raw i = Some x
    /\ nth_error (p_examples p) i = Some ex
    /\ In ans (responses ex).
Proof.
  intros Hrun Hans.
  destruct (get_answer_with_source_cases _ _ _ _ _ _ _ Hrun)
    as [(E & _) | (scores & r & x & Hs & Ea & Hb & -> & [(_ & E & _) | (Hth & ex & Hex & Ha & _)])];
    try congruence.
  destruct (scores_after_filter_finite _ _ _ _ Hs) as (raw & Er & Hraw).
  exists x, r, ex, raw. split; [reflexivity|]. split; [exact Hth|].
  split; [exact Er|]. split; [apply Hraw, Hb|]. split; [exact Hex|].
  rewrite Ha. apply choose_response_In. rewrite <- Ha. exact Hans.
Qed.

(** X16: When some example survives the topic filter, the score returned is
    the largest of the filtered scores. *)
Theorem answer_score_is_best (rnd : nat) (text : str) (p : index_payload vec)
  (f : str) (scores : list score) (y : R) (ans : str) (s : score) (url : str) :
  normalize_text lower text <> [] ->
  scores_after_filter lower cosine (normalize_text lower text) p f = Ok scores ->
  In (Fin y) scores ->
  get_answer_with_source lower cosine rnd text p f = Ok (ans, s, url) ->
  In s scores /\ forall s', In s' scores -> ~ score_lt s s'.
Proof.
  intros Hne Hs Hy Hrun.
  assert (Hnn : scores <> []) by (intros ->; destruct Hy).
  destruct (argmax_spec scores Hnn) as (r & Ea & Hr & M & _).
  destruct (get_item_ok scores r Hr) as (bs & _ & Hb).
  assert (Hfin : exists x, bs = Fin x).
  { apply In_nth_error in Hy. destruct Hy as [j Hj].
    assert (Hjl : (j < length scores)%nat) by (apply nth_error_Some; congruence).
    specialize (M j Hjl).
    rewrite (nth_error_nth_score _ _ _ Hb), (nth_error_nth_score _ _ _ Hj) in M.
    apply (score_lt_neg_inf _ _ M). }
  destruct Hfin as [x ->].
  rewrite (get_answer_with_source_decision lower vec cosine rnd text p f scores
             r x Hne Hs Ea Hb) in Hrun.
  assert (Es : s = Fin x).
  { destruct (Rlt_dec x (get (p_threshold p) 0.25));
      [congruence|].
    destruct (get_item (p_examples p) r); [|discriminate].
    cbn [bind] in Hrun. congruence. }
  subst s. split; [apply (nth_error_In _ _ Hb)|].
  intros s' Hs'. apply In_nth_error in Hs'. destruct Hs' as [j Hj].
  assert (Hjl : (j < length scores)%nat) by (apply nth_error_Some; congruence).
  specialize (M j Hjl).
  rewrite (nth_error_nth_score _ _ _ Hb), (nth_error_nth_score _ _ _ Hj) in M.
  exact M.
Qed.

(** X17: A topic filter that every example satisfies gives the same result as
    no filter. *)
Theorem topic_filter_of_every_example (rnd : nat) (text : str)
  (p : index_payload vec) (f : str) :
  (forall ex, In ex (p_examples p) -> example_topic lower ex = f) ->
  get_answer_with_source lower cosine rnd text p f
  = get_answer_with_source lower cosine rnd text p (lit "all").
Proof.
  intros H. unfold get_answer_with_source.
  destruct (null (normalize_text lower text)); [reflexivity|].
  destruct (compute_scores cosine (normalize_text lower text) p) as [raw|e];
    [|reflexivity].
  cbn [bind]. rewrite str_eqb_refl. cbn [negb].
  destruct (negb (str_eqb f (lit "all"))); [|reflexivity].
  rewrite (mask_loop_noop f (p_examples p) H). reflexivity.
Qed.

(** X18: Under the Boolean method the score returned lies in [0, 1]; so with
    a threshold above 1 every answer is the fallback message. *)
Theorem boolean_answer_score_range (rnd : nat) (text : str)
  (p : index_payload vec) (f : str) (ans : str) (s : score) (url : str) :
  p_method p = Some (lit "boolean") ->
  get_answer_with_source lower cosine rnd text p f = Ok (ans, s, url) ->
  (exists x, s = Fin x /\ 0 <= x <= 1)
  /\ (1 < get (p_threshold p) 0.25 -> ans = FALLBACK_MESSAGE).
Proof.
  intros Hm Hrun.
  assert (Hraw : forall q raw x, compute_scores cosine q p = Ok raw ->
                                 In x raw -> 0 <= x <= 1).
  { intros q raw x. unfold compute_scores. rewrite Hm.
    change (mem (get (Some (lit "boolean")) (lit "tfidf"))
                [lit "tfidf"; lit "bow"]) with false.
    change (str_eqb (get (Some (lit "boolean")) (lit "tfidf")) (lit "bm25"))
      with false.
    cbv iota. destruct (p_doc_tokens p) as [docs|]; [|discriminate].
    cbn [key bind]. intros E. injection E as <-. apply score_boolean_range. }
  destruct (get_answer_with_source_cases _ _ _ _ _ _ _ Hrun)
    as [(Ea & -> & _) | (scores & r & x & Hs & _ & Hb & -> & Hcase)].
  - split; [exists 0.0; split; [reflexivity | lra] | intros _; exact Ea].
  - destruct (scores_after_filter_finite _ _ _ _ Hs) as (raw & Er & Hfin).
    pose proof (Hraw _ raw x Er (nth_error_In _ _ (Hfin r x Hb))) as Hx.
    split; [exists x; auto|].
    intros Hth. destruct Hcase as [(_ & E & _) | (Hge & _)]; [exact E | lra].
Qed.

End AnswerFacts.

(** ** The evaluator: rates and special corpora *)

Lemma rate_bounds (a c n : nat) :
  (a + c <= n)%nat -> (0 < n)%nat ->
  0 <= INR a / INR n /\ 0 <= INR c / INR n
  /\ INR a / INR n + INR c / INR n <= 1.
Proof.
  intros H Hn.
  destruct (ratio_bounds a n ltac:(lia) Hn) as [Ha _].
  destruct (ratio_bounds c n ltac:(lia) Hn) as [Hc _].
  destruct (ratio_bounds (a + c) n H Hn) as [_ Hac].
  rewrite plus_INR in Hac. unfold Rdiv in *.
  rewrite Rmult_plus_distr_r in Hac. auto.
Qed.

Section EvaluationFacts.

Variable lower : str -> str.
Variable vec : Type.
Variable cosine : vec -> vec -> R.

(** X19: On an aligned payload whose examples carry tags, the evaluation
    completes and its two rates are fractions that sum to at most 1; with
    nothing to attempt both are 0. *)
Theorem evaluate_method_rates (m : str) (p : index_payload vec) :
  payload_aligned p = true ->
  (forall ex, In ex (p_examples p) -> tag ex <> None) ->
  exists r, evaluate_method lower cosine m p = Ok r
    /\ 0 <= accuracy r /\ 0 <= fallback_rate r
    /\ accuracy r + fallback_rate r <= 1
    /\ (total r = 0%nat -> accuracy r = 0 /\ fallback_rate r = 0).
Proof.
  intros Hal Htags. unfold evaluate_method.
  destruct (eval_loop lower vec cosine p (get (p_threshold p) 0.25)
              (p_examples p) Hal Htags 0
              {| method := m; total := 0; correct := 0; fallbacks := 0 |})
    as (r & Er & _ & _ & Cr); [lia | exact Htags|].
  exists r. split; [exact Er|]. simpl in Cr. unfold accuracy, fallback_rate.
  destruct (total r) as [|n] eqn:Et; cbn [Nat.eqb].
  - repeat split; lra.
  - destruct (rate_bounds (correct r) (fallbacks r) (S n)) as (Ha & Hf & Hs);
      [lia | lia|].
    repeat split; try assumption; discriminate.
Qed.

(** One pass of the loop adds nothing or one to [correct]. *)
Lemma eval_step_correct_cases (p : index_payload vec) (th : R) (idx : nat)
  (ex : example) (st st' : EvalResult) :
  eval_step lower cosine p th idx ex st = Ok st' ->
  correct st' = correct st \/ correct st' = S (correct st).
Proof.
  unfold eval_step.
  destruct (null (normalize_text lower (pattern ex)));
    [intros E; injection E as <-; auto|].
  destruct (compute_scores cosine (normalize_text lower (pattern ex)) p)
    as [raw|e]; [|discriminate].
  cbn [bind]. destruct (null raw); [intros E; injection E as <-; auto|].
  destruct (set_item (map Fin raw) idx NegInf) as [scores|e]; [|discriminate].
  cbn [bind]. destruct (argmax scores) as [best|e]; [|discriminate].
  cbn [bind]. destruct (get_item scores best) as [bs|e]; [|discriminate].
  cbn [bind]. destruct (score_lt_dec bs (Fin th));
    [intros E; injection E as <-; auto|].
  destruct (get_item (p_examples p) best) as [bex|e]; [|discriminate].
  cbn [bind]. destruct (tag bex); [|discriminate].
  destruct (tag ex); [|discriminate].
  cbn [bind key].
  destruct (str_eqb _ _); intros E; injection E as <-; simpl; auto.
Qed.

Lemma eval_loop_distinct_tags (p : index_payload vec) (th : R)
  (exs : list example) :
  (forall i j ei ej, nth_error (p_examples p) i = Some ei ->
                     nth_error (p_examples p) j = Some ej ->
                     i <> j -> tag ei <> tag ej) ->
  forall k st r,
    (forall i ex, nth_error exs i = Some ex ->
                  nth_error (p_examples p) (k + i) = Some ex) ->
    for_enumerate (eval_step lower cosine p th) k exs st = Ok r ->
    correct r = correct st.
Proof.
  intros Hdist. induction exs as [|ex exs IH]; intros k st r Hsuf; simpl.
  - intros E. injection E as <-. reflexivity.
  - destruct (eval_step lower cosine p th k ex st) as [st1|e] eqn:E1;
      [|discriminate].
    cbn [bind]. intros E2.
    rewrite (IH (S k) st1 r); [|intros i e He | exact E2].
    2:{ replace (S k + i)%nat with (k + S i)%nat by lia.
        apply (Hsuf (S i) e He). }
    destruct (eval_step_correct_cases _ _ _ _ _ _ E1) as [E | E]; [exact E|].
    exfalso.
    destruct (eval_step_correct lower vec cosine p th k ex st st1 E1 E)
      as (raw & j & exj & t & y & _ & Hj & _ & _ & Hexj & Htj & Hte).
    pose proof (Hsuf 0%nat ex eq_refl) as Hk. rewrite Nat.add_0_r in Hk.
    apply (Hdist j k exj ex Hexj Hk Hj). congruence.
Qed.

(** X20: When no two examples share a tag, leave-one-out evaluation counts no
    query as correct. *)
Theorem evaluate_method_distinct_tags (m : str) (p : index_payload vec) :
  payload_aligned p = true ->
  (forall ex, In ex (p_examples p) -> tag ex <> None) ->
  (forall i j ei ej, nth_error (p_examples p) i = Some ei ->
                     nth_error (p_examples p) j = Some ej ->
                     i <> j -> tag ei <> tag ej) ->
  exists r, evaluate_method lower cosine m p = Ok r /\ correct r = 0%nat.
Proof.
  intros Hal Htags Hdist. unfold evaluate_method.
  destruct (eval_loop lower vec cosine p (get (p_threshold p) 0.25)
              (p_examples p) Hal Htags 0
              {| method := m; total := 0; correct := 0; fallbacks := 0 |})
    as (r & Er & _); [lia | exact Htags|].
  exists r. split; [exact Er|].
  apply (eval_loop_distinct_tags p (get (p_threshold p) 0.25) (p_examples p)
           Hdist 0
           {| method := m; total := 0; correct := 0; fallbacks := 0 |} r);
    [auto | exact Er].
Qed.

(** One pass of the loop when every computed score is below the
    threshold: the query, if attempted, is a fallback. *)
Lemma eval_step_below (p : index_payload vec) (th : R) (idx : nat)
  (ex : example) (st : EvalResult) :
  payload_aligned p = true ->
  (idx < length (p_examples p))%nat ->
  (forall q raw x, compute_scores cosine q p = Ok raw -> In x raw -> x < th) ->
  exists st', eval_step lower cosine p th idx ex st = Ok st'
    /\ method st' = method st
    /\ correct st' = correct st
    /\ (fallbacks st' + total st = fallbacks st + total st')%nat.
Proof.
  intros Hal Hidx Hlow.
  destruct (normalize_text lower (pattern ex)) as [|c n] eqn:En.
  { exists st. rewrite eval_step_skip by exact En. repeat split; lia. }
  destruct (compute_scores_length vec cosine (c :: n) p Hal) as (raw & Ec & Lr).
  assert (Hraw : raw <> []) by (intros ->; simpl in Lr; lia).
  rewrite (eval_step_run lower vec cosine p th idx ex st raw);
    [|rewrite En; discriminate | rewrite En; exact Ec | exact Hraw].
  destruct (set_item_ok (map Fin raw) idx NegInf) as [scores Es];
    [rewrite length_map; lia|].
  rewrite Es. cbn [bind].
  destruct (set_item_spec _ _ _ _ Es) as (Ls & Hself & Hother).
  rewrite length_map in Ls.
  destruct (argmax_spec scores) as (best & Ea & Hb & _);
    [intros ->; simpl in Ls; lia|].
  rewrite Ea. cbn [bind].
  destruct (get_item_ok scores best Hb) as (bs & Eb & Hbs).
  rewrite Eb. cbn [bind].
  assert (Hlt : score_lt bs (Fin th)).
  { destruct (Nat.eq_dec best idx) as [-> | Hne].
    - rewrite Hself in Hbs. injection Hbs as <-. exact I.
    - rewrite (Hother best Hne), nth_error_map in Hbs.
      destruct (nth_error raw best) as [x|] eqn:Ex; [|discriminate].
      injection Hbs as <-. simpl.
      apply (Hlow (c :: n) raw x Ec (nth_error_In _ _ Ex)). }
  destruct (score_lt_dec bs (Fin th)); [|contradiction].
  eexists. split; [reflexivity|]. simpl. repeat split; lia.
Qed.

Lemma eval_loop_below (p : index_payload vec) (th : R) (exs : list example) :
  payload_aligned p = true ->
  (forall q raw x, compute_scores cosine q p = Ok raw -> In x raw -> x < th) ->
  forall k st,
    (k + length exs <= length (p_examples p))%nat ->
    exists r, for_enumerate (eval_step lower cosine p th) k exs st = Ok r
      /\ correct r = correct st
      /\ (fallbacks r + total st = fallbacks st + total r)%nat.
Proof.
  intros Hal Hlow. induction exs as [|ex exs IH]; intros k st Hk.
  - exists st. simpl. repeat split; lia.
  - simpl in Hk. cbn [for_enumerate].
    destruct (eval_step_below p th k ex st Hal) as (st1 & E1 & _ & C1 & F1);
      [lia | exact Hlow|].
    rewrite E1. cbn [bind].
    destruct (IH (S k) st1) as (r & Er & Cr & Fr); [lia|].
    exists r. split; [exact Er|]. split; lia.
Qed.

(** X21: Under the Boolean method with a threshold above 1, evaluation counts
    every attempted query as a fallback and none as correct. *)
Theorem evaluate_method_boolean_high_threshold (m : str)
  (p : index_payload vec) :
  payload_aligned p = true ->
  p_method p = Some (lit "boolean") ->
  1 < get (p_threshold p) 0.25 ->
  exists r, evaluate_method lower cosine m p = Ok r
    /\ correct r = 0%nat /\ fallbacks r = total r.
Proof.
  intros Hal Hm Hth. unfold evaluate_method.
  destruct (eval_loop_below p (get (p_threshold p) 0.25) (p_examples p) Hal)
    with (k := 0%nat)
         (st := {| method := m; total := 0; correct := 0; fallbacks := 0 |})
    as (r & Er & Cr & Fr); [|lia|].
  - intros q raw x. unfold compute_scores. rewrite Hm.
    change (mem (get (Some (lit "boolean")) (lit "tfidf"))
                [lit "tfidf"; lit "bow"]) with false.
    change (str_eqb (get (Some (lit "boolean")) (lit "tfidf")) (lit "bm25"))
      with false.
    cbv iota. destruct (p_doc_tokens p) as [docs|]; [|discriminate].
    cbn [key bind]. intros E Hx. injection E as <-.
    pose proof (score_boolean_range _ _ _ Hx). lra.
  - exists r. split; [exact Er|]. simpl in Cr, Fr. split; lia.
Qed.

End EvaluationFacts.

(** ** Loading the FAQ tables *)

Lemma lstrip_head (s : str) :
  match lstrip s with
  | [] => True
  | c :: _ => is_space c = false
  end.
Proof.
  induction s as [|c s IH]; simpl; [exact I|].
  destruct (is_space c) eqn:E; [exact IH | exact E].
Qed.

Lemma lstrip_snoc (s : str) (c : char) :
  is_space c = false -> lstrip (s ++ [c]) = lstrip s ++ [c].
Proof.
  intros Hc. induction s as [|x s IH]; simpl; [rewrite Hc; reflexivity|].
  destruct (is_space x); [exact IH | reflexivity].
Qed.

(** A stripped text is empty or has no whitespace at either end. *)
Lemma strip_ends (s : str) :
  strip s = []
  \/ exists c r, strip s = c :: r /\ is_space c = false
       /\ exists e r', rev (strip s) = e :: r' /\ is_space e = false.
Proof.
  unfold strip. pose proof (lstrip_head s) as Hh.
  destruct (lstrip s) as [|c t]; [left; reflexivity|]. right.
  assert (E : lstrip (rev (c :: t)) = lstrip (rev t) ++ [c])
    by (simpl; apply lstrip_snoc, Hh).
  rewrite E, rev_unit.
  exists c, (rev (lstrip (rev t))). split; [reflexivity|]. split; [exact Hh|].
  pose proof (lstrip_head (rev t)) as Ht.
  simpl rev. rewrite rev_involutive.
  destruct (lstrip (rev t)) as [|e r']; simpl; eauto.
Qed.

Lemma strip_strip (s : str) : strip (strip s) = strip s.
Proof.
  destruct (strip_ends s) as [E | (c & r & E & Hc & e & r' & Er & He)].
  - rewrite E. reflexivity.
  - rewrite E in *. unfold strip at 1. simpl lstrip. rewrite Hc.
    rewrite Er. simpl lstrip. rewrite He, <- Er. apply rev_involutive.
Qed.

Lemma load_row_fold (csv_file : list csv_row) (rows : list qa_row) :
  fold_left load_row csv_file rows
  = rows ++ fold_left load_row csv_file [].
Proof.
  revert rows. induction csv_file as [|r f IH]; intros rows; simpl.
  - rewrite app_nil_r. reflexivity.
  - rewrite IH, (IH (load_row [] r)). unfold load_row.
    destruct (null _ || null _); [reflexivity|].
    rewrite <- app_assoc. reflexivity.
Qed.

(** A row that [load_row] appends. *)
Lemma load_row_In (csv_file : list csv_row) (row : qa_row) :
  In row (fold_left load_row csv_file []) ->
  exists r, In r csv_file /\ load_row [] r = [row].
Proof.
  induction csv_file as [|r f IH]; simpl; [intros []|].
  rewrite load_row_fold. intros H. apply in_app_or in H. destruct H as [H | H].
  - exists r. split; [left; reflexivity|].
    unfold load_row in *. destruct (null _ || null _); [destruct H|].
    simpl in H. destruct H as [<- | []]. reflexivity.
  - destruct (IH H) as (r' & Hr & E). exists r'. split; [right; exact Hr | exact E].
Qed.

Lemma load_csv_qa_rows_In (csv_files : list (list csv_row)) (row : qa_row) :
  In row (load_csv_qa_rows csv_files) ->
  exists f r, In f csv_files /\ In r f /\ load_row [] r = [row].
Proof.
  unfold load_csv_qa_rows.
  assert (G : forall acc,
            In row (fold_left (fun rows f => fold_left load_row f rows)
                              csv_files acc) ->
            In row acc
            \/ exists f r, In f csv_files /\ In r f /\ load_row [] r = [row]).
  { induction csv_files as [|f fs IH]; intros acc; simpl; [auto|].
    intros H. destruct (IH _ H) as [H' | (f' & r & Hf & Hr & E)].
    - rewrite load_row_fold in H'. apply in_app_or in H'.
      destruct H' as [H' | H']; [left; exact H'|].
      destruct (load_row_In _ _ H') as (r & Hr & E).
      right. exists f, r. auto.
    - right. exists f', r. auto. }
  intros H. destruct (G [] H) as [[] | H']. exact H'.
Qed.

(** X22: Every row loaded from the FAQ tables has a question, an answer and a
    topic that are not empty, and no field of it starts or ends with
    whitespace. *)
Theorem load_csv_qa_rows_from_sources_clean
  (sources : list (list (list csv_row))) (row : qa_row) :
  In row (load_csv_qa_rows_from_sources sources) ->
  question row <> [] /\ answer row <> [] /\ topic row <> []
  /\ strip (question row) = question row
  /\ strip (answer row) = answer row
  /\ strip (topic row) = topic row
  /\ strip (row_source_url row) = row_source_url row.
Proof.
  unfold load_csv_qa_rows_from_sources.
  assert (G : forall acc,
            In row (fold_left (fun rows source => rows ++ load_csv_qa_rows source)
                              sources acc) ->
            In row acc \/ exists r, load_row [] r = [row]).
  { induction sources as [|src ss IH]; intros acc; simpl; [auto|].
    intros H. destruct (IH _ H) as [H' | H']; [|right; exact H'].
    apply in_app_or in H'. destruct H' as [H' | H']; [left; exact H'|].
    destruct (load_csv_qa_rows_In _ _ H') as (f & r & _ & _ & E).
    right. exists r. exact E. }
  intros H. destruct (G [] H) as [[] | (r & E)].
  unfold load_row in E.
  destruct (null (strip (cell_str (c_question r) []))) eqn:Eq;
    [discriminate|].
  destruct (null (strip (cell_str (c_answer r) []))) eqn:Ea;
    [discriminate|].
  simpl in E. injection E as <-. cbn [question answer topic row_source_url].
  split; [intros Z; rewrite Z in Eq; discriminate|].
  split; [intros Z; rewrite Z in Ea; discriminate|].
  destruct (null (strip (cell_str (c_topic r) (lit "general")))) eqn:Et.
  - split; [discriminate|].
    split; [apply strip_strip|]. split; [apply strip_strip|].
    split; [vm_compute; reflexivity | apply strip_strip].
  - split; [intros Z; rewrite Z in Et; discriminate|].
    repeat split; apply strip_strip.
Qed.

(** ** Corpus preparation and training *)

Lemma filter_nil_iff {A} (f : A -> bool) (l : list A) :
  filter f l = [] <-> forall a, In a l -> f a = false.
Proof. rewrite <- filter_length_none. apply iff_sym, length_zero_iff_nil. Qed.

Lemma score_boolean_self (d : list str) (docs : list (list str)) (i : nat) :
  d <> [] -> nth_error docs i = Some d ->
  nth_error (score_boolean d docs) i = Some 1.
Proof.
  intros Hne Hd. destruct d as [|t0 d0] eqn:E; [congruence|].
  rewrite <- E in *. replace (score_boolean d docs)
    with (map (fun doc => INR (length (intersection (set_of d) (set_of doc)))
                          / INR (length (set_of d))) docs)
    by (rewrite E; reflexivity).
  rewrite nth_error_map, Hd. cbn [option_map]. f_equal.
  assert (Hl : length (intersection (set_of d) (set_of d)) = length (set_of d)).
  { apply filter_length_all. intros t Ht. apply mem_In. exact Ht. }
  rewrite Hl. unfold Rdiv. apply Rinv_r.
  apply not_0_INR. pose proof (set_of_nonempty d Hne). lia.
Qed.

Section TrainingFacts.

Variable lower : str -> str.
Variable vec : Type.
Variable cosine : vec -> vec -> R.
Variable fit_tfidf : list str -> result ((str -> vec) * list vec).
Variable fit_bow : list str -> result ((str -> vec) * list vec).

Lemma prepare_corpus_from_csv_rows_eq (rows : list qa_row) :
  prepare_corpus_from_csv_rows lower rows
  = (map (fun ex => normalize_text lower (pattern ex))
         (map csv_example
              (filter (fun row => usable lower (question row)) rows)),
     map csv_example (filter (fun row => usable lower (question row)) rows)).
Proof.
  unfold prepare_corpus_from_csv_rows.
  assert (H : forall acc : list str * list example,
            fold_left
              (fun acc row =>
                 corpus_add lower (lit "web_" ++ topic row) [answer row]
                   (Some (row_source_url row)) acc (question row))
              rows acc
            = (fst acc
               ++ map (fun ex => normalize_text lower (pattern ex))
                    (map csv_example
                       (filter (fun row => usable lower (question row)) rows)),
               snd acc
               ++ map csv_example
                    (filter (fun row => usable lower (question row)) rows))).
  { induction rows as [|row rows IH]; intros [c e].
    - simpl. rewrite !app_nil_r. reflexivity.
    - cbn [fold_left filter]. rewrite IH. unfold corpus_add, usable.
      destruct (null (normalize_text lower (question row)));
        cbn [negb fst snd map]; [reflexivity|].
      rewrite <- !app_assoc. reflexivity. }
  apply (H ([], [])).
Qed.

(** X23: [prepare_corpus_from_csv_rows] keeps, in order, exactly the rows
    whose question has a non-empty normal form; a kept row becomes an
    example tagged [web_] plus its topic, with its answer as the only
    response and its source URL, and the corpus holds the normal form of
    each kept question at the same position. *)
Theorem prepare_corpus_from_csv_rows_spec (rows : list qa_row) :
  let kept := filter (fun row => usable lower (question row)) rows in
  snd (prepare_corpus_from_csv_rows lower rows) = map csv_example kept
  /\ fst (prepare_corpus_from_csv_rows lower rows)
     = map (fun row => normalize_text lower (question row)) kept
  /\ forall c, In c (fst (prepare_corpus_from_csv_rows lower rows)) -> c <> [].
Proof.
  cbn zeta. rewrite prepare_corpus_from_csv_rows_eq. cbn [fst snd].
  rewrite map_map. split; [reflexivity|]. split; [reflexivity|].
  intros c Hc. apply in_map_iff in Hc. destruct Hc as (row & <- & Hrow).
  apply filter_In in Hrow. destruct Hrow as [_ Hu]. unfold usable in Hu.
  cbn [csv_example pattern].
  destruct (normalize_text lower (question row)); discriminate.
Qed.

Lemma prepare_corpus_patterns (intents : option (list intent)) :
  map pattern (snd (prepare_corpus lower intents))
  = filter (usable lower) (all_patterns intents).
Proof.
  rewrite prepare_corpus_eq. cbn [snd]. unfold all_patterns.
  rewrite filter_flat_map, map_flat_map.
  apply flat_map_ext. intros it. unfold intent_examples.
  rewrite map_map. simpl. apply map_id.
Qed.

Lemma training_corpus_examples (intents : option (list intent))
  (rows : list qa_row) :
  training_corpus lower intents rows
  = map (fun ex => normalize_text lower (pattern ex))
        (training_examples lower intents rows).
Proof.
  unfold training_corpus, training_examples.
  rewrite prepare_corpus_eq, prepare_corpus_from_csv_rows_eq. cbn [fst snd].
  rewrite map_app. reflexivity.
Qed.

Lemma training_corpus_nonempty_entries (intents : option (list intent))
  (rows : list qa_row) (c : str) :
  In c (training_corpus lower intents rows) -> c <> [].
Proof.
  unfold training_corpus.
  rewrite prepare_corpus_eq, prepare_corpus_from_csv_rows_eq. cbn [fst snd].
  rewrite in_app_iff, !in_map_iff.
  intros [(ex & <- & Hex) | (ex & <- & Hex)].
  - apply in_flat_map in Hex. destruct Hex as (it & _ & Hex).
    unfold intent_examples in Hex. apply in_map_iff in Hex.
    destruct Hex as (pat & <- & Hpat). apply filter_In in Hpat.
    destruct Hpat as [_ Hu]. unfold usable in Hu. simpl.
    destruct (normalize_text lower pat); discriminate.
  - apply in_map_iff in Hex. destruct Hex as (row & <- & Hrow).
    apply filter_In in Hrow. destruct Hrow as [_ Hu]. unfold usable in Hu.
    simpl. destruct (normalize_text lower (question row)); discriminate.
Qed.

(** What a successful training run returns. *)
Lemma train_payload_inv (method_ : str) (threshold : R)
  (intents : option (list intent)) (rows : list qa_row)
  (p : index_payload vec) :
  train_payload lower fit_tfidf fit_bow method_ threshold intents rows = Ok p ->
  let corpus := training_corpus lower intents rows in
  corpus <> []
  /\ p_examples p = training_examples lower intents rows
  /\ p_threshold p = Some threshold
  /\ exists m, p_method p = Some m /\ In m SUPPORTED_METHODS
       /\ validate_method lower method_ = Ok m
       /\ (m = lit "tfidf" ->
           exists vm, fit_tfidf corpus = Ok vm
             /\ p_vectorizer p = Some (fst vm) /\ p_matrix p = Some (snd vm))
       /\ (m = lit "bow" ->
           exists vm, fit_bow corpus = Ok vm
             /\ p_vectorizer p = Some (fst vm) /\ p_matrix p = Some (snd vm))
       /\ (m = lit "bm25" ->
           p_bm25_index p = Some (build_bm25_index (map split corpus))
           /\ p_doc_tokens p = Some (map split corpus))
       /\ (m = lit "boolean" -> p_doc_tokens p = Some (map split corpus)).
Proof.
  unfold train_payload. fold (training_corpus lower intents rows).
  fold (training_examples lower intents rows).
  destruct (validate_method lower method_) as [m|e] eqn:Ev; [|discriminate].
  cbn [bind].
  assert (Hin : In m SUPPORTED_METHODS).
  { unfold validate_method in Ev.
    destruct (mem (strip (lower method_)) SUPPORTED_METHODS) eqn:Em;
      [|discriminate].
    injection Ev as <-. apply mem_In. exact Em. }
  destruct (null (training_corpus lower intents rows)) eqn:En; [discriminate|].
  assert (Hne : training_corpus lower intents rows <> [])
    by (intros E; rewrite E in En; discriminate).
  assert (Hd : forall a c : string, str_eqb (lit a) (lit c) = false ->
                                    lit a = lit c -> False).
  { intros a c Hf E. rewrite E, str_eqb_refl in Hf. discriminate. }
  destruct Hin as [<- | [<- | [<- | [<- | []]]]];
    repeat match goal with
           | |- context [str_eqb (lit ?a) (lit ?c)] =>
               let v := eval vm_compute in (str_eqb (lit a) (lit c)) in
               change (str_eqb (lit a) (lit c)) with v
           end;
    cbv iota.
  - destruct (fit_tfidf (training_corpus lower intents rows)) as [vm|e] eqn:Ef;
      [|discriminate].
    cbn [bind]. intros E. injection E as <-. cbn zeta.
    split; [exact Hne|]. split; [reflexivity|]. split; [reflexivity|].
    eexists. split; [reflexivity|]. split; [simpl; tauto|].
    split; [reflexivity|].
    split; [intros _; exists vm; auto|].
    split; [intros E; exfalso; revert E; apply Hd; vm_compute; reflexivity|].
    split; intros E; exfalso; revert E; apply Hd; vm_compute; reflexivity.
  - destruct (fit_bow (training_corpus lower intents rows)) as [vm|e] eqn:Ef;
      [|discriminate].
    cbn [bind]. intros E. injection E as <-. cbn zeta.
    split; [exact Hne|]. split; [reflexivity|]. split; [reflexivity|].
    eexists. split; [reflexivity|]. split; [simpl; tauto|].
    split; [reflexivity|].
    split; [intros E; exfalso; revert E; apply Hd; vm_compute; reflexivity|].
    split; [intros _; exists vm; auto|].
    split; intros E; exfalso; revert E; apply Hd; vm_compute; reflexivity.
  - intros E. injection E as <-. cbn zeta.
    split; [exact Hne|]. split; [reflexivity|]. split; [reflexivity|].
    eexists. split; [reflexivity|]. split; [simpl; tauto|].
    split; [reflexivity|].
    split; [intros E; exfalso; revert E; apply Hd; vm_compute; reflexivity|].
    split; [intros E; exfalso; revert E; apply Hd; vm_compute; reflexivity|].
    split; [intros _; split; reflexivity|].
    intros E; exfalso; revert E; apply Hd; vm_compute; reflexivity.
  - intros E. injection E as <-. cbn zeta.
    split; [exact Hne|]. split; [reflexivity|]. split; [reflexivity|].
    eexists. split; [reflexivity|]. split; [simpl; tauto|].
    split; [reflexivity|].
    split; [intros E; exfalso; revert E; apply Hd; vm_compute; reflexivity|].
    split; [intros E; exfalso; revert E; apply Hd; vm_compute; reflexivity|].
    split; [intros E; exfalso; revert E; apply Hd; vm_compute; reflexivity|].
    intros _. reflexivity.
Qed.

Lemma trained_aligned (method_ : str) (threshold : R)
  (intents : option (list intent)) (rows : list qa_row)
  (p : index_payload vec) :
  (forall corpus vm, fit_tfidf corpus = Ok vm ->
                     length (snd vm) = length corpus) ->
  (forall corpus vm, fit_bow corpus = Ok vm ->
                     length (snd vm) = length corpus) ->
  train_payload lower fit_tfidf fit_bow method_ threshold intents rows = Ok p ->
  payload_aligned p = true.
Proof.
  intros Htfidf Hbow Htrain.
  destruct (train_payload_inv _ _ _ _ _ Htrain)
    as (Hne & Hex & Hth & m & Hm & Hin & _ & Ht & Hb & Hbm & Hbo).
  assert (Hlen : length (training_corpus lower intents rows)
                 = length (p_examples p)).
  { rewrite Hex, training_corpus_examples. apply length_map. }
  unfold payload_aligned. rewrite Hm. cbn [get].
  destruct Hin as [<- | [<- | [<- | [<- | []]]]].
  - destruct (Ht eq_refl) as (vm & Ef & Hv & HM). rewrite Hv, HM.
    change (mem (lit "tfidf") [lit "tfidf"; lit "bow"]) with true.
    cbv iota. apply Nat.eqb_eq. rewrite (Htfidf _ _ Ef). exact Hlen.
  - destruct (Hb eq_refl) as (vm & Ef & Hv & HM). rewrite Hv, HM.
    change (mem (lit "bow") [lit "tfidf"; lit "bow"]) with true.
    cbv iota. apply Nat.eqb_eq. rewrite (Hbow _ _ Ef). exact Hlen.
  - destruct (Hbm eq_refl) as [Hi _]. rewrite Hi.
    change (mem (lit "bm25") [lit "tfidf"; lit "bow"]) with false.
    change (str_eqb (lit "bm25") (lit "bm25")) with true.
    cbv iota.
    assert (Hd : map split (training_corpus lower intents rows) <> [])
      by (intros E; apply map_eq_nil in E; contradiction).
    destruct (build_bm25_index_fields _ Hd) as (H1 & H2 & _).
    rewrite H1, H2, !length_map, Hlen, Nat.eqb_refl. reflexivity.
  - rewrite (Hbo eq_refl).
    change (mem (lit "boolean") [lit "tfidf"; lit "bow"]) with false.
    change (str_eqb (lit "boolean") (lit "bm25")) with false.
    cbv iota. apply Nat.eqb_eq. rewrite length_map. exact Hlen.
Qed.

(** X24: A successful training run returns an aligned payload, provided the
    two scikit-learn vectorisers, when they succeed, return one matrix
    row per document; the payload holds a supported method name, the
    threshold given and at least one example. *)
Theorem train_payload_aligned (method_ : str) (threshold : R)
  (intents : option (list intent)) (rows : list qa_row)
  (p : index_payload vec) :
  (forall corpus vm, fit_tfidf corpus = Ok vm ->
                     length (snd vm) = length corpus) ->
  (forall corpus vm, fit_bow corpus = Ok vm ->
                     length (snd vm) = length corpus) ->
  train_payload lower fit_tfidf fit_bow method_ threshold intents rows = Ok p ->
  payload_aligned p = true
  /\ p_threshold p = Some threshold
  /\ p_examples p <> []
  /\ exists m, p_method p = Some m /\ In m SUPPORTED_METHODS.
Proof.
  intros Htfidf Hbow Htrain.
  split; [apply (trained_aligned _ _ _ _ _ Htfidf Hbow Htrain)|].
  destruct (train_payload_inv _ _ _ _ _ Htrain)
    as (Hne & Hex & Hth & m & Hm & Hin & _).
  split; [exact Hth|]. split; [|exists m; auto].
  rewrite Hex. intros E. apply Hne.
  rewrite training_corpus_examples, E. reflexivity.
Qed.

(** The training corpus is empty exactly when no pattern and no question
    has a non-empty normal form. *)
Lemma training_corpus_empty_iff (intents : option (list intent))
  (rows : list qa_row) :
  training_corpus lower intents rows = []
  <-> (forall pat, In pat (all_patterns intents) ->
                   normalize_text lower pat = [])
      /\ forall row, In row rows -> normalize_text lower (question row) = [].
Proof.
  unfold training_corpus. rewrite prepare_corpus_from_csv_rows_eq.
  rewrite (surjective_pairing (prepare_corpus lower intents)) at 1.
  rewrite prepare_corpus_eq at 1. cbn [fst snd].
  assert (Hu : forall x, usable lower x = false <-> normalize_text lower x = []).
  { intros x. unfold usable. destruct (normalize_text lower x); simpl;
      split; congruence. }
  split.
  - intros E. apply app_eq_nil in E. destruct E as [E1 E2].
    apply map_eq_nil in E1. apply map_eq_nil, map_eq_nil in E2.
    split.
    + intros pat Hpat. apply Hu.
      assert (Hf : filter (usable lower) (all_patterns intents) = []).
      { rewrite <- prepare_corpus_patterns, prepare_corpus_eq. cbn [snd].
        rewrite E1. reflexivity. }
      apply (proj1 (filter_nil_iff _ _) Hf pat Hpat).
    + intros row Hrow. apply Hu.
      apply (proj1 (filter_nil_iff _ _) E2 row Hrow).
  - intros [H1 H2].
    assert (Hf : filter (usable lower) (all_patterns intents) = [])
      by (apply filter_nil_iff; intros pat Hpat; apply Hu, H1, Hpat).
    rewrite <- prepare_corpus_patterns, prepare_corpus_eq in Hf.
    cbn [snd] in Hf. apply map_eq_nil in Hf. rewrite Hf.
    assert (Hg : filter (fun row => usable lower (question row)) rows = [])
      by (apply filter_nil_iff; intros row Hrow; apply Hu, H2, Hrow).
    rewrite Hg. reflexivity.
Qed.

(** X25: the errors of training, on an intents file whose intents all
    carry their [tag].  An unsupported method name raises [ValueError];
    so does a supported one when no pattern and no question has a
    non-empty normal form.  Otherwise training for the BM25 and the
    Boolean method succeeds, and training for TF-IDF or bag-of-words
    fails exactly when the scikit-learn [fit_transform] call fails on the
    corpus, with the exception of that call. *)
Theorem train_payload_errors (method_ : str) (threshold : R)
  (intents : option (list intent)) (rows : list qa_row) :
  let run :=
    train_payload lower fit_tfidf fit_bow method_ threshold intents rows in
  let m := strip (lower method_) in
  let corpus := training_corpus lower intents rows in
  let no_text :=
    (forall pat, In pat (all_patterns intents) -> normalize_text lower pat = [])
    /\ (forall row, In row rows -> normalize_text lower (question row) = []) in
  (~ In m SUPPORTED_METHODS -> run = Raise ValueError)
  /\ (In m SUPPORTED_METHODS -> no_text -> run = Raise ValueError)
  /\ (~ no_text ->
      (m = lit "bm25" \/ m = lit "boolean" -> exists p, run = Ok p)
      /\ (m = lit "tfidf" ->
          forall e, run = Raise e <-> fit_tfidf corpus = Raise e)
      /\ (m = lit "bow" ->
          forall e, run = Raise e <-> fit_bow corpus = Raise e)).
Proof.
  cbv zeta.
  pose proof (training_corpus_empty_iff intents rows) as Hcorpus.
  unfold train_payload. fold (training_corpus lower intents rows).
  fold (training_examples lower intents rows).
  unfold validate_method.
  split; [|split].
  - intros Hn.
    destruct (mem (strip (lower method_)) SUPPORTED_METHODS) eqn:Em;
      [exfalso; apply Hn, mem_In, Em | reflexivity].
  - intros Hin Hno.
    rewrite (proj2 (mem_In _ _) Hin). cbn [negb bind].
    rewrite (proj2 Hcorpus Hno). reflexivity.
  - intros Hno.
    assert (Hnn : null (training_corpus lower intents rows) = false).
    { destruct (training_corpus lower intents rows) eqn:E; [|reflexivity].
      exfalso. apply Hno, Hcorpus. reflexivity. }
    split; [|split].
    + intros [Em | Em]; rewrite Em;
        [change (mem (lit "bm25") SUPPORTED_METHODS) with true
        |change (mem (lit "boolean") SUPPORTED_METHODS) with true];
        cbn [negb bind]; rewrite Hnn;
        repeat match goal with
               | |- context [str_eqb (lit ?a) (lit ?c)] =>
                   let v := eval vm_compute in (str_eqb (lit a) (lit c)) in
                   change (str_eqb (lit a) (lit c)) with v
               end;
        cbv iota; eexists; reflexivity.
    + intros Em e. rewrite Em.
      change (mem (lit "tfidf") SUPPORTED_METHODS) with true.
      cbn [negb bind]. rewrite Hnn, str_eqb_refl.
      destruct (fit_tfidf (training_corpus lower intents rows)); cbn [bind];
        split; intros E; congruence.
    + intros Em e. rewrite Em.
      change (mem (lit "bow") SUPPORTED_METHODS) with true.
      cbn [negb bind]. rewrite Hnn.
      change (str_eqb (lit "bow") (lit "tfidf")) with false.
      rewrite str_eqb_refl. cbv iota.
      destruct (fit_bow (training_corpus lower intents rows)); cbn [bind];
        split; intros E; congruence.
Qed.

Lemma trained_boolean_own_score (method_ : str) (threshold : R)
  (intents : option (list intent)) (rows : list qa_row)
  (p : index_payload vec) (i : nat) (ex : example) :
  train_payload lower fit_tfidf fit_bow method_ threshold intents rows = Ok p ->
  p_method p = Some (lit "boolean") ->
  nth_error (p_examples p) i = Some ex ->
  normalize_text lower (pattern ex) <> []
  /\ exists raw,
       compute_scores cosine (normalize_text lower (pattern ex)) p = Ok raw
       /\ length raw = length (p_examples p)
       /\ nth_error raw i = Some 1
       /\ forall x, In x raw -> 0 <= x <= 1.
Proof.
  intros Htrain Hm Hex.
  destruct (train_payload_inv _ _ _ _ _ Htrain)
    as (_ & Hexs & _ & m & Hm' & _ & _ & _ & _ & _ & Hbo).
  rewrite Hm in Hm'. injection Hm' as <-. specialize (Hbo eq_refl).
  assert (Hc : normalize_text lower (pattern ex) <> []).
  { apply (training_corpus_nonempty_entries intents rows).
    rewrite training_corpus_examples, <- Hexs. apply in_map_iff.
    exists ex. split; [reflexivity | apply (nth_error_In _ _ Hex)]. }
  split; [exact Hc|].
  unfold compute_scores. rewrite Hm, Hbo.
  change (mem (get (Some (lit "boolean")) (lit "tfidf"))
              [lit "tfidf"; lit "bow"]) with false.
  change (str_eqb (get (Some (lit "boolean")) (lit "tfidf")) (lit "bm25"))
    with false.
  cbv iota. cbn [key bind]. eexists. split; [reflexivity|].
  rewrite training_corpus_examples, <- Hexs.
  split; [rewrite score_boolean_length, !length_map; reflexivity|].
  split; [|intros x; apply score_boolean_range].
  apply score_boolean_self.
  - rewrite split_normalize_cleaned. intros E. apply Hc.
    rewrite normalize_text_cleaned, E. reflexivity.
  - rewrite !nth_error_map, Hex. reflexivity.
Qed.

(** X26: On a payload trained for the Boolean method, a stored pattern asked
    verbatim gives its own row the score 1, the highest a Boolean score
    can be; asked with no topic filter, the score returned is 1. *)
Theorem trained_boolean_verbatim_query (rnd : nat) (method_ : str)
  (threshold : R) (intents : option (list intent)) (rows : list qa_row)
  (p : index_payload vec) (i : nat) (ex : example) :
  train_payload lower fit_tfidf fit_bow method_ threshold intents rows = Ok p ->
  p_method p = Some (lit "boolean") ->
  nth_error (p_examples p) i = Some ex ->
  (exists raw,
     compute_scores cosine (normalize_text lower (pattern ex)) p = Ok raw
     /\ nth_error raw i = Some 1)
  /\ exists ans url,
       get_answer_with_source lower cosine rnd (pattern ex) p (lit "all")
       = Ok (ans, Fin 1, url).
Proof.
  intros Htrain Hm Hex.
  destruct (trained_boolean_own_score _ _ _ _ _ _ _ Htrain Hm Hex)
    as (Hne & raw & Ec & Lr & Hi & Hrange).
  split; [exists raw; auto|].
  assert (Hs : scores_after_filter lower cosine
                 (normalize_text lower (pattern ex)) p (lit "all")
               = Ok (map Fin raw)).
  { unfold scores_after_filter. rewrite Ec. cbn [bind].
    rewrite str_eqb_refl. reflexivity. }
  assert (Hnn : map Fin raw <> [])
    by (intros E; apply map_eq_nil in E; subst raw; destruct i; discriminate).
  destruct (argmax_spec (map Fin raw) Hnn) as (r & Ea & Hr & M & _).
  rewrite length_map in Hr.
  destruct (nth_error raw r) as [x|] eqn:Ex; [|apply nth_error_None in Ex; lia].
  assert (Hb : nth_error (map Fin raw) r = Some (Fin x))
    by (rewrite nth_error_map, Ex; reflexivity).
  assert (Hx : x = 1).
  { assert (Hil : (i < length (map Fin raw))%nat)
      by (rewrite length_map; apply nth_error_Some; congruence).
    specialize (M i Hil).
    rewrite (nth_error_nth_score _ _ _ Hb) in M.
    rewrite (nth_error_nth_score (map Fin raw) i (Fin 1)) in M
      by (rewrite nth_error_map, Hi; reflexivity).
    simpl in M. pose proof (Hrange x (nth_error_In _ _ Ex)). lra. }
  subst x.
  rewrite (get_answer_with_source_decision lower vec cosine rnd (pattern ex) p
             (lit "all") (map Fin raw) r 1 Hne Hs Ea Hb).
  destruct (Rlt_dec 1 (get (p_threshold p) 0.25)); [eauto|].
  destruct (get_item_ok (p_examples p) r) as (best & Ee & _); [lia|].
  rewrite Ee. cbn [bind]. eauto.
Qed.

(** X27: On a payload trained for the BM25 or the Boolean method, the score
    returned with an answer is never negative, whatever the text and the
    topic filter. *)
Theorem trained_answer_score_nonneg (rnd : nat) (method_ : str)
  (threshold : R) (intents : option (list intent)) (rows : list qa_row)
  (p : index_payload vec) (text f : str) (ans : str) (s : score) (url : str) :
  train_payload lower fit_tfidf fit_bow method_ threshold intents rows = Ok p ->
  p_method p = Some (lit "bm25") \/ p_method p = Some (lit "boolean") ->
  get_answer_with_source lower cosine rnd text p f = Ok (ans, s, url) ->
  exists x, s = Fin x /\ 0 <= x.
Proof.
  intros Htrain Hmeth Hrun.
  destruct (train_payload_inv _ _ _ _ _ Htrain)
    as (Hne & _ & _ & m & Hm & _ & _ & _ & _ & Hbm & Hbo).
  assert (Hraw : forall q raw x, compute_scores cosine q p = Ok raw ->
                                 In x raw -> 0 <= x).
  { intros q raw x. unfold compute_scores.
    destruct Hmeth as [Hmeth | Hmeth]; rewrite Hmeth in Hm;
      injection Hm as <-; rewrite Hmeth.
    - destruct (Hbm eq_refl) as [Hix _]. rewrite Hix.
      change (mem (get (Some (lit "bm25")) (lit "tfidf"))
                  [lit "tfidf"; lit "bow"]) with false.
      change (str_eqb (get (Some (lit "bm25")) (lit "tfidf")) (lit "bm25"))
        with true.
      cbv iota. cbn [key bind]. intros E. injection E as <-.
      apply score_bm25_built_nonneg.
      intros E. apply map_eq_nil in E. contradiction.
    - rewrite (Hbo eq_refl).
      change (mem (get (Some (lit "boolean")) (lit "tfidf"))
                  [lit "tfidf"; lit "bow"]) with false.
      change (str_eqb (get (Some (lit "boolean")) (lit "tfidf")) (lit "bm25"))
        with false.
      cbv iota. cbn [key bind]. intros E. injection E as <-.
      intros Hx. apply score_boolean_range in Hx. lra. }
  destruct (get_answer_with_source_cases lower vec cosine _ _ _ _ _ _ _ Hrun)
    as [(_ & -> & _) | (scores & r & x & Hs & _ & Hb & -> & _)].
  - exists 0.0. split; [reflexivity | lra].
  - destruct (scores_after_filter_finite lower vec cosine _ _ _ _ Hs)
      as (raw & Er & Hfin).
    exists x. split; [reflexivity|].
    apply (Hraw _ raw x Er (nth_error_In _ _ (Hfin r x Hb))).
Qed.

End TrainingFacts.

(** ** Worked runs of training and the chat loop *)

(** A session: an unknown topic at the prompt, a switch of topic, one
    question, and [bye]. *)
Example chat_session_run :
  run_chat basic_lower no_cosine (fun _ => 0%nat) two_topic_payload
    (lit "cooking") [lit "/topic Account"; lit " reset password"; lit "bye"]
  = Ok [(lit "account",
         (lit "Go to settings > security > reset.", Fin (INR 2 / INR 2), []))].
Proof.
  unfold run_chat.
  replace (choose_initial_topic basic_lower (lit "cooking") two_topic_payload)
    with (lit "all") by (vm_compute; reflexivity).
  cbn [chat_loop].
  replace (chat_turn basic_lower no_cosine 0 two_topic_payload (lit "all")
             (lit "/topic Account"))
    with (@Ok turn (Next (lit "account"))) by (vm_compute; reflexivity).
  cbn [bind chat_loop].
  assert (E : chat_turn basic_lower no_cosine 0 two_topic_payload
                (lit "account") (lit " reset password")
              = Ok (Reply (lit "account")
                      (lit "Go to settings > security > reset.",
                       Fin (INR 2 / INR 2), []))).
  { unfold chat_turn. cbv zeta.
    replace (strip (lit " reset password")) with (lit "reset password")
      by (vm_compute; reflexivity).
    rewrite answer_with_topic_filter.
    replace (basic_lower (lit "reset password")) with (lit "reset password")
      by (vm_compute; reflexivity).
    reflexivity. }
  rewrite E. cbn [bind chat_loop].
  replace (chat_turn basic_lower no_cosine 0 two_topic_payload (lit "account")
             (lit "bye"))
    with (@Ok turn Stop) by (vm_compute; reflexivity).
  reflexivity.
Qed.

Example train_boolean_run :
  train_payload basic_lower unit_fit unit_fit (lit " Boolean") 0.25
    account_intents [python_row]
  = Ok trained_payload.
Proof.
  unfold train_payload.
  replace (validate_method basic_lower (lit " Boolean"))
    with (@Ok str (lit "boolean")) by (vm_compute; reflexivity).
  cbn [bind].
  replace (prepare_corpus basic_lower account_intents)
    with ([lit "reset my password"], [password_example])
    by (vm_compute; reflexivity).
  replace (prepare_corpus_from_csv_rows basic_lower [python_row])
    with ([lit "python tutorial"], [python_example])
    by (vm_compute; reflexivity).
  reflexivity.
Qed.

Example answer_on_trained_payload :
  get_answer_with_source basic_lower no_cosine 0
    (lit "Python tutorial?") trained_payload (lit "all")
  = Ok (lit "See the official tutorial.", Fin (INR 2 / INR 2),
        lit "https://docs.python.org").
Proof.
  unfold get_answer_with_source.
  replace (normalize_text basic_lower (lit "Python tutorial?"))
    with (lit "python tutorial") by (vm_compute; reflexivity).
  cbn -[Rlt_dec INR Rdiv].
  repeat match goal with
         | |- context [Rlt_dec ?a ?c] =>
             destruct (Rlt_dec a c) as [H | H];
             try (exfalso; simpl in H; lra); clear H;
             cbn -[Rlt_dec INR Rdiv]
         end.
  reflexivity.
Qed.

(** The filter [account] masks the second row of [two_topic_payload]. *)
Example filtered_scores_account :
  scores_after_filter basic_lower no_cosine
    (normalize_text basic_lower (lit "reset password"))
    two_topic_payload (lit "account")
  = Ok [Fin (INR 2 / INR 2); NegInf].
Proof.
  replace (normalize_text basic_lower (lit "reset password"))
    with (lit "reset password") by (vm_compute; reflexivity).
  reflexivity.
Qed.

(** ** Instances of the further properties *)

Lemma tokenize_tokens_lowercase_witness :
  In (lit "reset") (tokenize basic_lower (lit "Reset my PASSWORD"))
  /\ forall c, In c (lit "reset") -> is_lower_token_char c = true.
Proof.
  assert (H : In (lit "reset") (tokenize basic_lower (lit "Reset my PASSWORD")))
    by (vm_compute; left; reflexivity).
  split; [exact H|].
  apply (tokenize_tokens_lowercase basic_lower basic_lower_token_chars _ _ H).
Defined.

Lemma validate_method_spec_witness :
  strip (basic_lower (lit " BM25 ")) = lit "bm25"
  /\ validate_method basic_lower (lit " BM25 ") = Ok (lit "bm25")
  /\ validate_method basic_lower (lit "bm25") = Ok (lit "bm25")
  /\ validate_method basic_lower (lit "word2vec") = Raise ValueError.
Proof.
  assert (E : strip (basic_lower (lit " BM25 ")) = lit "bm25")
    by (vm_compute; reflexivity).
  split; [exact E|].
  destruct (validate_method_spec basic_lower basic_lower_fixes (lit " BM25 "))
    as [Hok _].
  rewrite E in Hok.
  destruct Hok as [H1 H2]; [right; right; left; reflexivity|].
  split; [exact H1|]. split; [exact H2|].
  apply (validate_method_spec basic_lower basic_lower_fixes (lit "word2vec")).
  intros H. apply (proj2 (mem_In _ _)) in H. vm_compute in H. discriminate H.
Defined.

Lemma run_chat_topic_filter_witness :
  topic_ok basic_lower two_topic_payload (lit "account")
  /\ exists k text,
       get_answer_with_source basic_lower no_cosine k text two_topic_payload
         (lit "account")
       = Ok (lit "Go to settings > security > reset.", Fin (INR 2 / INR 2), []).
Proof.
  apply (run_chat_topic_filter basic_lower unit no_cosine (fun _ => 0%nat)
           two_topic_payload (lit "cooking")
           [lit "/topic Account"; lit " reset password"; lit "bye"]
           _ chat_session_run).
  left. reflexivity.
Defined.

Lemma score_boolean_same_sets_witness :
  score_boolean [lit "reset"; lit "password"; lit "reset"]
    [[lit "reset"; lit "my"; lit "password"]]
  = score_boolean [lit "password"; lit "reset"]
      [[lit "password"; lit "my"; lit "reset"; lit "my"]].
Proof.
  apply score_boolean_same_sets.
  - intros t. simpl. tauto.
  - constructor; [intros t; simpl; tauto | constructor].
Defined.

Lemma score_boolean_extremes_witness :
  nth_error (score_boolean [lit "reset"; lit "password"]
               [[lit "python"]; [lit "reset"; lit "my"; lit "password"]]) 1
  = Some 1.
Proof.
  apply (proj1 (score_boolean_extremes [lit "reset"; lit "password"]
                  [[lit "python"]; [lit "reset"; lit "my"; lit "password"]]
                  1%nat [lit "reset"; lit "my"; lit "password"]
                  ltac:(discriminate) eq_refl)).
  intros t. simpl. tauto.
Defined.

Lemma score_bm25_sign_witness :
  exists s,
    nth_error (score_bm25 [lit "tutorial"] (build_bm25_index rare_term_docs)) 0
    = Some s
    /\ 0 < s.
Proof.
  destruct (score_bm25_sign rare_term_docs [lit "tutorial"] 0%nat
              [lit "python"; lit "tutorial"] eq_refl) as (s & E & _ & Hiff).
  exists s. split; [exact E|].
  apply Hiff. exists (lit "tutorial"). simpl. auto.
Defined.

Lemma score_bm25_unknown_term_witness :
  score_bm25 [lit "java"; lit "python"] (build_bm25_index rare_term_docs)
  = score_bm25 [lit "python"] (build_bm25_index rare_term_docs).
Proof.
  apply score_bm25_unknown_term.
  intros d Hd Ht. simpl in Hd. destruct Hd as [<- | [<- | []]]; simpl in Ht;
    repeat (destruct Ht as [Ht | Ht]; [vm_compute in Ht; discriminate Ht|]);
    exact Ht.
Defined.

Lemma idf_rarer_term_weighs_more_witness :
  dict_get (idf (build_bm25_index rare_term_docs)) (lit "python") 0.0
  < dict_get (idf (build_bm25_index rare_term_docs)) (lit "tutorial") 0.0.
Proof.
  apply (idf_rarer_term_weighs_more rare_term_docs
           [lit "python"; lit "tutorial"] [lit "python"]
           (lit "tutorial") (lit "python")).
  - left. reflexivity.
  - right. left. reflexivity.
  - right. left. reflexivity.
  - left. reflexivity.
  - vm_compute. lia.
Defined.

Lemma get_answer_with_source_total_witness :
  exists r,
    get_answer_with_source basic_lower no_cosine 0 (lit "weather today")
      two_topic_payload (lit "sports")
    = Ok r.
Proof.
  apply get_answer_with_source_total. reflexivity.
Defined.

Lemma answer_reaches_threshold_witness :
  exists x i ex raw,
    Fin (INR 2 / INR 2) = Fin x
    /\ get (p_threshold two_topic_payload) 0.25 <= x
    /\ compute_scores no_cosine
         (normalize_text basic_lower (lit "reset password")) two_topic_payload
       = Ok raw
    /\ nth_error raw i = Some x
    /\ nth_error (p_examples two_topic_payload) i = Some ex
    /\ In (lit "Go to settings > security > reset.") (responses ex).
Proof.
  apply (answer_reaches_threshold basic_lower unit no_cosine 0
           (lit "reset password") two_topic_payload (lit "account")
           _ _ _ answer_with_topic_filter).
  vm_compute. discriminate.
Defined.

Lemma answer_score_is_best_witness :
  In (Fin (INR 2 / INR 2)) [Fin (INR 2 / INR 2); NegInf]
  /\ forall s', In s' [Fin (INR 2 / INR 2); NegInf] ->
                ~ score_lt (Fin (INR 2 / INR 2)) s'.
Proof.
  apply (answer_score_is_best basic_lower unit no_cosine 0
           (lit "reset password") two_topic_payload (lit "account")
           [Fin (INR 2 / INR 2); NegInf] (INR 2 / INR 2)
           (lit "Go to settings > security > reset.") (Fin (INR 2 / INR 2)) []).
  - vm_compute. discriminate.
  - exact filtered_scores_account.
  - left. reflexivity.
  - exact answer_with_topic_filter.
Defined.

Lemma topic_filter_of_every_example_witness :
  get_answer_with_source basic_lower no_cosine 0
    (lit "How do I reset my password?") boolean_payload (lit "account")
  = get_answer_with_source basic_lower no_cosine 0
      (lit "How do I reset my password?") boolean_payload (lit "all").
Proof.
  apply topic_filter_of_every_example.
  intros ex [<- | []]. vm_compute. reflexivity.
Defined.

Lemma boolean_answer_score_range_witness :
  (exists x, Fin (INR 3 / INR 5) = Fin x /\ 0 <= x <= 1)
  /\ (1 < get (p_threshold boolean_payload) 0.25 ->
      lit "Go to settings > security > reset." = FALLBACK_MESSAGE).
Proof.
  apply (boolean_answer_score_range basic_lower unit no_cosine 0
           (lit "How do I reset my password?") boolean_payload (lit "all")
           _ _ _ eq_refl answer_password_query).
Defined.

Lemma evaluate_method_rates_witness :
  exists r,
    evaluate_method basic_lower no_cosine (lit "boolean") two_topic_payload
    = Ok r
    /\ 0 <= accuracy r /\ 0 <= fallback_rate r
    /\ accuracy r + fallback_rate r <= 1
    /\ (total r = 0%nat -> accuracy r = 0 /\ fallback_rate r = 0).
Proof.
  apply evaluate_method_rates; [reflexivity|].
  intros ex [<- | [<- | []]]; discriminate.
Defined.

Lemma evaluate_method_distinct_tags_witness :
  exists r,
    evaluate_method basic_lower no_cosine (lit "boolean") two_topic_payload
    = Ok r
    /\ correct r = 0%nat.
Proof.
  apply evaluate_method_distinct_tags; [reflexivity | |].
  - intros ex [<- | [<- | []]]; discriminate.
  - intros [|[|i]] [|[|j]] ei ej Hi Hj Hij; simpl in Hi, Hj;
      try congruence; try (destruct i; discriminate);
      try (destruct j; discriminate);
      injection Hi as <-; injection Hj as <-; vm_compute; discriminate.
Defined.

Lemma evaluate_method_boolean_high_threshold_witness :
  exists r,
    evaluate_method basic_lower no_cosine (lit "boolean")
      (with_threshold two_topic_payload 2)
    = Ok r
    /\ correct r = 0%nat /\ fallbacks r = total r.
Proof.
  apply evaluate_method_boolean_high_threshold;
    [reflexivity | reflexivity | simpl; lra].
Defined.

Lemma train_payload_aligned_witness :
  payload_aligned trained_payload = true
  /\ p_threshold trained_payload = Some 0.25
  /\ p_examples trained_payload <> []
  /\ exists m, p_method trained_payload = Some m /\ In m SUPPORTED_METHODS.
Proof.
  apply (train_payload_aligned basic_lower unit unit_fit unit_fit
           (lit " Boolean") 0.25 account_intents [python_row] trained_payload).
  - intros corpus vm E. injection E as <-. apply length_map.
  - intros corpus vm E. injection E as <-. apply length_map.
  - exact train_boolean_run.
Defined.

(** A supported method and a corpus that is not empty, yet the
    vectoriser finds no vocabulary: training fails with its error. *)
Lemma train_payload_errors_witness :
  train_payload basic_lower empty_vocabulary_fit empty_vocabulary_fit
    (lit "tfidf") 0.25 account_intents [python_row]
  = Raise ValueError
  /\ exists p,
       train_payload basic_lower empty_vocabulary_fit empty_vocabulary_fit
         (lit "Boolean") 0.25 account_intents [python_row]
       = Ok p.
Proof.
  assert (Htext : ~ ((forall pat, In pat (all_patterns account_intents) ->
                                  normalize_text basic_lower pat = [])
                     /\ (forall row, In row [python_row] ->
                           normalize_text basic_lower (question row) = []))).
  { intros [_ H]. specialize (H python_row (or_introl eq_refl)).
    vm_compute in H. discriminate H. }
  split.
  - destruct (train_payload_errors basic_lower unit empty_vocabulary_fit
                empty_vocabulary_fit (lit "tfidf") 0.25 account_intents
                [python_row]) as (_ & _ & H).
    destruct (H Htext) as (_ & Ht & _).
    apply Ht; [vm_compute; reflexivity | reflexivity].
  - destruct (train_payload_errors basic_lower unit empty_vocabulary_fit
                empty_vocabulary_fit (lit "Boolean") 0.25 account_intents
                [python_row]) as (_ & _ & H).
    destruct (H Htext) as (Hb & _).
    apply Hb. right. vm_compute. reflexivity.
Defined.

Lemma trained_boolean_verbatim_query_witness :
  (exists raw,
     compute_scores no_cosine
       (normalize_text basic_lower (pattern python_example)) trained_payload
     = Ok raw
     /\ nth_error raw 1 = Some 1)
  /\ exists ans url,
       get_answer_with_source basic_lower no_cosine 0 (pattern python_example)
         trained_payload (lit "all")
       = Ok (ans, Fin 1, url).
Proof.
  apply (trained_boolean_verbatim_query basic_lower unit no_cosine
           unit_fit unit_fit 0 (lit " Boolean") 0.25 account_intents
           [python_row] trained_payload 1 python_example
           train_boolean_run eq_refl eq_refl).
Defined.

Lemma trained_answer_score_nonneg_witness :
  exists x, Fin (INR 2 / INR 2) = Fin x /\ 0 <= x.
Proof.
  apply (trained_answer_score_nonneg basic_lower unit no_cosine
           unit_fit unit_fit 0 (lit " Boolean") 0.25 account_intents
           [python_row] trained_payload (lit "Python tutorial?") (lit "all")
           _ _ _ train_boolean_run (or_intror eq_refl)
           answer_on_trained_payload).
Defined.

Lemma load_csv_qa_rows_from_sources_clean_witness :
  In padded_table_row (load_csv_qa_rows_from_sources [[padded_table]])
  /\ topic padded_table_row <> []
  /\ strip (question padded_table_row) = question padded_table_row.
Proof.
  assert (H : In padded_table_row
                (load_csv_qa_rows_from_sources [[padded_table]]))
    by (vm_compute; left; reflexivity).
  split; [exact H|].
  destruct (load_csv_qa_rows_from_sources_clean _ _ H)
    as (_ & _ & Ht & Hq & _).
  split; [exact Ht | exact Hq].
Defined.
